(** * Product-Catalogue: the list page (js/main.js) and the detail page
      (js/product.js), embedded in Rocq.

    The embedding follows the two scripts function by function.  What the
    scripts take from the JavaScript engine is modelled in [JS]:

    - a string is a [string] holding UTF-8 text (one [ascii] per byte), and
      is assumed well formed (no lone surrogate in the JavaScript string);
    - a number is a binary64 [float]; the conversions between numbers and
      strings are computed exactly, over [Q];
    - a JSON value is a [value]; a product record is a JSON object, i.e. a
      finite map from field names to values, and a field that the object
      does not have reads as [Undefined];
    - what depends on the Unicode and locale tables of the host
      ([String.prototype.toLowerCase], [Intl.NumberFormat]) is a field of
      the class [Host].

    The arrays of the list page live in a heap, so that a variable holds a
    reference and [sort] works in place.  The network is what it answers
    to each request and after how long; the body of a response is taken to
    arrive whole with it, and the elements of the JSON array are taken to
    be objects, as the data file has them.  The timers of the
    window are a table of what is due when, and the event loop runs a
    timer as soon as it is due.  The loading of images, the keyboard
    listener of a card and the footer are not modelled.

    The file has three parts: the embedding, the vocabulary in which the
    properties are stated together with sample data, and the properties. *)

From Stdlib Require Import Floats ZArith QArith Qround Ascii String DecimalString DecimalN Uint63.
From stdpp Require Import gmap strings list sorting.

#[local] Set Warnings "-register-all".
#[local] Open Scope string_scope.
#[local] Open Scope list_scope.
#[local] Open Scope Z_scope.

(* ===================================================================== *)
(** ** The JavaScript engine *)
(* ===================================================================== *)

Module JS.

(** *** Strings *)

Definition bytes (l : list nat) : string :=
  string_of_list_ascii (map ascii_of_nat l).

(** [s.startsWith(q)] *)
Fixpoint startsWith (s q : string) {struct q} : bool :=
  match q with
  | "" => true
  | String c q' =>
      match s with
      | "" => false
      | String d s' => Ascii.eqb c d && startsWith s' q'
      end
  end.

(** [s.includes(q)] *)
Fixpoint includes (s q : string) : bool :=
  startsWith s q ||
  match s with
  | "" => false
  | String _ s' => includes s' q
  end.

(** [q] occurs in [s]: the specification of [includes]. *)
Definition substring_of (q s : string) : Prop :=
  ∃ a b, s = a +:+ q +:+ b.

(** The code points of WhiteSpace and LineTerminator (ECMA-262, 12.2 and
    12.3), each as its UTF-8 bytes: TAB, LF, VT, FF, CR, SP, NBSP,
    U+1680, U+2000 to U+200A, U+2028, U+2029, U+202F, U+205F, U+3000 and
    U+FEFF. *)
Definition white_space : list string :=
  map bytes
    [ [9]; [10]; [11]; [12]; [13]; [32]; [194; 160]; [225; 154; 128];
      [226; 128; 128]; [226; 128; 129]; [226; 128; 130]; [226; 128; 131];
      [226; 128; 132]; [226; 128; 133]; [226; 128; 134]; [226; 128; 135];
      [226; 128; 136]; [226; 128; 137]; [226; 128; 138]; [226; 128; 168];
      [226; 128; 169]; [226; 128; 175]; [226; 129; 159]; [227; 128; 128];
      [239; 187; 191] ]%nat.

Fixpoint drop_prefix (p s : string) : option string :=
  match p with
  | "" => Some s
  | String c p' =>
      match s with
      | "" => None
      | String d s' => if Ascii.eqb c d then drop_prefix p' s' else None
      end
  end.

(** Removes one leading white space character, if there is one. *)
Fixpoint drop_one (ws : list string) (s : string) : option string :=
  match ws with
  | [] => None
  | w :: ws' =>
      match drop_prefix w s with
      | Some s' => Some s'
      | None => drop_one ws' s
      end
  end.

Fixpoint drop_while (ws : list string) (fuel : nat) (s : string) : string :=
  match fuel with
  | O => s
  | S fuel' =>
      match drop_one ws s with
      | Some s' => drop_while ws fuel' s'
      | None => s
      end
  end.

Definition trimStart (s : string) : string :=
  drop_while white_space (String.length s) s.

Definition trimEnd (s : string) : string :=
  String.rev
    (drop_while (map String.rev white_space) (String.length s) (String.rev s)).

(** [s.trim()] *)
Definition trim (s : string) : string := trimEnd (trimStart s).

(** [s.replace(/c/g, r)] for a one-character pattern. *)
Fixpoint replaceAll (c : ascii) (r : string) (s : string) : string :=
  match s with
  | "" => ""
  | String d s' =>
      if Ascii.eqb c d then r +:+ replaceAll c r s'
      else String d (replaceAll c r s')
  end.

Fixpoint join (sep : string) (l : list string) : string :=
  match l with
  | [] => ""
  | [s] => s
  | s :: l' => s +:+ sep +:+ join sep l'
  end.

Definition hex_digit (n : nat) : ascii :=
  ascii_of_nat (if (n <? 10)%nat then 48 + n else 55 + n).

(** uriUnescaped of [encodeURIComponent]: letters, digits and [-_.!~*'()]. *)
Definition uri_unreserved (c : ascii) : bool :=
  let n := nat_of_ascii c in
  ((65 <=? n) && (n <=? 90) || (97 <=? n) && (n <=? 122) ||
   (48 <=? n) && (n <=? 57))%nat ||
  bool_decide (c ∈ list_ascii_of_string "-_.!~*'()").

(** [encodeURIComponent(s)]: every byte of the UTF-8 form that is not
    unreserved becomes [%XX]. *)
Fixpoint encodeURIComponent (s : string) : string :=
  match s with
  | "" => ""
  | String c s' =>
      (if uri_unreserved c then String c ""
       else
         let n := nat_of_ascii c in
         String "%" (String (hex_digit (n / 16)) (String (hex_digit (n mod 16)) "")))
      +:+ encodeURIComponent s'
  end.

(** A case mapping that covers Basic Latin and the Latin-1 Supplement:
    [A-Z] and U+00C0 to U+00DE (but U+00D7) gain 32. *)
Fixpoint latin_toLowerCase (s : string) : string :=
  match s with
  | "" => ""
  | String c s' =>
      let n := nat_of_ascii c in
      if ((65 <=? n) && (n <=? 90))%nat then
        String (ascii_of_nat (n + 32)) (latin_toLowerCase s')
      else if (n =? 195)%nat then
        match s' with
        | String d s'' =>
            let k := nat_of_ascii d in
            String c
              (String
                 (if ((128 <=? k) && (k <=? 158) && negb (k =? 151))%nat
                  then ascii_of_nat (k + 32) else d)
                 (latin_toLowerCase s''))
        | "" => String c ""
        end
      else String c (latin_toLowerCase s')
  end.

(** *** Numbers *)

Definition string_of_Z (z : Z) : string :=
  NilZero.string_of_uint (N.to_uint (Z.to_N z)).

Fixpoint zeros (n : nat) : string :=
  match n with
  | O => ""
  | S n' => String "0" (zeros n')
  end.

Definition Qpow (b : Z) (e : Z) : Q := Qpower (inject_Z b) e.

(** The rational [m * 2^e]. *)
Definition Q_of_finite (m : positive) (e : Z) : Q :=
  Qmult (inject_Z (Z.pos m)) (Qpow 2 e).

Definition float_of_Z (z : Z) : float :=
  let f := of_uint63 (Uint63.of_Z (Z.abs z)) in
  if z <? 0 then (- f)%float else f.

(** Round to nearest, ties to even, of a positive rational; the result is
    [m * 2^e] as a number, or [infinity]. *)
Definition float_of_Qpos (q : Q) : float :=
  let n := Qnum q in
  let d := Z.pos (Qden q) in
  let l := Z.log2 n - Z.log2 d in
  let l := if Qle_bool (Qpow 2 l) q then l else l - 1 in
  let e := Z.max (l - 52) (-1074) in
  let t := Qdiv q (Qpow 2 e) in
  let f := Qfloor t in
  let r := Qminus t (inject_Z f) in
  let m :=
    match Qcompare r (1 # 2) with
    | Lt => f
    | Gt => f + 1
    | Eq => if Z.even f then f else f + 1
    end in
  if 2 ^ 53 <=? m * 2 ^ (e - 971) then PrimFloat.infinity
  else Z.ldexp (float_of_Z m) e.

(** Whether the real [v] rounds to the number [m * 2^e]: [v] lies between
    the midpoints to the two neighbours, which belong to the interval when
    [m] is even. *)
Definition rounds_to (m : positive) (e : Z) (v : Q) : bool :=
  let x := Q_of_finite m e in
  let up := Qpow 2 (e - 1) in
  let down :=
    if (Z.pos m =? 2 ^ 52) && (-1074 <? e) then Qpow 2 (e - 2) else up in
  let lo := Qminus x down in
  let hi := Qplus x up in
  if Z.even (Z.pos m)
  then Qle_bool lo v && Qle_bool v hi
  else negb (Qle_bool v lo) && negb (Qle_bool hi v).

(** The [n] with [10^(n-1) <= x < 10^n], searched upwards from [n]; the
    search starts just below [log10 x], estimated from [log2 x]. *)
Fixpoint decimal_exponent (fuel : nat) (n : Z) (x : Q) : Z :=
  match fuel with
  | O => n
  | S fuel' =>
      if Qle_bool (Qpow 10 n) x then decimal_exponent fuel' (n + 1) x else n
  end.

(** The digits [s], their count [k] and the exponent [n] of
    Number::toString (ECMA-262, 6.1.6.1.20, step 5 as note 2 recommends
    it): the fewest digits that read back as the number, and among these
    the closest to it. *)
Fixpoint shortest (fuel : nat) (k : Z) (m : positive) (e : Z) (n : Z)
  : Z * Z * Z :=
  let x := Q_of_finite m e in
  let scale := Qpow 10 (n - k) in
  let sl := Qfloor (Qdiv x scale) in
  let sh := sl + 1 in
  let vl := Qmult (inject_Z sl) scale in
  let vh := Qmult (inject_Z sh) scale in
  let low := (sl, k, n) in
  let high := if sh =? 10 ^ k then (10 ^ (k - 1), k, n + 1) else (sh, k, n) in
  match fuel with
  | O => low
  | S fuel' =>
      match rounds_to m e vl, rounds_to m e vh with
      | true, true =>
          match Qcompare (Qminus x vl) (Qminus vh x) with
          | Lt => low
          | Gt => high
          | Eq => if Z.even sl then low else high
          end
      | true, false => low
      | false, true => high
      | false, false => shortest fuel' (k + 1) m e n
      end
  end.

Definition string_of_positive_finite (m : positive) (e : Z) : string :=
  let l := Z.log2 (Z.pos m) + e in
  let n0 := decimal_exponent 4 (l * 30103 / 100000 - 1) (Q_of_finite m e) in
  let '(s, k, n) := shortest 17 1 m e n0 in
  let digits := string_of_Z s in
  let kn := Z.to_nat k in
  if (k <=? n) && (n <=? 21) then
    digits +:+ zeros (Z.to_nat (n - k))
  else if (0 <? n) && (n <=? 21) then
    String.substring 0 (Z.to_nat n) digits +:+ "." +:+
    String.substring (Z.to_nat n) (kn - Z.to_nat n) digits
  else if (-6 <? n) && (n <=? 0) then
    "0." +:+ zeros (Z.to_nat (- n)) +:+ digits
  else
    let ex := (if 0 <=? n - 1 then "+" else "-") +:+ string_of_Z (Z.abs (n - 1)) in
    if k =? 1 then digits +:+ "e" +:+ ex
    else
      String.substring 0 1 digits +:+ "." +:+
      String.substring 1 (kn - 1) digits +:+ "e" +:+ ex.

(** Number::toString, radix 10. *)
Definition number_to_string (x : float) : string :=
  match Prim2SF x with
  | S754_nan => "NaN"
  | S754_zero _ => "0"
  | S754_infinity s => if s then "-Infinity" else "Infinity"
  | S754_finite s m e =>
      (if s then "-" else "") +:+ string_of_positive_finite m e
  end.

(** [x.toFixed(2)] *)
Definition toFixed2 (x : float) : string :=
  match Prim2SF x with
  | S754_nan => "NaN"
  | S754_infinity _ => number_to_string x
  | S754_zero _ => "0.00"
  | S754_finite s m e =>
      let q := Q_of_finite m e in
      if Qle_bool (Qpow 10 21) q then number_to_string x
      else
        let n := Qfloor (Qplus (Qmult q (inject_Z 100)) (1 # 2)) in
        let digits := string_of_Z n in
        let digits :=
          zeros (3 - String.length digits) +:+ digits in
        let k := String.length digits in
        (if s then "-" else "") +:+
        String.substring 0 (k - 2) digits +:+ "." +:+
        String.substring (k - 2) 2 digits
  end.

(** [Math.round(x)]: the nearest integer, a tie going up. *)
Definition Math_round (x : float) : float :=
  match Prim2SF x with
  | S754_finite s m e =>
      if 0 <=? e then x
      else
        let q := Q_of_finite m e in
        let q := if s then Qopp q else q in
        let r := Qfloor (Qplus q (1 # 2)) in
        if r =? 0 then (if s then PrimFloat.neg_zero else PrimFloat.zero) else float_of_Z r
  | _ => x
  end.

(** *** StringToNumber (ECMA-262, 7.1.4.1.1) *)

Definition digit_of (radix : Z) (c : ascii) : option Z :=
  let n := Z.of_nat (nat_of_ascii c) in
  let d :=
    if (48 <=? n) && (n <=? 57) then n - 48
    else if (97 <=? n) && (n <=? 122) then n - 87
    else if (65 <=? n) && (n <=? 90) then n - 55
    else radix in
  if d <? radix then Some d else None.

(** Reads the longest run of digits: its value, its length, the rest. *)
Fixpoint read_digits (radix : Z) (s : string) (acc : Z) (len : Z)
  : Z * Z * string :=
  match s with
  | "" => (acc, len, "")
  | String c s' =>
      match digit_of radix c with
      | Some d => read_digits radix s' (acc * radix + d) (len + 1)
      | None => (acc, len, s)
      end
  end.

Definition read_sign (s : string) : bool * string :=
  match s with
  | String "-" s' => (true, s')
  | String "+" s' => (false, s')
  | _ => (false, s)
  end.

(** ExponentPart, or nothing: the exponent and the rest; [None] when an
    exponent indicator is not followed by digits. *)
Definition read_exponent (s : string) : option (Z * string) :=
  match s with
  | String c s' =>
      if Ascii.eqb c "e" || Ascii.eqb c "E" then
        let '(neg, s1) := read_sign s' in
        let '(ex, len, rest) := read_digits 10 s1 0 0 in
        if len =? 0 then None else Some (if neg then - ex else ex, rest)
      else Some (0, s)
  | "" => Some (0, "")
  end.

(** The number nearest to [d * 10^ex]; beyond [10^400] and below
    [10^-400] the power of ten is not computed. *)
Definition float_of_decimal (d ex : Z) : float :=
  let len := Z.of_nat (String.length (string_of_Z d)) in
  if d =? 0 then PrimFloat.zero
  else if 400 <? len + ex then PrimFloat.infinity
  else if len + ex <? -400 then PrimFloat.zero
  else float_of_Qpos (Qmult (inject_Z d) (Qpow 10 ex)).

Definition apply_sign (neg : bool) (x : float) : float :=
  if neg then (- x)%float else x.

(** StrUnsignedDecimalLiteral, after the sign. *)
Definition read_decimal (neg : bool) (s : string) : float :=
  if String.eqb s "Infinity" then apply_sign neg PrimFloat.infinity
  else
    let '(ip, ilen, s1) := read_digits 10 s 0 0 in
    let '(fp, flen, s2) :=
      match s1 with
      | String "." s1' => read_digits 10 s1' ip 0
      | _ => (ip, 0, s1)
      end in
    if (ilen =? 0) && (flen =? 0) then PrimFloat.nan
    else
      match read_exponent s2 with
      | Some (ex, "") =>
          apply_sign neg (float_of_decimal fp (ex - flen))
      | _ => PrimFloat.nan
      end.

(** NonDecimalIntegerLiteral: the digits after [0x], [0o] or [0b]. *)
Definition read_radix (radix : Z) (s : string) : float :=
  let '(v, len, rest) := read_digits radix s 0 0 in
  if (len =? 0) || negb (String.eqb rest "") then PrimFloat.nan
  else if v =? 0 then PrimFloat.zero
  else float_of_Qpos (inject_Z v).

Definition StringToNumber (s : string) : float :=
  let t := trim s in
  match t with
  | "" => PrimFloat.zero
  | String "0" (String c t') =>
      if Ascii.eqb c "x" || Ascii.eqb c "X" then read_radix 16 t'
      else if Ascii.eqb c "o" || Ascii.eqb c "O" then read_radix 8 t'
      else if Ascii.eqb c "b" || Ascii.eqb c "B" then read_radix 2 t'
      else read_decimal false t
  | _ => let '(neg, t') := read_sign t in read_decimal neg t'
  end.

(** *** URLs (URL standard) *)

Fixpoint every (P : ascii → bool) (s : string) : bool :=
  match s with
  | "" => true
  | String c s' => P c && every P s'
  end.

Fixpoint drop_leading (P : ascii → bool) (s : string) : string :=
  match s with
  | "" => ""
  | String c s' => if P c then drop_leading P s' else s
  end.

Fixpoint drop_trailing (P : ascii → bool) (s : string) : string :=
  match s with
  | "" => ""
  | String c s' =>
      match drop_trailing P s' with
      | "" => if P c then "" else String c ""
      | r => String c r
      end
  end.

(** [s] without its characters in [P]. *)
Fixpoint remove (P : ascii → bool) (s : string) : string :=
  match s with
  | "" => ""
  | String c s' => if P c then remove P s' else String c (remove P s')
  end.

(** The part before the first character in [P], and the rest from that
    character on. *)
Fixpoint break_at (P : ascii → bool) (s : string) : string * string :=
  match s with
  | "" => ("", "")
  | String c s' =>
      if P c then ("", s)
      else let '(a, b) := break_at P s' in (String c a, b)
  end.

Fixpoint split_on (sep : ascii) (s : string) : list string :=
  match s with
  | "" => [""]
  | String c s' =>
      if Ascii.eqb c sep then "" :: split_on sep s'
      else
        match split_on sep s' with
        | x :: l => String c x :: l
        | [] => [String c ""]
        end
  end.

Definition is_c0_or_space (c : ascii) : bool := (nat_of_ascii c <=? 32)%nat.

Definition is_tab_or_newline (c : ascii) : bool :=
  let n := nat_of_ascii c in ((n =? 9) || (n =? 10) || (n =? 13))%nat.

(** The special-query percent-encode set: the C0 controls, the space,
    the bytes above [~], the double quote and the characters [#], [<],
    [>] and the quote. *)
Definition in_query_set (c : ascii) : bool :=
  let n := nat_of_ascii c in
  ((n <=? 32) || (127 <=? n) || (n =? 34) || (n =? 35) || (n =? 60)
   || (n =? 62) || (n =? 39))%nat.

Fixpoint query_encode (s : string) : string :=
  match s with
  | "" => ""
  | String c s' =>
      (if in_query_set c then
         let n := nat_of_ascii c in
         String "%" (String (hex_digit (n / 16)) (String (hex_digit (n mod 16)) ""))
       else String c "")
      +:+ query_encode s'
  end.

(** [location.search] of the document that a link opens, for a page with
    an [http] or [https] address and a reference to the link's own site:
    a path and perhaps a query and a fragment.  The URL parser strips
    the controls and spaces at both ends, drops every tab and newline and
    percent-encodes the query.  [None] for a reference with a [:] before
    the query, which may name a scheme. *)
Definition location_search (reference : string) : option string :=
  let input :=
    remove is_tab_or_newline
      (drop_trailing is_c0_or_space (drop_leading is_c0_or_space reference)) in
  let '(path, rest) :=
    break_at (λ c, Ascii.eqb c "?" || Ascii.eqb c "#") input in
  if every (λ c, negb (Ascii.eqb c ":")) path then
    match rest with
    | String "?" q =>
        let '(query, _) := break_at (λ c, Ascii.eqb c "#") q in
        Some (if String.eqb query "" then "" else "?" +:+ query_encode query)
    | _ => Some ""
    end
  else None.

Definition hex_value (c : ascii) : option nat :=
  Z.to_nat <$> digit_of 16 c.

(** Percent-decoding: [%XX] becomes the byte [XX]; a [%] that two
    hexadecimal digits do not follow stays. *)
Fixpoint percent_decode (s : string) : string :=
  match s with
  | "" => ""
  | String c s' =>
      let keep := String c (percent_decode s') in
      if Ascii.eqb c "%" then
        match s' with
        | String h (String l s'') =>
            match hex_value h, hex_value l with
            | Some a, Some b =>
                String (ascii_of_nat (16 * a + b)) (percent_decode s'')
            | _, _ => keep
            end
        | _ => keep
        end
      else keep
  end.

(** UTF-8 decode without BOM (Encoding standard), the result in UTF-8
    again: what is well formed stays, and each ill-formed part becomes
    U+FFFD.  The state of the decoder is the bytes of the code point read
    so far, the number of bytes that it still needs and the bounds of the
    next byte. *)
Definition replacement : string := bytes [239; 191; 189]%nat.

Definition utf8_lead (c : ascii) : string + (string * nat * nat * nat) :=
  let b := nat_of_ascii c in
  if (b <=? 127)%nat then inl (String c "")
  else if ((194 <=? b) && (b <=? 223))%nat then inr (String c "", 1, 128, 191)%nat
  else if ((224 <=? b) && (b <=? 239))%nat then
    inr (String c "", 2, if (b =? 224)%nat then 160 else 128,
         if (b =? 237)%nat then 159 else 191)%nat
  else if ((240 <=? b) && (b <=? 244))%nat then
    inr (String c "", 3, if (b =? 240)%nat then 144 else 128,
         if (b =? 244)%nat then 143 else 191)%nat
  else inl replacement.

Fixpoint utf8_decode_from (st : option (string * nat * nat * nat))
    (s : string) : string :=
  match s with
  | "" => match st with None => "" | Some _ => replacement end
  | String c s' =>
      let start :=
        match utf8_lead c with
        | inl out => out +:+ utf8_decode_from None s'
        | inr st' => utf8_decode_from (Some st') s'
        end in
      match st with
      | None => start
      | Some (seen, needed, lower, upper) =>
          let b := nat_of_ascii c in
          if ((lower <=? b) && (b <=? upper))%nat then
            if (needed =? 1)%nat then
              (seen +:+ String c "") +:+ utf8_decode_from None s'
            else
              utf8_decode_from
                (Some (seen +:+ String c "", needed - 1, 128, 191)%nat) s'
          else replacement +:+ start
      end
  end.

Definition utf8_decode (s : string) : string := utf8_decode_from None s.

(** A name or a value of the application/x-www-form-urlencoded parser: a
    [+] is a space, then percent-decoding, then UTF-8 decoding. *)
Definition form_decode (s : string) : string :=
  utf8_decode
    (percent_decode
       (string_of_list_ascii
          (map (λ c, if Ascii.eqb c "+" then " "%char else c)
             (list_ascii_of_string s)))).

(** [new URLSearchParams(init)] for a string: without a leading [?], each
    part between [&] that is not empty is a pair, split at its first
    [=]. *)
Definition URLSearchParams (init : string) : list (string * string) :=
  let input :=
    match init with
    | String "?" s => s
    | _ => init
    end in
  omap
    (λ part,
       if String.eqb part "" then None
       else
         let '(name, rest) := break_at (λ c, Ascii.eqb c "=") part in
         let value :=
           match rest with
           | String _ v => v
           | "" => ""
           end in
         Some (form_decode name, form_decode value))
    (split_on "&" input).

(** *** parseInt *)

(** [parseInt(string)], without a radix (ECMA-262, 19.2.5): the integer
    that the longest prefix of digits denotes, after white space and a
    sign, in base 16 after [0x] and in base 10 otherwise; [None] is
    [NaN].  The result is the mathematical value, which the number that
    [parseInt] returns equals below [2^53]. *)
Definition parseInt (s : string) : option Z :=
  let '(neg, s1) := read_sign (trimStart s) in
  let '(radix, s2) :=
    match s1 with
    | String "0" (String c s') =>
        if Ascii.eqb c "x" || Ascii.eqb c "X" then (16, s') else (10, s1)
    | _ => (10, s1)
    end in
  let '(v, len, _) := read_digits radix s2 0 0 in
  if len =? 0 then None else Some (if neg then - v else v).

End JS.

(* ===================================================================== *)
(** ** JSON values and their coercions *)
(* ===================================================================== *)

Inductive value :=
  | Undefined
  | Null
  | Bool (b : bool)
  | Num (f : float)
  | Str (s : string)
  | Arr (l : list value)
  | Obj (m : gmap string value).

(** A product record: the fields of a JSON object. *)
Abbreviation record := (gmap string value).

(** [p.k] *)
Definition get (p : record) (k : string) : value :=
  default Undefined (p !! k).

(** ToString; an array joins its elements with a comma, [null] and
    [undefined] elements giving the empty string. *)
Fixpoint ToString (v : value) : string :=
  match v with
  | Undefined => "undefined"
  | Null => "null"
  | Bool b => if b then "true" else "false"
  | Num f => JS.number_to_string f
  | Str s => s
  | Arr l =>
      JS.join ","
        (map (λ e, match e with
                   | Undefined | Null => ""
                   | _ => ToString e
                   end) l)
  | Obj _ => "[object Object]"
  end.

(** ToNumber *)
Definition ToNumber (v : value) : float :=
  match v with
  | Undefined => PrimFloat.nan
  | Null => PrimFloat.zero
  | Bool b => if b then 1%float else PrimFloat.zero
  | Num f => f
  | Str s => JS.StringToNumber s
  | Arr _ | Obj _ => JS.StringToNumber (ToString v)
  end.

(** ToBoolean: [undefined], [null], [false], [0], [-0], [NaN] and the
    empty string are falsy. *)
Definition ToBoolean (v : value) : bool :=
  match v with
  | Undefined | Null => false
  | Bool b => b
  | Num f => negb (PrimFloat.is_zero f || PrimFloat.is_nan f)
  | Str s => negb (String.eqb s "")
  | Arr _ | Obj _ => true
  end.

(** [a || b] *)
Definition js_or (a b : value) : value :=
  if ToBoolean a then a else b.

(** What the host supplies: the Unicode case mapping behind
    [String.prototype.toLowerCase], and the [format] method of
    [new Intl.NumberFormat("en-IN", {style: "currency", currency: "INR",
    maximumFractionDigits: 2})], which is [None] where the constructor or
    the method throws. *)
Class Host := {
  toLowerCase : string → string;
  toLowerCase_empty : toLowerCase "" = "";
  Intl_format : value → option string;
}.

(** A host with the Latin case mapping and without [Intl]. *)
Definition latin_host : Host :=
  {| toLowerCase := JS.latin_toLowerCase;
     toLowerCase_empty := eq_refl;
     Intl_format := λ _, None |}.

(* ===================================================================== *)
(** ** The document *)
(* ===================================================================== *)

(** A DOM node.  [Html s] stands for the nodes that the HTML parser makes
    of [s] when [s] is assigned to [innerHTML]. *)
Inductive node :=
  | Text (s : string)
  | Html (markup : string)
  | Element (tag : string) (attrs : gmap string string) (children : list node).

(** An element of the [children] array of [el]. *)
Inductive child :=
  | CValue (v : value)
  | CNode (n : node).

(** An array lives in the heap, and a variable holds a reference to it. *)
Abbreviation loc := positive.
Abbreviation heap := (gmap loc (list record)).

Definition alloc (h : heap) (l : list record) : loc * heap :=
  let r := fresh (dom h) in (r, <[r := l]> h).

Definition deref (h : heap) (r : loc) : list record :=
  default [] (h !! r).

(** [Array.prototype.sort(comparefn)].  ECMA-262 requires the sort to be
    stable, treats a [NaN] returned by [comparefn] as [+0], and leaves the
    order to the implementation when [comparefn] is not a consistent
    comparison function.  The model is the stable insertion sort: an
    element moves behind a later one only where [comparefn] is positive. *)
Definition sort_gt {A} (comparefn : A → A → float) (x y : A) : bool :=
  (0 <? comparefn x y)%float.

Fixpoint sort_insert {A} (comparefn : A → A → float) (x : A) (l : list A)
  : list A :=
  match l with
  | [] => [x]
  | y :: l' =>
      if sort_gt comparefn x y then y :: sort_insert comparefn x l'
      else x :: l
  end.

Definition Array_sort {A} (comparefn : A → A → float) (l : list A) : list A :=
  foldr (sort_insert comparefn) [] l.

(** [Array.prototype.find] *)
Definition Array_find {A} (f : A → bool) (l : list A) : option A :=
  List.find f l.

(** In the markup literals of this file a backquote stands for the double
    quote of the source; [markup] puts the double quotes back.  [LF] is the
    line feed. *)
Definition markup (s : string) : string :=
  JS.replaceAll "`" (JS.bytes [34%nat]) s.

Definition LF : string := JS.bytes [10%nat].

(** *** The network *)

(** The body of a response, as [res.json()] and [Array.isArray] see it.
    The model covers the bodies that arrive whole and whose array
    elements are objects.  A body that stalls after the headers (the
    scripts await [res.json()] outside the race with the timer) and an
    array with an element such as [null] (on which [createCard] and the
    callback of [find] throw inside [try]) are outside it, and every
    statement about loading names the replies that it is about. *)
Inductive body :=
  | Malformed                       (* [res.json()] rejects *)
  | NotAnArray                      (* JSON, but not an array *)
  | ArrayOf (l : list record).

Record response := {
  ok : bool;
  status : nat;
  json : body;
}.

(** What the network does with one request, and after how many ms. *)
Inductive reply :=
  | Responds (after : N) (res : response)
  | Fails (after : N)
  | Hangs.

Inductive fetch_error :=
  | TimedOut
  | NetworkError.

(** [safeFetch(url, options, timeout)]: [fetch] raced against a timer of
    [timeout] ms, which the first of the two to settle decides (the timer,
    when both are due at the same time); a settled promise ignores the
    later [reject].  Both scripts have the same [safeFetch]. *)
Definition safeFetch (net : reply) (timeout : N) : response + fetch_error :=
  match net with
  | Responds after res => if (after <? timeout)%N then inl res else inr TimedOut
  | Fails after => if (after <? timeout)%N then inr NetworkError else inr TimedOut
  | Hangs => inr TimedOut
  end.

(** What an attempt leaves behind, in order. *)
Inductive event :=
  | Request (url : string) (timeout : N)
  | Warn (attempt : nat)
  | Sleep (ms : N).

(** *** Timers *)

(** The timers of the window: the time in ms, the id that the next timer
    gets, and for each pending timer the time at which it is due and its
    callback.  A callback is kept as the data that it has captured. *)
Record timers (A : Type) := {
  clock : N;
  next_timer : positive;
  pending : gmap positive (N * A);
}.
Arguments clock {A} _.
Arguments next_timer {A} _.
Arguments pending {A} _.

(** [setTimeout(callback, delay)]: the id of the new timer. *)
Definition setTimeout {A} (callback : A) (delay : N) (w : timers A)
  : positive * timers A :=
  (next_timer w,
   {| clock := clock w; next_timer := Pos.succ (next_timer w);
      pending := <[next_timer w := ((clock w + delay)%N, callback)]> (pending w) |}).

(** [clearTimeout(id)]; [None] is [undefined], and an id that is not
    pending is ignored. *)
Definition clearTimeout {A} (id : option positive) (w : timers A) : timers A :=
  match id with
  | Some i =>
      {| clock := clock w; next_timer := next_timer w;
         pending := delete i (pending w) |}
  | None => w
  end.

(** The pending timer that runs first: the one that is due first and,
    among those due at the same time, the one that was set first. *)
Definition runs_before {A} (x y : positive * (N * A)) : bool :=
  (x.2.1 <? y.2.1)%N || ((x.2.1 =? y.2.1)%N && (x.1 <? y.1)%positive).

Definition first_due {A} (p : gmap positive (N * A))
  : option (positive * (N * A)) :=
  foldr (λ x acc,
           match acc with
           | Some y => if runs_before y x then Some y else Some x
           | None => Some x
           end) None (map_to_list p).

(** The event loop while nothing else happens: the timers that are due
    by [until] run in their order, each at its time, as soon as it is
    due; [run] is what a callback does to the state [S] of the page.  The
    callbacks of these scripts set no timers, so [fuel] is the number of
    pending timers. *)
Fixpoint run_due {A S} (fuel : nat) (until : N) (run : A → S → S)
    (w : timers A) (s : S) : timers A * S :=
  match fuel with
  | O => (w, s)
  | S fuel' =>
      match first_due (pending w) with
      | Some (id, (time, callback)) =>
          if (time <=? until)%N then
            run_due fuel' until run
              {| clock := N.max (clock w) time; next_timer := next_timer w;
                 pending := delete id (pending w) |}
              (run callback s)
          else (w, s)
      | None => (w, s)
      end
  end.

(** [ms] milliseconds pass. *)
Definition elapse {A S} (ms : N) (run : A → S → S) (w : timers A) (s : S)
  : timers A * S :=
  let until := (clock w + ms)%N in
  let '(w, s) := run_due (size (pending w)) until run w s in
  ({| clock := until; next_timer := next_timer w; pending := pending w |}, s).

(** *** Arrays and class lists *)

(** [array[index]] for the result of [parseInt]: the element, or [None]
    for [undefined], when the index is [NaN], below zero or not below the
    length; an array has fewer than [2^32 - 1] elements. *)
Definition Array_get {A} (l : list A) (index : option Z) : option A :=
  match index with
  | Some i =>
      if (0 <=? i) && (i <? 2 ^ 32 - 1) then l !! Z.to_nat i else None
  | None => None
  end.

(** [classList.remove(token)] and [classList.add(token)] *)
Definition classList_remove (token : string) (classList : list string)
  : list string :=
  List.filter (λ x, negb (String.eqb x token)) classList.

Definition classList_add (token : string) (classList : list string)
  : list string :=
  if existsb (String.eqb token) classList then classList
  else classList ++ [token].

(* ===================================================================== *)
(** ** js/main.js: the product list page *)
(* ===================================================================== *)

Module Main.

Definition PRODUCTS_URL : string := "data/products.json".
Definition MERCHANT_EMAIL : string := "urvish.entp@gmail.com".
Definition FETCH_TIMEOUT : N := 8000.
Definition MAX_RETRIES : nat := 1.

(** The globals of the script and the parts of the document it binds to. *)
Record page := {
  products : loc;                 (* [let products] *)
  lastRendered : loc;             (* [let lastRendered] *)
  store : heap;                   (* the arrays *)
  search_value : string;          (* [searchInput.value] *)
  sort_value : string;            (* [sortSelect.value] *)
  msg_text : string;              (* [msgEl.textContent] *)
  msg_aria_hidden : option string;(* the [aria-hidden] attribute of [msgEl] *)
  container : list node;          (* the children of [productsContainer] *)
  origin : string;                (* [window.location.origin] *)
}.

Definition set_msg (text hidden : string) (st : page) : page :=
  {| products := products st; lastRendered := lastRendered st;
     store := store st; search_value := search_value st;
     sort_value := sort_value st; msg_text := text;
     msg_aria_hidden := Some hidden; container := container st;
     origin := origin st |}.

Definition set_container (c : list node) (st : page) : page :=
  {| products := products st; lastRendered := lastRendered st;
     store := store st; search_value := search_value st;
     sort_value := sort_value st; msg_text := msg_text st;
     msg_aria_hidden := msg_aria_hidden st; container := c;
     origin := origin st |}.

Definition set_store (h : heap) (st : page) : page :=
  {| products := products st; lastRendered := lastRendered st;
     store := h; search_value := search_value st;
     sort_value := sort_value st; msg_text := msg_text st;
     msg_aria_hidden := msg_aria_hidden st; container := container st;
     origin := origin st |}.

Definition set_products (r : loc) (st : page) : page :=
  {| products := r; lastRendered := lastRendered st;
     store := store st; search_value := search_value st;
     sort_value := sort_value st; msg_text := msg_text st;
     msg_aria_hidden := msg_aria_hidden st; container := container st;
     origin := origin st |}.

(** The user types [text] into the search box, or selects [key]. *)
Definition set_search_value (text : string) (st : page) : page :=
  {| products := products st; lastRendered := lastRendered st;
     store := store st; search_value := text;
     sort_value := sort_value st; msg_text := msg_text st;
     msg_aria_hidden := msg_aria_hidden st; container := container st;
     origin := origin st |}.

Definition set_sort_value (key : string) (st : page) : page :=
  {| products := products st; lastRendered := lastRendered st;
     store := store st; search_value := search_value st;
     sort_value := key; msg_text := msg_text st;
     msg_aria_hidden := msg_aria_hidden st; container := container st;
     origin := origin st |}.

Definition set_lastRendered (r : loc) (st : page) : page :=
  {| products := products st; lastRendered := r;
     store := store st; search_value := search_value st;
     sort_value := sort_value st; msg_text := msg_text st;
     msg_aria_hidden := msg_aria_hidden st; container := container st;
     origin := origin st |}.

(** The theme: the [data-theme] attribute of the root element, the storage
    of the origin and the text of the toggle button. *)
Record theme_state := {
  data_theme : option string;
  localStorage : gmap string string;
  toggle_text : string;
}.

Section main_js.
Context `{Host}.

(* -------------------- Utilities -------------------- *)

Definition formatINR (n : value) : string :=
  match Intl_format n with
  | Some s => s
  | None => "₹" +:+ JS.toFixed2 (ToNumber n)
  end.

(** [el(tag, props, children)]: [className] sets the class, [html] sets
    [innerHTML], any other key sets the attribute of that name; of the
    children, a string becomes a text node, a node is appended and
    anything else is skipped. *)
Definition el (tag : string) (props : list (string * value))
    (children : list child) : node :=
  let '(attrs, inner) :=
    foldl
      (λ '(attrs, inner) '(k, v),
         if String.eqb k "className" then (<["class" := ToString v]> attrs, inner)
         else if String.eqb k "html" then (attrs, [Html (ToString v)])
         else (<[k := ToString v]> attrs, inner))
      (∅, []) props in
  Element tag attrs
    (inner ++
     omap (λ c, match c with
                | CValue (Str s) => Some (Text s)
                | CValue _ => None
                | CNode n => Some n
                end) children).

(* -------------------- Contact link builders -------------------- *)

Definition makeWhatsAppLink (origin : string) (p : record) : string :=
  let phone := "916353288843" in
  let productUrl := origin +:+ "/product.html?id=" +:+ ToString (get p "id") in
  let msg :=
    "Hello, I'm interested in " +:+ ToString (get p "name") +:+ " (ID: " +:+
    ToString (get p "id") +:+ "). Is it available?" +:+ LF +:+ LF +:+
    "Product Link: " +:+ productUrl in
  if negb (String.eqb phone "")
  then "https://wa.me/" +:+ phone +:+ "?text=" +:+ JS.encodeURIComponent msg
  else "https://wa.me/?text=" +:+ JS.encodeURIComponent msg.

Definition makeEmailLink (origin : string) (p : record) : string :=
  let subject := "Product enquiry: " +:+ ToString (get p "name") in
  let productUrl := origin +:+ "/product.html?id=" +:+ ToString (get p "id") in
  let body :=
    "Hi,%0D%0A%0D%0AI am interested in " +:+ ToString (get p "name") +:+
    " (ID: " +:+ ToString (get p "id") +:+
    "). Please share availability and pricing.%0D%0A%0D%0AProduct Link: " +:+
    productUrl +:+ "%0D%0A%0D%0AThanks." in
  "mailto:" +:+ MERCHANT_EMAIL +:+ "?subject=" +:+
  JS.encodeURIComponent subject +:+ "&body=" +:+ body.

(* -------------------- Rendering -------------------- *)

(** [Math.round(((p.old_price - p.price) / p.old_price) * 100)] *)
Definition discountPercent (p : record) : float :=
  JS.Math_round
    (((ToNumber (get p "old_price") - ToNumber (get p "price"))
      / ToNumber (get p "old_price")) * 100)%float.

(** The array [priceContent] of [createCard]. *)
Definition priceContent (p : record) : list child :=
  (if ToBoolean (get p "old_price")
   then [CNode (el "span" [("className", Str "old-price")]
                  [CValue (Str (formatINR (get p "old_price")))])]
   else []) ++
  [CNode (el "span" [("className", Str "current-price")]
            [CValue (Str (formatINR (get p "price")))])] ++
  (if ToBoolean (get p "old_price")
   then [CNode (el "span" [("className", Str "discount")]
                  [CValue (Str (JS.number_to_string (discountPercent p) +:+
                                "% off"))])]
   else []).

(** The [html] property of the [specs] element of [createCard]. *)
Definition specs_html (p : record) : string :=
  markup "<div class=`small`>Slots: " +:+ ToString (get p "slots") +:+
  " • Finish: " +:+ ToString (get p "finish") +:+
  markup "</div><div class=`small`>" +:+ ToString (get p "description") +:+
  "</div>".

Definition createCard (origin : string) (p : record) : node :=
  let img :=
    el "img"
      [("src", js_or (get p "image") (Str "images/placeholder.png"));
       ("alt", get p "name"); ("loading", Str "lazy")] [] in
  let titleLink :=
    el "a"
      [("href", Str ("product.html?id=" +:+
                     JS.encodeURIComponent (ToString (get p "id"))));
       ("className", Str "product-link");
       ("aria-label", Str ("Open details for " +:+ ToString (get p "name")))]
      [CValue (get p "name")] in
  let h3 :=
    el "h3" [("id", Str ("p-" +:+ ToString (get p "id") +:+ "-title"))]
      [CNode titleLink] in
  let price := el "div" [("className", Str "price")] (priceContent p) in
  let specs :=
    el "div" [("className", Str "specs"); ("html", Str (specs_html p))] [] in
  let readBtn :=
    el "a"
      [("href", Str ("product.html?id=" +:+
                     JS.encodeURIComponent (ToString (get p "id"))));
       ("className", Str "btn btn-read")]
      [CValue (Str "Read More")] in
  let waBtn :=
    el "a"
      [("href", Str (makeWhatsAppLink origin p)); ("target", Str "_blank");
       ("rel", Str "noopener"); ("className", Str "btn btn-contact")]
      [CValue (Str "WhatsApp")] in
  let emailBtn :=
    el "a" [("href", Str (makeEmailLink origin p)); ("className", Str "btn")]
      [CValue (Str "Email")] in
  let actions :=
    el "div" [("className", Str "actions")]
      [CNode readBtn; CNode waBtn; CNode emailBtn] in
  el "article"
    [("className", Str "card"); ("tabindex", Str "0");
     ("aria-labelledby", Str ("p-" +:+ ToString (get p "id") +:+ "-title"))]
    [CNode img; CNode h3; CNode price; CNode specs; CNode actions].

Definition no_results : string :=
  markup "<p class=`msg`>No products match your search.</p>".

(** [renderList(list)]: [lastRendered] becomes a copy of the array, and
    the container gets the message or one card per record. *)
Definition renderList (list : loc) (st : page) : page :=
  let '(copy, h) := alloc (store st) (deref (store st) list) in
  let st := set_store h (set_lastRendered copy st) in
  let st := set_container [] st in
  let l := deref (store st) list in
  if (length l =? 0)%nat then set_container [Html no_results] st
  else set_container (map (createCard (origin st)) l) st.

(* -------------------- Filtering & Sorting -------------------- *)

(** The callback of [products.filter] in [applyFilters]. *)
Definition matches (q : string) (p : record) : bool :=
  if String.eqb q "" then true
  else
    let inName :=
      JS.includes (toLowerCase (ToString (js_or (get p "name") (Str "")))) q in
    let inFinish :=
      JS.includes (toLowerCase (ToString (js_or (get p "finish") (Str "")))) q in
    let inSlots :=
      JS.includes (toLowerCase (ToString (js_or (get p "slots") (Str "")))) q in
    inName || inFinish || inSlots.

(** The four compare functions of [applyFilters]. *)
Definition price_asc (a b : record) : float :=
  (ToNumber (get a "price") - ToNumber (get b "price"))%float.
Definition price_desc (a b : record) : float :=
  (ToNumber (get b "price") - ToNumber (get a "price"))%float.
Definition slots_asc (a b : record) : float :=
  (ToNumber (get a "slots") - ToNumber (get b "slots"))%float.
Definition slots_desc (a b : record) : float :=
  (ToNumber (get b "slots") - ToNumber (get a "slots"))%float.

(** [arr.sort(comparefn)] sorts the array that [arr] refers to in place. *)
Definition sort_in_place (comparefn : record → record → float) (arr : loc)
    (h : heap) : heap :=
  <[arr := Array_sort comparefn (deref h arr)]> h.

(** The query [q] of [applyFilters]. *)
Definition query (st : page) : string :=
  toLowerCase (JS.trim (search_value st)).

Definition applyFilters (st : page) : page :=
  let q := query st in
  let '(filtered, h) :=
    alloc (store st) (List.filter (matches q) (deref (store st) (products st))) in
  let sortVal := sort_value st in
  let h :=
    if String.eqb sortVal "price-asc" then sort_in_place price_asc filtered h
    else if String.eqb sortVal "price-desc" then sort_in_place price_desc filtered h
    else if String.eqb sortVal "slots-asc" then sort_in_place slots_asc filtered h
    else if String.eqb sortVal "slots-desc" then sort_in_place slots_desc filtered h
    else h in
  renderList filtered (set_store h st).

(* -------------------- Fetching -------------------- *)

Definition load_failed_msg : string :=
  "Sorry — could not load products at this time.".
Definition load_failed_html : string :=
  markup "<p class=`msg`>Unable to load products. Please try again later.</p>".

(** The body of [try] up to the assignment to [products]: the records, or
    [None] where it throws. *)
Definition attempt_records (net : reply) : option (list record) :=
  match safeFetch net FETCH_TIMEOUT with
  | inl res =>
      if negb (ok res) then None
      else
        match json res with
        | ArrayOf l => Some l
        | _ => None
        end
  | inr _ => None
  end.

(** The [for] loop of [fetchProductsWithRetry], [todo] iterations from
    [attempt] on; [net k] is what the network does with the request of
    attempt [k]. *)
Fixpoint attempts (todo attempt retries : nat) (net : nat → reply) (st : page)
  : page * list event :=
  match todo with
  | O => (st, [])
  | S todo' =>
      match attempt_records (net attempt) with
      | Some l =>
          let '(r, h) := alloc (store st) l in
          let st := set_products r (set_store h st) in
          let st := set_msg "" "true" st in
          (renderList (products st) st, [Request PRODUCTS_URL FETCH_TIMEOUT])
      | None =>
          if (attempt =? retries)%nat then
            let st := set_msg load_failed_msg "false" st in
            let st := set_container [Html load_failed_html] st in
            let '(st', evs) := attempts todo' (S attempt) retries net st in
            (st', Request PRODUCTS_URL FETCH_TIMEOUT :: Warn (attempt + 1) :: evs)
          else
            let '(st', evs) := attempts todo' (S attempt) retries net st in
            (st', Request PRODUCTS_URL FETCH_TIMEOUT :: Warn (attempt + 1)
                  :: Sleep 500%N :: evs)
      end
  end.

Definition fetchProductsWithRetry (retries : nat) (net : nat → reply)
    (st : page) : page * list event :=
  attempts (S retries) 0 retries net (set_msg "Loading products..." "false" st).

End main_js.

(* -------------------- Theme Toggle -------------------- *)

Definition setTheme (theme : string) (st : theme_state) : theme_state :=
  {| data_theme := Some theme;
     localStorage := <["theme" := theme]> (localStorage st);
     toggle_text := if String.eqb theme "dark" then "☀️" else "🌙" |}.

(** [x || "light"] for an attribute or a stored item, [null] when absent. *)
Definition or_light (x : option string) : string :=
  match x with
  | Some s => if String.eqb s "" then "light" else s
  | None => "light"
  end.

Definition toggleTheme (st : theme_state) : theme_state :=
  let current := or_light (data_theme st) in
  let newTheme := if String.eqb current "dark" then "light" else "dark" in
  setTheme newTheme st.

Definition initTheme (st : theme_state) : theme_state :=
  let saved := or_light (localStorage st !! "theme") in
  setTheme saved st.

(* -------------------- Debounce and the listeners of init -------------------- *)

(** [debounce(fn, wait)]: a call of the function that it returns, with
    the arguments [args].  [t] is the variable of the closure; the
    callback [() => fn(...args)] is kept as [args], and a timer that runs
    applies [fn] to them. *)
Definition debounce {A} (wait : N) (args : A) (t : option positive)
    (w : timers A) : option positive * timers A :=
  let w := clearTimeout t w in
  let '(id, w) := setTimeout args wait w in
  (Some id, w).

(** The list page with the listeners of [init]: the page, the variable
    [t] of the debounced listener, and the timers of the window. *)
Record session := {
  view : page;
  t : option positive;
  window : timers unit;
}.

(** What the user and the clock do. *)
Inductive action :=
  | Input (text : string)     (* types into the search box: an [input] event *)
  | Change (key : string)     (* selects a sort key: a [change] event *)
  | Wait (ms : N).            (* nothing for [ms] milliseconds *)

Section listeners.
Context `{Host}.

(** The listeners that [init] registers:
    [searchInput.addEventListener("input", debounce(() => applyFilters(), 250))]
    and [sortSelect.addEventListener("change", applyFilters)]. *)
Definition handle (s : session) (a : action) : session :=
  match a with
  | Input text =>
      let '(t, w) := debounce 250 () (t s) (window s) in
      {| view := set_search_value text (view s); t := t; window := w |}
  | Change key =>
      {| view := applyFilters (set_sort_value key (view s));
         t := t s; window := window s |}
  | Wait ms =>
      let '(w, v) := elapse ms (λ _ v, applyFilters v) (window s) (view s) in
      {| view := v; t := t s; window := w |}
  end.

End listeners.

End Main.

(* ===================================================================== *)
(** ** js/product.js: the product detail page *)
(* ===================================================================== *)

Module Product.

Definition PRODUCT_URL : string := "data/products.json".
Definition MERCHANT_EMAIL : string := "urvish.entp@gmail.com".
Definition FETCH_TIMEOUT : N := 8000.

(** The parts of the document and of the window that the script uses. *)
Record page := {
  detail : string;                    (* [detailEl.innerHTML] *)
  params : list (string * string);    (* [new URLSearchParams(location.search)] *)
  href : string;                      (* [window.location.href] *)
}.

(** The theme; the toggle button and the logo need not be in the page. *)
Record theme_state := {
  data_theme : option string;
  localStorage : gmap string string;
  toggle_text : option string;        (* [None]: no [#theme-toggle] *)
  logo_src : option string;           (* [None]: no [#site-logo] *)
}.

(** [params.get(name)]: the first value under [name], or [null]. *)
Definition getParam (name : string) (st : page) : option string :=
  snd <$> List.find (λ kv, String.eqb (fst kv) name) (params st).

Definition setTheme (theme : string) (st : theme_state) : theme_state :=
  {| data_theme := Some theme;
     localStorage := <["theme" := theme]> (localStorage st);
     toggle_text :=
       (λ _, if String.eqb theme "dark" then "☀️" else "🌙") <$> toggle_text st;
     logo_src :=
       (λ _, if String.eqb theme "dark" then "images/urVish logo V dark.png"
             else "images/urVish logo V light.png") <$> logo_src st |}.

(** simple HTML escape to avoid accidental injection from JSON *)
Definition escapeHtml (str : value) : string :=
  match str with
  | Null | Undefined => ""
  | _ =>
      JS.replaceAll "'" "&#39;"
        (JS.replaceAll (ascii_of_nat 34) "&quot;"
           (JS.replaceAll ">" "&gt;"
              (JS.replaceAll "<" "&lt;"
                 (JS.replaceAll "&" "&amp;" (ToString str)))))
  end.

Definition renderNotFound : string :=
  markup "<p class=`msg`>Product not found. Please check the link or return to <a href=`index.html`>catalog</a>.</p>".

Definition load_failed_html : string :=
  markup "<p class=`msg`>Could not load product data. Try again later.</p>".

Section product_js.
Context `{Host}.

Definition formatINR (n : value) : string :=
  match Intl_format n with
  | Some s => s
  | None => "₹" +:+ JS.toFixed2 (ToNumber n)
  end.

Definition makeWhatsAppLink (href : string) (p : record) : string :=
  let phone := "916353288843" in
  let productUrl := href in
  let msg :=
    "Hello, I'm interested in " +:+ ToString (get p "name") +:+ " (ID: " +:+
    ToString (get p "id") +:+ "). Is it available?" +:+ LF +:+ LF +:+
    "Product Link: " +:+ productUrl in
  if negb (String.eqb phone "")
  then "https://wa.me/" +:+ phone +:+ "?text=" +:+ JS.encodeURIComponent msg
  else "https://wa.me/?text=" +:+ JS.encodeURIComponent msg.

Definition makeEmailLink (href : string) (p : record) : string :=
  let subject := "Enquiry: " +:+ ToString (get p "name") in
  let productUrl := href in
  let body :=
    "Hi,%0D%0A%0D%0AI would like more information about " +:+
    ToString (get p "name") +:+ " (ID: " +:+ ToString (get p "id") +:+
    ").%0D%0A%0D%0AProduct Link: " +:+ productUrl +:+ "%0D%0A%0D%0AThanks." in
  "mailto:" +:+ MERCHANT_EMAIL +:+ "?subject=" +:+
  JS.encodeURIComponent subject +:+ "&body=" +:+ body.

(** The array [images] of [renderProduct]. *)
Definition images (p : record) : list value :=
  match get p "images" with
  | Arr (x :: l) => x :: l
  | _ => [js_or (get p "image") (Str "images/placeholder.png")]
  end.

Definition mainImg (p : record) : string :=
  markup "<img id=`main-img` src=`" +:+ ToString (default Undefined (head (images p))) +:+
  markup "` alt=`" +:+ escapeHtml (get p "name") +:+
  markup "` loading=`lazy` onerror=`this.src='images/placeholder.png'`>".

Definition thumbnail (p : record) (index : nat) (imgSrc : value) : string :=
  markup "<img class=`thumbnail " +:+ (if (index =? 0)%nat then "active" else "") +:+
  markup "` src=`" +:+ ToString imgSrc +:+
  markup "` alt=`" +:+ escapeHtml (get p "name") +:+ " - View " +:+
  JS.string_of_Z (Z.of_nat index + 1) +:+
  markup "` data-index=`" +:+ JS.string_of_Z (Z.of_nat index) +:+
  markup "` loading=`lazy` onerror=`this.src='images/placeholder.png'`>".

Definition thumbnailsHtml (p : record) : string :=
  JS.join "" (imap (thumbnail p) (images p)).

Definition imageGalleryHtml (p : record) : string :=
  markup "
    <div class=`image-gallery`>
      <div class=`main-image`>
        " +:+ mainImg p +:+ markup "
      </div>
      <div class=`thumbnails`>
        " +:+ thumbnailsHtml p +:+ "
      </div>
    </div>
  ".

Definition specsHtml (p : record) : string :=
  match get p "specifications" with
  | Arr l => JS.join "" (map (λ s, "<li>" +:+ escapeHtml s +:+ "</li>") l)
  | _ => ""
  end.

Definition amazonHtml (p : record) : string :=
  if ToBoolean (get p "amazon")
  then markup "<a class=`amazon-link` target=`_blank` rel=`noopener` href=`" +:+
       escapeHtml (get p "amazon") +:+ markup "`>Buy on Amazon</a>"
  else "".

(** The two conditional parts of the price block. *)
Definition oldPriceHtml (p : record) : string :=
  if ToBoolean (get p "old_price")
  then markup "<span class=`old-price`><s>" +:+ formatINR (get p "old_price") +:+
       "</s></span>"
  else "".

Definition discountHtml (p : record) : string :=
  if ToBoolean (get p "old_price")
  then markup "<span class=`discount`>" +:+
       JS.number_to_string
         (JS.Math_round
            (((ToNumber (get p "old_price") - ToNumber (get p "price"))
              / ToNumber (get p "old_price")) * 100)%float) +:+
       "% off</span>"
  else "".

(** [renderProduct(p)]: what [detailEl.innerHTML] becomes. *)
Definition renderProduct (href : string) (p : option record) : string :=
  match p with
  | None => renderNotFound
  | Some p =>
      markup "
    <div class=`top`>
      " +:+ imageGalleryHtml p +:+ markup "
      <div class=`product-meta`>
        <h2>" +:+ escapeHtml (get p "name") +:+ markup "</h2>
        <div class=`price`>
          " +:+ oldPriceHtml p +:+ markup "
          <span class=`current-price`>" +:+ formatINR (get p "price") +:+ "</span>
          " +:+ discountHtml p +:+ markup "
        </div>
        <div class=`specs small`>Slots: " +:+
      escapeHtml (Str (ToString (get p "slots"))) +:+ " • Finish: " +:+
      escapeHtml (get p "finish") +:+ "</div>
        <p>" +:+ escapeHtml (get p "description") +:+ markup "</p>
        <ul class=`spec-list`>
          " +:+ specsHtml p +:+ "
        </ul>
        " +:+ amazonHtml p +:+ markup "
        <div style=`margin-top:1rem;display:flex;gap:0.5rem;flex-wrap:wrap`>
          <a class=`btn btn-contact` target=`_blank` rel=`noopener` href=`" +:+
      makeWhatsAppLink href p +:+ markup "`>WhatsApp</a>
          <a class=`btn` href=`" +:+ makeEmailLink href p +:+ markup "`>Email</a>
        </div>
      </div>
    </div>
  "
  end.

(** [list.find((x) => String(x.id) === String(id))] *)
Definition find_by_id (list : list record) (id : string) : option record :=
  Array_find (λ x, String.eqb (ToString (get x "id")) (ToString (Str id))) list.

Definition set_detail (html : string) (st : page) : page :=
  {| detail := html; params := params st; href := href st |}.

Definition loadAndRender (net : reply) (st : page) : page :=
  match getParam "id" st with
  | None => set_detail renderNotFound st
  | Some id =>
      if String.eqb id "" then set_detail renderNotFound st
      else
        match safeFetch net FETCH_TIMEOUT with
        | inl res =>
            if negb (ok res) then set_detail load_failed_html st
            else
              match json res with
              | ArrayOf list =>
                  set_detail (renderProduct (href st) (find_by_id list id)) st
              | _ => set_detail load_failed_html st
              end
        | inr _ => set_detail load_failed_html st
        end
  end.

End product_js.

(* -------------------- Theme Toggle -------------------- *)

Definition toggleTheme (st : theme_state) : theme_state :=
  let current := Main.or_light (data_theme st) in
  let newTheme := if String.eqb current "dark" then "light" else "dark" in
  setTheme newTheme st.

Definition initTheme (st : theme_state) : theme_state :=
  let saved := Main.or_light (localStorage st !! "theme") in
  setTheme saved st.

(* -------------------- The thumbnails -------------------- *)

(** The elements that [setupThumbnailListeners] works on: the thumbnails
    with their [data-index] attribute and their class list, and the [src]
    of [#main-img], [None] when the document has no such element. *)
Record thumb := {
  data_index : option string;
  classList : list string;
}.

Record gallery := {
  main_src : option string;
  thumbnails : list thumb;
}.

(** The click listener that [setupThumbnailListeners(images)] adds to
    the thumbnail at position [this] of [querySelectorAll(".thumbnail")].
    An attribute that is missing reads as [null], an index outside the
    array gives [undefined], and the [src] gets the string of what it is
    assigned.  Without [#main-img] the assignment to [mainImg.src]
    throws, and the classes stay. *)
Definition thumbnail_click (images : list value) (this : nat) (g : gallery)
  : gallery :=
  match thumbnails g !! this, main_src g with
  | Some th, Some _ =>
      let index :=
        JS.parseInt (match data_index th with Some s => s | None => "null" end) in
      let newSrc := default Undefined (Array_get images index) in
      {| main_src := Some (ToString newSrc);
         thumbnails :=
           imap (λ k t,
                   let cl := classList_remove "active" (classList t) in
                   {| data_index := data_index t;
                      classList :=
                        if (k =? this)%nat then classList_add "active" cl else cl |})
             (thumbnails g) |}
  | _, _ => g
  end.

End Product.

(* ===================================================================== *)
(** ** The vocabulary of the properties, and sample data *)
(* ===================================================================== *)

Section vocabulary.
Context `{Host}.

(** *** Strings *)

(** A string of white space only: a sequence of white space characters. *)
Inductive white_space_only : string → Prop :=
  | white_nil : white_space_only ""
  | white_cons w s :
      w ∈ JS.white_space → white_space_only s → white_space_only (w +:+ s).

(** The characters that open or close a tag or an attribute value. *)
Definition is_markup_char (c : ascii) : bool :=
  Ascii.eqb c "<" || Ascii.eqb c ">" || Ascii.eqb c (ascii_of_nat 34)
  || Ascii.eqb c "'".

Fixpoint free_of_markup (s : string) : bool :=
  match s with
  | "" => true
  | String c s' => negb (is_markup_char c) && free_of_markup s'
  end.

(** The five replacements of [escapeHtml]. *)
Definition escape_string (s : string) : string :=
  JS.replaceAll "'" "&#39;"
    (JS.replaceAll (ascii_of_nat 34) "&quot;"
       (JS.replaceAll ">" "&gt;"
          (JS.replaceAll "<" "&lt;" (JS.replaceAll "&" "&amp;" s)))).

(** *** Numbers *)

(** The order of the numbers, on the integers: a finite number is a
    multiple of [2^-1074], and the infinities lie beyond [2^2200]. *)
Definition zkey (X : spec_float) : Z :=
  match X with
  | S754_zero _ => 0
  | S754_infinity s => cond_Zopp s (2 ^ 2200)
  | S754_nan => 0
  | S754_finite s m e => cond_Zopp s (Z.pos m * 2 ^ (e + 1074))
  end.

Definition positive_number (X : spec_float) : bool :=
  SFltb (S754_zero false) X.

(** The order key of a number. *)
Definition fkey (x : float) : Z := zkey (Prim2SF x).

(** *** The list page *)

(** The records of the page and the records of its last rendering. *)
Definition all_records (st : Main.page) : list record :=
  deref (Main.store st) (Main.products st).

Definition rendered (st : Main.page) : list record :=
  deref (Main.store st) (Main.lastRendered st).

(** The order that [applyFilters] gives to the filtered records. *)
Definition sort_for (sortVal : string) (l : list record) : list record :=
  if String.eqb sortVal "price-asc" then Array_sort Main.price_asc l
  else if String.eqb sortVal "price-desc" then Array_sort Main.price_desc l
  else if String.eqb sortVal "slots-asc" then Array_sort Main.slots_asc l
  else if String.eqb sortVal "slots-desc" then Array_sort Main.slots_desc l
  else l.

(** The derived view of section 4.2: filter, then sort. *)
Definition derive (allRecords : list record) (q : string) (sortKey : string)
  : list record :=
  sort_for sortKey (List.filter (Main.matches q) allRecords).

(** What [renderList] shows for the records [l]. *)
Definition cards (origin : string) (l : list record) : list node :=
  match l with
  | [] => [Html Main.no_results]
  | _ => map (Main.createCard origin) l
  end.

(** The text that [applyFilters] searches for the field [k] of [p]. *)
Definition field_text (p : record) (k : string) : string :=
  toLowerCase (ToString (js_or (get p k) (Str ""))).

Definition directional_keys : list string :=
  ["price-asc"; "price-desc"; "slots-asc"; "slots-desc"].

(** One recomputation of the derived view: the user sets the search text
    and the sort selection, and the handler runs. *)
Definition recompute (st : Main.page) (input : string * string) : Main.page :=
  Main.applyFilters
    (Main.set_sort_value input.2 (Main.set_search_value input.1 st)).

(** The markup that a node assigns to [innerHTML], in document order. *)
Fixpoint html_parts (n : node) : list string :=
  match n with
  | Text _ => []
  | Html s => [s]
  | Element _ _ children => flat_map html_parts children
  end.

(** *** Sorting *)

(** The field and the direction of a directional sort key. *)
Definition sort_field (key : string) : option (string * bool) :=
  if String.eqb key "price-asc" then Some ("price", false)
  else if String.eqb key "price-desc" then Some ("price", true)
  else if String.eqb key "slots-asc" then Some ("slots", false)
  else if String.eqb key "slots-desc" then Some ("slots", true)
  else None.

(** [Number(r.field)] *)
Definition number_of (field : string) (r : record) : float :=
  ToNumber (get r field).

(** The field of the record converts to a number, not to [NaN]. *)
Definition numeric (field : string) (r : record) : Prop :=
  PrimFloat.is_nan (number_of field r) = false.

(** [x] may stand before [y]: [x <= y] ascending, [x >= y] descending. *)
Definition in_order (descending : bool) (x y : float) : bool :=
  if descending then (y <=? x)%float else (x <=? y)%float.

Definition comparator (field : string) (descending : bool) (a b : record)
  : float :=
  if descending then (number_of field b - number_of field a)%float
  else (number_of field a - number_of field b)%float.

Definition rank_of (field : string) (descending : bool) (r : record) : Z :=
  if descending then - fkey (number_of field r) else fkey (number_of field r).

(** *** Loading *)

(** The events of the failed attempts [a], ..., [a + k - 1], each followed
    by the delay before the next one. *)
Definition retry_events (a k : nat) : list event :=
  flat_map
    (λ j, [Request Main.PRODUCTS_URL Main.FETCH_TIMEOUT; Warn (j + 1); Sleep 500%N])
    (seq a k).

(** What the network does with a request makes the attempt fail: the
    request is still unanswered when the timer of [timeout] ms runs, it is
    rejected, or the response that arrives before the timer has a status
    that is not ok or a body that is not a JSON array. *)
Definition fails_within (timeout : N) (r : reply) : Prop :=
  match r with
  | Hangs => True
  | Fails _ => True
  | Responds after res =>
      (timeout ≤ after)%N ∨ ok res = false
      ∨ json res = Malformed ∨ json res = NotAnArray
  end.

(** The loop of [fetchProductsWithRetry] after its first [n] iterations:
    the page, and what the iterations have left behind. *)
Definition progress (n retries : nat) (net : nat → reply) (st : Main.page)
  : Main.page * list event :=
  Main.attempts n 0 retries net (Main.set_msg "Loading products..." "false" st).

(** The page after the last attempt has failed. *)
Definition load_failed (st : Main.page) : Main.page :=
  Main.set_container [Html Main.load_failed_html]
    (Main.set_msg Main.load_failed_msg "false" st).

(** The page after the records [l] have arrived. *)
Definition loaded (l : list record) (st : Main.page) : Main.page :=
  let '(r, h) := alloc (Main.store st) l in
  let st := Main.set_msg "" "true" (Main.set_products r (Main.set_store h st)) in
  Main.renderList (Main.products st) st.

(** *** The price block *)




(** *** The theme *)

(** The states of the theme that the list page goes through: a first
    load finds no stored theme, a click on the button toggles, and a
    later load finds the storage as an earlier state left it. *)
Inductive reachable : Main.theme_state → Prop :=
  | reach_first_load st0 :
      Main.localStorage st0 !! "theme" = None →
      reachable (Main.initTheme st0)
  | reach_toggle st :
      reachable st → reachable (Main.toggleTheme st)
  | reach_reload st st0 :
      reachable st → Main.localStorage st0 = Main.localStorage st →
      reachable (Main.initTheme st0).

(** The state in which the theme is [t] everywhere. *)
Definition themed (t : string) (st : Main.theme_state) : Prop :=
  Main.data_theme st = Some t
  ∧ Main.localStorage st !! "theme" = Some t
  ∧ Main.toggle_text st = (if String.eqb t "dark" then "☀️" else "🌙").

(** *** Sample data *)

(** Three records of a catalogue; [tray] has no slots. *)
Definition tray : record :=
  list_to_map
    [("id", Num 1); ("name", Str "Tray"); ("finish", Str "Oak");
     ("slots", Num 0); ("price", Num 500)].

Definition box : record :=
  list_to_map
    [("id", Num 3); ("name", Str "Watch Box"); ("finish", Str "Matte Blue");
     ("slots", Num 6); ("price", Num 800); ("old_price", Num 1000);
     ("description", Str "Six slots")].

Definition roll : record :=
  list_to_map
    [("id", Str "r-2"); ("name", Str "Travel Roll"); ("finish", Str "Tan");
     ("slots", Str "3"); ("price", Num 450);
     ("description", Str "Three slots")].

(** A record whose [image] closes the attribute it is put in, and whose
    [description] is markup. *)
Definition hostile : record :=
  list_to_map
    [("id", Num 7); ("name", Str "Case"); ("finish", Str "Oak");
     ("slots", Num 2); ("price", Num 100);
     ("image", Str (markup "x` onerror=`alert(1)"));
     ("description", Str "<img src=x onerror=alert(1)>")].

(** A record whose [name] closes the attribute it is put in. *)
Definition quoted : record :=
  list_to_map
    [("id", Num 8); ("name", Str (markup "Nook` class=`x")); ("finish", Str "Ash");
     ("slots", Num 4); ("price", Num 300)].


(** A record whose old price is the price, and one whose old price is
    below the price. *)
Definition same_price : record :=
  list_to_map [("id", Num 4); ("price", Num 500); ("old_price", Num 500)].


(** Records with the prices 3 and 1, and one without a price. *)
Definition three : record :=
  list_to_map [("id", Num 11); ("name", Str "Three"); ("price", Num 3)].

Definition unpriced : record :=
  list_to_map [("id", Num 12); ("name", Str "Unpriced")].

Definition one : record :=
  list_to_map [("id", Num 13); ("name", Str "One"); ("price", Num 1)].

(** A list page that holds the records [l], with the given search text
    and sort selection. *)
Definition page_of (l : list record) (search sort : string) : Main.page :=
  {| Main.products := 1%positive; Main.lastRendered := 2%positive;
     Main.store := {[ 1%positive := l; 2%positive := [] ]};
     Main.search_value := search; Main.sort_value := sort;
     Main.msg_text := ""; Main.msg_aria_hidden := Some "true";
     Main.container := []; Main.origin := "https://shop.example" |}.

(** A detail page opened with the query parameters [params]. *)
Definition detail_page (params : list (string * string)) : Product.page :=
  {| Product.detail := ""; Product.params := params;
     Product.href := "https://shop.example/product.html" |}.

(** A response with status 200 and the records [l] as its body. *)
Definition ok_response (l : list record) : response :=
  {| ok := true; status := 200; json := ArrayOf l |}.

(** The first request never settles and the second is answered after
    7 s: the first attempt times out after 8 s, the second succeeds. *)
Definition slow_then_ok (k : nat) : reply :=
  match k with
  | O => Hangs
  | _ => Responds 7000 (ok_response [box; roll])
  end.

(** The response to the first request arrives after 9 s, that to the
    second after 7.999 s. *)
Definition late_then_ok (k : nat) : reply :=
  match k with
  | O => Responds 9000 (ok_response [box; roll])
  | _ => Responds 7999 (ok_response [box; roll])
  end.

(** A page that has just been loaded, with an empty storage. *)
Definition fresh_theme : Main.theme_state :=
  {| Main.data_theme := None; Main.localStorage := ∅; Main.toggle_text := "" |}.

End vocabulary.

(* ===================================================================== *)
(** ** More vocabulary: escaping, links, loading, interaction, gallery *)
(* ===================================================================== *)

Section further_vocabulary.
Context `{Host}.

(** *** Escaping *)

(** The characters that [escapeHtml] replaces, and a string without
    them. *)
Definition is_escaped_char (c : ascii) : bool :=
  Ascii.eqb c "&" || Ascii.eqb c "<" || Ascii.eqb c ">"
  || Ascii.eqb c (ascii_of_nat 34) || Ascii.eqb c "'".

Fixpoint plain (s : string) : bool :=
  match s with
  | "" => true
  | String c s' => negb (is_escaped_char c) && plain s'
  end.

(** What [escapeHtml] makes of one character. *)
Definition escape_char (c : ascii) : string :=
  if Ascii.eqb c "&" then "&amp;"
  else if Ascii.eqb c "<" then "&lt;"
  else if Ascii.eqb c ">" then "&gt;"
  else if Ascii.eqb c (ascii_of_nat 34) then "&quot;"
  else if Ascii.eqb c "'" then "&#39;"
  else String c "".

(** The character references that [escapeHtml] writes, each with the
    character that it stands for. *)
Definition references : list (string * ascii) :=
  [("&amp;", "&"%char); ("&lt;", "<"%char); ("&gt;", ">"%char);
   ("&quot;", ascii_of_nat 34); ("&#39;", "'"%char)].

Fixpoint read_reference (refs : list (string * ascii)) (s : string)
  : option (ascii * string) :=
  match refs with
  | [] => None
  | (r, c) :: refs' =>
      match JS.drop_prefix r s with
      | Some s' => Some (c, s')
      | None => read_reference refs' s
      end
  end.

(** The inverse replacement: from left to right, each of the five
    references becomes the character that it stands for.  (An HTML parser
    does more to a text: it also turns a carriage return into a line feed
    and drops or replaces U+0000.) *)
Fixpoint decode_references (fuel : nat) (s : string) : string :=
  match fuel with
  | O => s
  | S fuel' =>
      match read_reference references s with
      | Some (c, s') => String c (decode_references fuel' s')
      | None =>
          match s with
          | "" => ""
          | String c s' => String c (decode_references fuel' s')
          end
      end
  end.

Definition unescape (s : string) : string :=
  decode_references (String.length s) s.

(** The characters that open a tag or end an attribute value, and the
    skeleton of a markup: these characters of it, in their order. *)
Definition structural (c : ascii) : bool :=
  Ascii.eqb c "<" || Ascii.eqb c (ascii_of_nat 34).

Definition skeleton (s : string) : string :=
  JS.remove (λ c, negb (structural c)) s.

(** The strings that [renderProduct] puts into the markup as they are:
    the sources of the images, the name and the id in the link of the
    mail, the address of the page, and the prices as the host formats
    them. *)
Definition raw_parts (href : string) (p : record) : list string :=
  (ToString <$> Product.images p) ++
  [ToString (get p "name"); ToString (get p "id"); href;
   Product.formatINR (get p "price"); Product.formatINR (get p "old_price")].

(** The number of list items that [specsHtml] makes. *)
Definition specification_count (p : record) : nat :=
  match get p "specifications" with
  | Arr l => length l
  | _ => 0%nat
  end.

(** *** Links *)

(** The characters of a URI component that [encodeURIComponent] has
    encoded: the unreserved ones, and [%]. *)
Definition uri_char (c : ascii) : bool :=
  JS.uri_unreserved c || Ascii.eqb c "%".

Definition uri_component (s : string) : bool := JS.every uri_char s.

(** What [encodeURIComponent] makes of one byte. *)
Definition encode_byte (c : ascii) : string :=
  if JS.uri_unreserved c then String c ""
  else
    let n := nat_of_ascii c in
    String "%" (String (JS.hex_digit (n / 16)) (String (JS.hex_digit (n mod 16)) "")).

(** The characters that do not end a part of a URL. *)
Definition plain_in_url (c : ascii) : bool :=
  negb (JS.is_c0_or_space c) && negb (JS.is_tab_or_newline c)
  && negb (Ascii.eqb c "?") && negb (Ascii.eqb c "#") && negb (Ascii.eqb c "&")
  && negb (Ascii.eqb c "+") && negb (Ascii.eqb c "=") && negb (Ascii.eqb c ":").

(** The message of the two [makeWhatsAppLink], with the address
    [productUrl] in it. *)
Definition enquiry (p : record) (productUrl : string) : string :=
  "Hello, I'm interested in " +:+ ToString (get p "name") +:+ " (ID: " +:+
  ToString (get p "id") +:+ "). Is it available?" +:+ LF +:+ LF +:+
  "Product Link: " +:+ productUrl.

(** The link of a card to the detail page of its record. *)
Definition detail_link (p : record) : string :=
  "product.html?id=" +:+ JS.encodeURIComponent (ToString (get p "id")).

(** The start tag of an [a] element may begin in [s]: a [<] of [s] is
    followed by [a] or [A].  The parser makes an [a] element of markup
    only where it reads such a tag. *)
Definition names_anchor (s : string) : bool :=
  match s with
  | String d _ => Ascii.eqb d "a" || Ascii.eqb d "A"
  | "" => false
  end.

Fixpoint opens_anchor (s : string) : bool :=
  match s with
  | "" => false
  | String c s' => (Ascii.eqb c "<" && names_anchor s') || opens_anchor s'
  end.

Fixpoint ends_with_lt (s : string) : bool :=
  match s with
  | "" => false
  | String c "" => Ascii.eqb c "<"
  | String _ s' => ends_with_lt s'
  end.

(** The links of the nodes [l], when each of them has its links. *)
Definition all_links (l : list (option (list string))) : option (list string) :=
  foldr (λ x acc,
           match x, acc with
           | Some a, Some b => Some (a ++ b)
           | _, _ => None
           end) (Some []) l.

(** The [href] of the [a] elements of a node, in document order: those
    that [el] has made, when the markup that was assigned to [innerHTML]
    opens none; [None] when that markup may hold [a] elements of its
    own. *)
Fixpoint anchors (n : node) : option (list string) :=
  match n with
  | Text _ => Some []
  | Html s => if opens_anchor s then None else Some []
  | Element tag attrs children =>
      match all_links (map anchors children) with
      | Some inner =>
          Some ((if String.eqb tag "a" then option_list (attrs !! "href") else [])
                ++ inner)
      | None => None
      end
  end.

(** The string has no [<]. *)
Definition no_tag (s : string) : bool :=
  JS.every (λ c, negb (Ascii.eqb c "<")) s.

(** The fields that [createCard] assigns to [innerHTML] have no [<]. *)
Definition plain_specs (p : record) : bool :=
  forallb (λ k, no_tag (ToString (get p k))) ["slots"; "finish"; "description"].

(** A record with a link in its description. *)
Definition linked : record :=
  list_to_map
    [("id", Num 10); ("name", Str "Stand"); ("finish", Str "Ash");
     ("slots", Num 1); ("price", Num 200);
     ("description", Str (markup "<a href=`https://example.org/`>more</a>"))].

(** The detail page that is opened with [search] as [location.search],
    at the address [url]. *)
Definition opened (search url : string) : Product.page :=
  {| Product.detail := ""; Product.params := JS.URLSearchParams search;
     Product.href := url |}.

(** A string that is well-formed UTF-8. *)
Definition well_formed_text (s : string) : Prop := JS.utf8_decode s = s.

(** *** Loading *)

Definition is_request (e : event) : bool :=
  match e with Request _ _ => true | _ => false end.

Definition is_sleep (e : event) : bool :=
  match e with Sleep _ => true | _ => false end.

(** The number of requests and of delays in a trace. *)
Definition requests (evs : list event) : nat := length (List.filter is_request evs).
Definition sleeps (evs : list event) : nat := length (List.filter is_sleep evs).

(** The replies that the statements about a whole run of the loader are
    about: the attempt fails in one of the ways of [fails_within], or a
    response that is ok arrives in time with an array of records. *)
Definition covered (timeout : N) (r : reply) : Prop :=
  fails_within timeout r
  ∨ ∃ after res l, r = Responds after res ∧ (after < timeout)%N
                   ∧ ok res = true ∧ json res = ArrayOf l.

Definition first_char (s : string) : option ascii :=
  match s with
  | "" => None
  | String c _ => Some c
  end.

(** What the [try] block of [loadAndRender] has to look up in: the list
    of the response, or [None] where the block throws. *)
Definition fetched_list (net : reply) : option (list record) :=
  match safeFetch net Product.FETCH_TIMEOUT with
  | inl res =>
      if negb (ok res) then None
      else
        match json res with
        | ArrayOf l => Some l
        | _ => None
        end
  | inr _ => None
  end.

(** What [loadAndRender] shows. *)
Definition outcome (net : reply) (st : Product.page) : string :=
  match Product.getParam "id" st with
  | None => Product.renderNotFound
  | Some id =>
      if String.eqb id "" then Product.renderNotFound
      else
        match fetched_list net with
        | Some l => Product.renderProduct (Product.href st) (Product.find_by_id l id)
        | None => Product.load_failed_html
        end
  end.

(** *** The view and the controls *)

(** The array of the products is in the store. *)
Definition well_formed (st : Main.page) : Prop :=
  Main.products st ∈ dom (Main.store st).

(** The page shows the derived view of its records for the text of the
    search box and the selected sort key. *)
Definition in_step (st : Main.page) : Prop :=
  rendered st = derive (all_records st) (Main.query st) (Main.sort_value st)
  ∧ Main.container st = cards (Main.origin st) (rendered st).

(** The records of [l] have pairwise different numbers in [field]. *)
Definition different_numbers (field : string) (l : list record) : Prop :=
  ForallOrdPairs
    (λ a b, (number_of field a =? number_of field b)%float = false) l.

(** A window in which no timer has been set. *)
Definition idle_window {A} : timers A :=
  {| clock := 0; next_timer := 1; pending := ∅ |}.

(** The calls of [fn] that a debounced function makes: it is called with
    the arguments of [trace], and after each call the time of the entry
    passes. *)
Definition debounced_calls {A} (wait : N) (w : timers A) (trace : list (A * N))
  : list A :=
  (foldl
     (λ '(t, w, calls) '(args, ms),
        let '(t, w) := Main.debounce wait args t w in
        let '(w, calls) := elapse ms (λ a calls, calls ++ [a]) w calls in
        (t, w, calls))
     (None, w, []) trace).2.

(** The text of the search box and the sort key after the actions. *)
Definition typed (actions : list Main.action) (text : string) : string :=
  foldl (λ text a, match a with Main.Input text' => text' | _ => text end)
    text actions.

Definition selected (actions : list Main.action) (key : string) : string :=
  foldl (λ key a, match a with Main.Change key' => key' | _ => key end)
    key actions.

Definition is_wait (a : Main.action) : bool :=
  match a with Main.Wait _ => true | _ => false end.

(** What holds of the session [s] that the actions [done] lead to from
    [s0]: the records are those of [s0] and the controls those that the
    actions leave; at most the timer of the debounced listener is
    pending, and it is due within 250 ms; and once the user has acted,
    the page is in step whenever no timer is pending. *)
Definition follows (s0 : Main.session) (done : list Main.action)
    (s : Main.session) : Prop :=
  well_formed (Main.view s)
  ∧ all_records (Main.view s) = all_records (Main.view s0)
  ∧ Main.search_value (Main.view s) = typed done (Main.search_value (Main.view s0))
  ∧ Main.sort_value (Main.view s) = selected done (Main.sort_value (Main.view s0))
  ∧ (pending (Main.window s) = ∅
     ∨ ∃ id due, Main.t s = Some id
                 ∧ pending (Main.window s) = {[id := (due, ())]}
                 ∧ (due ≤ clock (Main.window s) + 250)%N)
  ∧ (Exists (λ a, is_wait a = false) done → pending (Main.window s) = ∅ →
     in_step (Main.view s)).

(** *** The theme of the detail page *)

(** The theme that [toggleTheme] changes to. *)
Definition other_theme (current : option string) : string :=
  if String.eqb (Main.or_light current) "dark" then "light" else "dark".

(** The detail page with the theme [t] everywhere: the attribute and the
    stored item are [t], and the button and the logo, where the page has
    them, show [t]. *)
Definition detail_themed (t : string) (st : Product.theme_state) : Prop :=
  Product.data_theme st = Some t
  ∧ Product.localStorage st !! "theme" = Some t
  ∧ (∀ text, Product.toggle_text st = Some text →
       text = if String.eqb t "dark" then "☀️" else "🌙")
  ∧ (∀ src, Product.logo_src st = Some src →
       src = if String.eqb t "dark" then "images/urVish logo V dark.png"
             else "images/urVish logo V light.png").

(** *** The gallery *)

(** The markup of an [img] element with the attributes [attrs]. *)
Definition img_markup (attrs : list (string * string)) : string :=
  "<img" +:+
  JS.join ""
    (map (λ kv, " " +:+ kv.1 +:+ markup "=`" +:+ kv.2 +:+ markup "`") attrs)
  +:+ ">".

(** The attributes of the main image and of a thumbnail in the markup of
    [renderProduct]. *)
Definition mainImg_attrs (p : record) : list (string * string) :=
  [("id", "main-img");
   ("src", ToString (default Undefined (head (Product.images p))));
   ("alt", Product.escapeHtml (get p "name"));
   ("loading", "lazy");
   ("onerror", "this.src='images/placeholder.png'")].

Definition thumbnail_attrs (p : record) (index : nat) (imgSrc : value)
  : list (string * string) :=
  [("class", "thumbnail " +:+ (if (index =? 0)%nat then "active" else ""));
   ("src", ToString imgSrc);
   ("alt", Product.escapeHtml (get p "name") +:+ " - View " +:+
           JS.string_of_Z (Z.of_nat index + 1));
   ("data-index", JS.string_of_Z (Z.of_nat index));
   ("loading", "lazy");
   ("onerror", "this.src='images/placeholder.png'")].

(** The value of the attribute [k], and the tokens of a class attribute. *)
Definition attribute (k : string) (attrs : list (string * string))
  : option string :=
  snd <$> List.find (λ kv, String.eqb kv.1 k) attrs.

Definition tokens (s : string) : list string :=
  List.filter (λ x, negb (String.eqb x "")) (JS.split_on " " s).

(** A string that the parser reads as text of its place: it has no [<],
    no double quote and no [&]. *)
Definition inert (s : string) : bool :=
  JS.every (λ c, negb (Ascii.eqb c "<") && negb (Ascii.eqb c (ascii_of_nat 34))
                 && negb (Ascii.eqb c "&")) s.

(** The gallery that the parser makes of the markup of [renderProduct]
    when the raw parts are inert: the main image and one thumbnail for
    each image, with the attributes that the markup gives them. *)
Definition parsed_gallery (href : string) (p : record)
  : option Product.gallery :=
  if forallb inert (raw_parts href p) then
    Some
      {| Product.main_src := attribute "src" (mainImg_attrs p);
         Product.thumbnails :=
           imap (λ index imgSrc,
                   let attrs := thumbnail_attrs p index imgSrc in
                   {| Product.data_index := attribute "data-index" attrs;
                      Product.classList :=
                        tokens (default "" (attribute "class" attrs)) |})
             (Product.images p) |}
  else None.

(** The thumbnail at position [k] of a gallery that shows the image
    [shown], and the gallery for [images] that shows it. *)
Definition thumb_at (shown k : nat) : Product.thumb :=
  {| Product.data_index := Some (JS.string_of_Z (Z.of_nat k));
     Product.classList :=
       if (k =? shown)%nat then ["thumbnail"; "active"] else ["thumbnail"] |}.

Definition showing (images : list value) (shown : nat) : Product.gallery :=
  {| Product.main_src := Some (ToString (default Undefined (images !! shown)));
     Product.thumbnails := thumb_at shown <$> seq 0 (length images) |}.

(** The image that the gallery shows after the clicks: the one clicked
    last, or the first. *)
Definition current (clicks : list nat) : nat := List.last clicks 0%nat.

(** A record whose finish, slots and description are markup. *)
Definition hostile_text : record :=
  list_to_map
    [("id", Num 7); ("name", Str "Case"); ("finish", Str "<i>Oak</i>");
     ("slots", Str "<u>2</u>"); ("price", Num 100);
     ("description", Str (markup "<img src=`x` onerror=`alert(1)`>"))].

End further_vocabulary.

(* ===================================================================== *)
(** ** Properties of the engine model *)
(* ===================================================================== *)

Section strings.

Lemma startsWith_spec (s q : string) :
  JS.startsWith s q = true ↔ ∃ b, s = q +:+ b.
Proof.
  revert s. induction q as [|c q IH]; intros s; simpl.
  - split; [intros _; exists s; done | done].
  - destruct s as [|d s].
    + split; [done | intros [b Hb]; discriminate].
    + rewrite andb_true_iff, IH. split.
      * intros [Hc [b ->]]. apply Ascii.eqb_eq in Hc as ->. by exists b.
      * intros [b Hb]. injection Hb as -> ->.
        split; [apply Ascii.eqb_refl | by exists b].
Qed.

Lemma includes_spec (s q : string) :
  JS.includes s q = true ↔ JS.substring_of q s.
Proof.
  unfold JS.substring_of. induction s as [|d s IH]; simpl.
  - rewrite orb_false_r, startsWith_spec. split.
    + intros [b Hb]. by exists "", b.
    + intros [a [b Hab]]. destruct a; [by exists b | discriminate].
  - rewrite orb_true_iff, startsWith_spec, IH. split.
    + intros [[b Hb] | [a [b Hab]]].
      * by exists "", b.
      * exists (String d a), b. simpl. by rewrite Hab.
    + intros [a [b Hab]]. destruct a as [|d' a]; simpl in Hab.
      * left. by exists b.
      * right. injection Hab as -> ->. by exists a, b.
Qed.

Lemma append_length (a b : string) :
  String.length (a +:+ b) = (String.length a + String.length b)%nat.
Proof. induction a; simpl; [done | by rewrite IHa]. Qed.

Lemma drop_one_white (w s : string) :
  w ∈ JS.white_space → ∃ w', JS.drop_one JS.white_space (w +:+ s) = Some w'
    ∧ (String.length w' < String.length (w +:+ s))%nat
    ∧ (white_space_only s → white_space_only w').
Proof.
  intros Hw. exists s.
  assert (Hlen : (0 < String.length w)%nat).
  { apply list_elem_of_In in Hw. simpl in Hw.
    repeat (destruct Hw as [<- | Hw]; [simpl; lia |]). done. }
  split; [| split; [rewrite append_length; lia | done]].
  apply list_elem_of_In in Hw. simpl in Hw.
  repeat (destruct Hw as [<- | Hw]; [reflexivity |]). done.
Qed.

Lemma drop_while_white (fuel : nat) (s : string) :
  white_space_only s → (String.length s ≤ fuel)%nat →
  JS.drop_while JS.white_space fuel s = "".
Proof.
  revert s. induction fuel as [|fuel IH]; intros s Hs Hlen.
  - destruct s; [done | simpl in Hlen; lia].
  - destruct Hs as [|w s Hw Hs]; [done |].
    destruct (drop_one_white w s Hw) as (w' & Hdrop & Hlt & Hwhite).
    cbn [JS.drop_while]. rewrite Hdrop. apply IH; [by apply Hwhite | lia].
Qed.

Lemma trim_white (s : string) : white_space_only s → JS.trim s = "".
Proof.
  intros Hs. unfold JS.trim, JS.trimStart.
  by rewrite (drop_while_white _ s Hs).
Qed.

Lemma append_assoc (a b c : string) : (a +:+ b) +:+ c = a +:+ (b +:+ c).
Proof.
  induction a as [|d a IH]; [done |].
  change (String d ((a +:+ b) +:+ c) = String d (a +:+ (b +:+ c))).
  by rewrite IH.
Qed.

Lemma substring_of_here (q b : string) : JS.substring_of q (q +:+ b).
Proof. by exists "", b. Qed.

Lemma substring_of_app_r (q a s : string) :
  JS.substring_of q s → JS.substring_of q (a +:+ s).
Proof.
  intros (x & y & ->). exists (a +:+ x), y. by rewrite append_assoc.
Qed.

Lemma substring_of_app_l (q a b : string) :
  JS.substring_of q a → JS.substring_of q (a +:+ b).
Proof.
  intros (x & y & ->). exists x, (y +:+ b). by rewrite !append_assoc.
Qed.

Lemma substring_of_whole (q : string) : JS.substring_of q q.
Proof.
  exists "", "". change (q = q +:+ ""). induction q as [|c q IH]; [done |].
  change (String c q = String c (q +:+ "")). by rewrite <- IH.
Qed.

End strings.

(** Finds a part in a concatenation. *)
Ltac find_part :=
  lazymatch goal with
  | |- JS.substring_of ?q (?q +:+ _) => apply substring_of_here
  | |- JS.substring_of ?q (_ +:+ _) =>
      first [ apply substring_of_app_r; find_part
            | apply substring_of_app_l; find_part ]
  | |- JS.substring_of ?q ?q => apply substring_of_whole
  end.

(* ===================================================================== *)
(** ** Binary64: the sign of a difference and the order of the numbers *)
(* ===================================================================== *)

(** The compare functions of [applyFilters] subtract two numbers and the
    sort looks at the sign of the difference.  This section derives, from
    the specification of the primitive operations, that the difference of
    two numbers other than [NaN] is above zero exactly when the first is
    above the second. *)

Section binary64.

Lemma digits2_size (p : positive) : digits2_pos p = Pos.size p.
Proof. induction p; simpl; congruence. Qed.

Lemma digits2_bounds (p : positive) :
  2 ^ (Z.pos (digits2_pos p) - 1) ≤ Z.pos p < 2 ^ Z.pos (digits2_pos p).
Proof.
  rewrite digits2_size. split.
  - pose proof (Pos.size_le p) as Hle.
    apply Pos2Z.pos_le_pos in Hle. rewrite Pos2Z.inj_pow in Hle.
    replace (Z.pos (Pos.size p)) with (Z.succ (Z.pos (Pos.size p) - 1)) in Hle by lia.
    rewrite Z.pow_succ_r in Hle by lia. lia.
  - pose proof (Pos.size_gt p) as Hgt.
    apply Pos2Z.pos_lt_pos in Hgt. by rewrite Pos2Z.inj_pow in Hgt.
Qed.

Lemma shr_1_m (mrs : shr_record) :
  0 ≤ shr_m mrs → shr_m (shr_1 mrs) = shr_m mrs / 2.
Proof.
  destruct mrs as [m r s]. cbn. intros Hm.
  destruct m as [|[p|p|]|p]; cbn [shr_m]; try lia.
  - done.
  - apply Z.div_unique with 1; lia.
  - apply Z.div_unique with 0; lia.
  - done.
Qed.

Lemma iter_pos_shr_1_m (p : positive) (mrs : shr_record) :
  0 ≤ shr_m mrs → shr_m (SpecFloat.iter_pos shr_1 p mrs) = shr_m mrs / 2 ^ Z.pos p.
Proof.
  revert mrs. induction p as [p IH | p IH |]; intros mrs Hm; cbn [SpecFloat.iter_pos].
  - assert (H1 : 0 ≤ shr_m (shr_1 mrs)).
    { rewrite shr_1_m by done. apply Z.div_pos; lia. }
    assert (H2 : 0 ≤ shr_m (SpecFloat.iter_pos shr_1 p (shr_1 mrs))).
    { rewrite IH by done. apply Z.div_pos; lia. }
    rewrite IH, IH, shr_1_m by done.
    rewrite !Z.div_div by lia. f_equal.
    change (Z.pos p~1) with (2 * Z.pos p + 1).
    replace (2 * Z.pos p + 1) with (1 + (Z.pos p + Z.pos p)) by lia.
    rewrite !Z.pow_add_r, Z.pow_1_r by lia. ring.
  - assert (H2 : 0 ≤ shr_m (SpecFloat.iter_pos shr_1 p mrs)).
    { rewrite IH by done. apply Z.div_pos; lia. }
    rewrite IH, IH by done.
    rewrite !Z.div_div by lia. f_equal.
    change (Z.pos p~0) with (2 * Z.pos p).
    replace (2 * Z.pos p) with (Z.pos p + Z.pos p) by lia.
    rewrite !Z.pow_add_r by lia. ring.
  - by apply shr_1_m.
Qed.

Lemma shr_record_of_loc_m (m : Z) (l : location) :
  shr_m (shr_record_of_loc m l) = m.
Proof. by destruct l as [|[]]. Qed.

Lemma fexp_64 (e : Z) : fexp prec emax e = Z.max (e - 53) (-1074).
Proof. reflexivity. Qed.

(** Shifting to the exponent of the format keeps a positive mantissa
    positive, when the exponent is not below the least one. *)
Lemma shr_fexp_pos (m e : Z) (l : location) :
  0 < m → -1074 ≤ e →
  0 < shr_m (shr_fexp prec emax m e l).1 ∧ -1074 ≤ (shr_fexp prec emax m e l).2.
Proof.
  intros Hm He. unfold shr_fexp, shr. rewrite fexp_64.
  destruct m as [|p|p]; try lia. cbn [Zdigits2].
  pose proof (digits2_bounds p) as [Hlo _].
  set (d := Z.pos (digits2_pos p)) in *.
  destruct (Z.max (d + e - 53) (-1074) - e) as [|q|q] eqn:Hn; cbn [fst snd].
  - rewrite shr_record_of_loc_m. lia.
  - rewrite iter_pos_shr_1_m, shr_record_of_loc_m
      by (rewrite shr_record_of_loc_m; lia).
    split; [| lia]. apply Z.div_str_pos. split; [lia |].
    etrans; [| exact Hlo]. apply Z.pow_le_mono_r; lia.
  - rewrite shr_record_of_loc_m. lia.
Qed.

Lemma round_nearest_even_pos (m : Z) (l : location) :
  0 < m → 0 < round_nearest_even m l.
Proof.
  intros Hm. destruct l as [|[]]; cbn; try lia. destruct (Z.even m); lia.
Qed.

(** A positive mantissa rounds to a number of the given sign, or to the
    infinity of that sign: never to zero. *)
Lemma binary_round_aux_sign (s : bool) (m e : Z) (l : location) :
  0 < m → -1074 ≤ e →
  binary_round_aux prec emax s m e l = S754_infinity s
  ∨ ∃ m' e', binary_round_aux prec emax s m e l = S754_finite s m' e'.
Proof.
  intros Hm He. unfold binary_round_aux.
  destruct (shr_fexp_pos m e l Hm He) as [Hm1 He1].
  destruct (shr_fexp prec emax m e l) as [mrs1 e1]. cbn [fst snd] in *.
  set (m1 := round_nearest_even _ _).
  assert (Hm1' : 0 < m1) by by apply round_nearest_even_pos.
  destruct (shr_fexp_pos m1 e1 loc_Exact Hm1' He1) as [Hm2 _].
  destruct (shr_fexp prec emax m1 e1 loc_Exact) as [mrs2 e2]. cbn [fst snd] in *.
  destruct (shr_m mrs2) as [|m2|m2]; try lia.
  destruct (e2 <=? emax - prec); [right; by eexists _, _ | by left].
Qed.

Lemma iter_xO_mul (d m : positive) :
  Z.pos (Pos.iter xO m d) = Pos.iter (Z.mul 2) (Z.pos m) d.
Proof.
  revert m. induction d as [d IH | d IH |]; intros m; cbn [Pos.iter].
  - rewrite <- !IH. reflexivity.
  - rewrite <- !IH. reflexivity.
  - reflexivity.
Qed.

Lemma shl_align_fst (m : positive) (e e' : Z) :
  e' ≤ e → Z.pos (shl_align m e e').1 = Z.pos m * 2 ^ (e - e').
Proof.
  intros Hle. unfold shl_align.
  destruct (e' - e) as [|d|d] eqn:Hd; cbn [fst]; try lia.
  - replace (e - e') with 0 by lia. lia.
  - replace (e - e') with (Z.pos d) by lia.
    rewrite <- Z.shiftl_mul_pow2 by lia. cbn [Z.shiftl].
    apply iter_xO_mul.
Qed.

Lemma shl_align_snd (m : positive) (e e' : Z) :
  -1074 ≤ e → -1074 ≤ e' → -1074 ≤ (shl_align m e e').2.
Proof.
  intros He He'. unfold shl_align. by destruct (e' - e).
Qed.

Lemma binary_round_sign (s : bool) (m : positive) (e : Z) :
  -1074 ≤ e →
  binary_round prec emax s m e = S754_infinity s
  ∨ ∃ m' e', binary_round prec emax s m e = S754_finite s m' e'.
Proof.
  intros He. unfold binary_round.
  pose proof (shl_align_snd m e (fexp prec emax (Z.pos (digits2_pos m) + e)) He) as Hs.
  destruct (shl_align m e _) as [mz ez]. cbn [snd] in Hs.
  apply binary_round_aux_sign; [lia |]. apply Hs. rewrite fexp_64. lia.
Qed.

(** What [valid_binary] says of a finite number. *)
Lemma valid_finite (s : bool) (m : positive) (e : Z) :
  valid_binary (S754_finite s m e) = true →
  -1074 ≤ e ≤ 971 ∧ Z.pos m < 2 ^ 53 ∧ (e = -1074 ∨ 2 ^ 52 ≤ Z.pos m).
Proof.
  cbn [valid_binary]. unfold bounded, canonical_mantissa.
  rewrite andb_true_iff, Z.eqb_eq, Z.leb_le, fexp_64.
  intros [Hcan Hmax]. change (emax - prec) with 971 in Hmax.
  pose proof (digits2_bounds m) as [Hlo Hhi].
  set (d := Z.pos (digits2_pos m)) in *.
  split; [lia |]. split.
  - eapply Z.lt_le_trans; [exact Hhi |]. apply Z.pow_le_mono_r; lia.
  - destruct (Z.eq_dec e (-1074)) as [-> | Hne]; [by left | right].
    replace 52 with (d - 1) by lia. exact Hlo.
Qed.

Lemma finite_key_bounds (s : bool) (m : positive) (e : Z) :
  valid_binary (S754_finite s m e) = true →
  0 < Z.pos m * 2 ^ (e + 1074) < 2 ^ 2200.
Proof.
  intros Hvalid. destruct (valid_finite s m e Hvalid) as (He & Hm & _).
  assert (Hpow : 0 < 2 ^ (e + 1074)) by (apply Z.pow_pos_nonneg; lia).
  split; [apply Z.mul_pos_pos; lia |].
  assert (Hle : 2 ^ (e + 1074) ≤ 2 ^ 2045) by (apply Z.pow_le_mono_r; lia).
  replace 2200 with (53 + 2147) by lia. rewrite (Z.pow_add_r 2 53 2147) by lia.
  assert (H2 : 2 ^ 2045 < 2 ^ 2147) by (apply Z.pow_lt_mono_r; lia).
  apply Z.mul_lt_mono_nonneg; lia.
Qed.

Lemma positive_binary_normalize (d e : Z) :
  -1074 ≤ e →
  positive_number (binary_normalize prec emax d e false) = (0 <? d).
Proof.
  intros He. unfold binary_normalize. destruct d as [|m|m].
  - reflexivity.
  - destruct (binary_round_sign false m e He) as [-> | (m' & e' & ->)]; reflexivity.
  - destruct (binary_round_sign true m e He) as [-> | (m' & e' & ->)]; reflexivity.
Qed.

(** The sign of a difference: [x - y] is above zero exactly when [y] is
    below [x]. *)
Lemma SFsub_positive (X Y : spec_float) :
  valid_binary X = true → valid_binary Y = true →
  X ≠ S754_nan → Y ≠ S754_nan →
  positive_number (SFsub prec emax X Y) = (zkey Y <? zkey X).
Proof.
  intros HX HY HXn HYn.
  destruct X as [sx | sx | | sx mx ex], Y as [sy | sy | | sy my ey];
    try done; cbn [SFsub zkey].
  - by destruct sx, sy.
  - destruct sy; cbn; symmetry; [apply Z.ltb_lt | apply Z.ltb_ge];
      pose proof (Z.pow_pos_nonneg 2 2200); lia.
  - pose proof (finite_key_bounds sy my ey HY).
    destruct sy; cbn; symmetry; [apply Z.ltb_lt | apply Z.ltb_ge]; lia.
  - destruct sx; cbn; symmetry; [apply Z.ltb_ge | apply Z.ltb_lt];
      pose proof (Z.pow_pos_nonneg 2 2200); lia.
  - destruct sx, sy; cbn; symmetry;
      first [apply Z.ltb_ge | apply Z.ltb_lt];
      pose proof (Z.pow_pos_nonneg 2 2200); lia.
  - pose proof (finite_key_bounds sy my ey HY).
    destruct sx; cbn; symmetry; [apply Z.ltb_ge | apply Z.ltb_lt];
      destruct sy; cbn; lia.
  - pose proof (finite_key_bounds sx mx ex HX).
    destruct sx; cbn; symmetry; [apply Z.ltb_ge | apply Z.ltb_lt]; lia.
  - pose proof (finite_key_bounds sx mx ex HX).
    destruct sy; cbn; symmetry; [apply Z.ltb_lt | apply Z.ltb_ge];
      destruct sx; cbn; lia.
  - destruct (valid_finite sx mx ex HX) as (Hex & _).
    destruct (valid_finite sy my ey HY) as (Hey & _).
    set (ez := Z.min ex ey).
    rewrite positive_binary_normalize by lia.
    rewrite !shl_align_fst by lia.
    assert (Hpz : 0 < 2 ^ (ez + 1074)) by (apply Z.pow_pos_nonneg; lia).
    assert (Hx : 2 ^ (ex + 1074) = 2 ^ (ex - ez) * 2 ^ (ez + 1074)).
    { rewrite <- Z.pow_add_r by lia. f_equal. lia. }
    assert (Hy : 2 ^ (ey + 1074) = 2 ^ (ey - ez) * 2 ^ (ez + 1074)).
    { rewrite <- Z.pow_add_r by lia. f_equal. lia. }
    rewrite Hx, Hy, !Z.mul_assoc.
    set (a := Z.pos mx * 2 ^ (ex - ez)). set (b := Z.pos my * 2 ^ (ey - ez)).
    set (P := 2 ^ (ez + 1074)) in *.
    destruct sx, sy; cbn [cond_Zopp];
      match goal with
      | |- (0 <? ?d) = (?u <? ?v) =>
          destruct (Z.ltb_spec 0 d), (Z.ltb_spec u v); try done; nia
      end.
Qed.

(** Numbers in canonical form compare as their exponents and then their
    mantissas do. *)
Lemma canonical_compare (s1 s2 : bool) (m1 m2 : positive) (e1 e2 : Z) :
  valid_binary (S754_finite s1 m1 e1) = true →
  valid_binary (S754_finite s2 m2 e2) = true →
  match e1 ?= e2 with
  | Lt => Lt
  | Gt => Gt
  | Eq => Pos.compare_cont Eq m1 m2
  end
  = (Z.pos m1 * 2 ^ (e1 + 1074) ?= Z.pos m2 * 2 ^ (e2 + 1074)).
Proof.
  intros H1 H2.
  destruct (valid_finite s1 m1 e1 H1) as (He1 & Hm1 & Hn1).
  destruct (valid_finite s2 m2 e2 H2) as (He2 & Hm2 & Hn2).
  assert (H52 : 2 * 2 ^ 52 = 2 ^ 53) by reflexivity.
  destruct (Z.compare_spec e1 e2) as [-> | Hlt | Hgt].
  - assert (HP : 0 < 2 ^ (e2 + 1074)) by (apply Z.pow_pos_nonneg; lia).
    change (Pos.compare_cont Eq m1 m2) with (Z.pos m1 ?= Z.pos m2).
    destruct (Z.compare_spec (Z.pos m1) (Z.pos m2)) as [Heq | Hlt | Hgt]; symmetry.
    + apply Z.compare_eq_iff. by rewrite Heq.
    + apply Z.compare_lt_iff. nia.
    + apply Z.compare_gt_iff. nia.
  - symmetry. apply Z.compare_lt_iff.
    replace (e2 + 1074) with ((e2 - e1) + (e1 + 1074)) by lia.
    rewrite (Z.pow_add_r 2 (e2 - e1) (e1 + 1074)) by lia.
    assert (HP : 0 < 2 ^ (e1 + 1074)) by (apply Z.pow_pos_nonneg; lia).
    assert (HQ : 2 ^ 1 ≤ 2 ^ (e2 - e1)) by (apply Z.pow_le_mono_r; lia).
    change (2 ^ 1) with 2 in HQ.
    destruct Hn2 as [-> | Hn2]; [lia |].
    rewrite Z.mul_assoc. apply Z.mul_lt_mono_pos_r; [done |].
    apply Z.lt_le_trans with (2 ^ 52 * 2); [lia |].
    apply Z.mul_le_mono_nonneg; lia.
  - symmetry. apply Z.compare_gt_iff.
    replace (e1 + 1074) with ((e1 - e2) + (e2 + 1074)) by lia.
    rewrite (Z.pow_add_r 2 (e1 - e2) (e2 + 1074)) by lia.
    assert (HP : 0 < 2 ^ (e2 + 1074)) by (apply Z.pow_pos_nonneg; lia).
    assert (HQ : 2 ^ 1 ≤ 2 ^ (e1 - e2)) by (apply Z.pow_le_mono_r; lia).
    change (2 ^ 1) with 2 in HQ.
    destruct Hn1 as [-> | Hn1]; [lia |].
    rewrite Z.mul_assoc. apply Z.mul_lt_mono_pos_r; [done |].
    apply Z.lt_le_trans with (2 ^ 52 * 2); [lia |].
    apply Z.mul_le_mono_nonneg; lia.
Qed.

Lemma SFcompare_zkey (X Y : spec_float) :
  valid_binary X = true → valid_binary Y = true →
  X ≠ S754_nan → Y ≠ S754_nan →
  SFcompare X Y = Some (zkey X ?= zkey Y).
Proof.
  intros HX HY HXn HYn.
  assert (Hbig : 0 < 2 ^ 2200) by (apply Z.pow_pos_nonneg; lia).
  destruct X as [sx | sx | | sx mx ex], Y as [sy | sy | | sy my ey];
    try done; cbn [SFcompare zkey]; f_equal; symmetry.
  - destruct sy; cbn [cond_Zopp]; [apply Z.compare_gt_iff | apply Z.compare_lt_iff]; lia.
  - pose proof (finite_key_bounds sy my ey HY).
    destruct sy; cbn [cond_Zopp]; [apply Z.compare_gt_iff | apply Z.compare_lt_iff]; lia.
  - destruct sx; cbn [cond_Zopp]; [apply Z.compare_lt_iff | apply Z.compare_gt_iff]; lia.
  - destruct sx, sy; cbn [cond_Zopp];
      first [apply Z.compare_eq_iff | apply Z.compare_lt_iff | apply Z.compare_gt_iff];
      lia.
  - pose proof (finite_key_bounds sy my ey HY).
    destruct sx; cbn [cond_Zopp]; [apply Z.compare_lt_iff | apply Z.compare_gt_iff];
      destruct sy; cbn [cond_Zopp]; lia.
  - pose proof (finite_key_bounds sx mx ex HX).
    destruct sx; cbn [cond_Zopp]; [apply Z.compare_lt_iff | apply Z.compare_gt_iff]; lia.
  - pose proof (finite_key_bounds sx mx ex HX).
    destruct sy; cbn [cond_Zopp]; [apply Z.compare_gt_iff | apply Z.compare_lt_iff];
      destruct sx; cbn [cond_Zopp]; lia.
  - pose proof (finite_key_bounds sx mx ex HX).
    pose proof (finite_key_bounds sy my ey HY).
    destruct sx, sy; cbn [cond_Zopp].
    + rewrite Z.compare_opp, <- (canonical_compare true true my mx ey ex HY HX).
      rewrite (Z.compare_antisym ex ey), (Pos.compare_cont_antisym mx my Eq).
      by destruct (ex ?= ey).
    + apply Z.compare_lt_iff. lia.
    + apply Z.compare_gt_iff. lia.
    + symmetry. by apply (canonical_compare false false).
Qed.

Lemma Prim2SF_not_nan (x : float) :
  PrimFloat.is_nan x = false → Prim2SF x ≠ S754_nan.
Proof.
  unfold PrimFloat.is_nan. rewrite FloatAxioms.eqb_spec. intros Hx Hnan.
  rewrite Hnan in Hx. discriminate.
Qed.

(** [x - y > 0] exactly when [x > y]. *)
Lemma sub_positive (x y : float) :
  PrimFloat.is_nan x = false → PrimFloat.is_nan y = false →
  (0 <? x - y)%float = (fkey y <? fkey x).
Proof.
  intros Hx Hy. rewrite FloatAxioms.ltb_spec, FloatAxioms.sub_spec.
  apply (SFsub_positive (Prim2SF x) (Prim2SF y));
    auto using Prim2SF_valid, Prim2SF_not_nan.
Qed.

Lemma compare_fkey (x y : float) :
  PrimFloat.is_nan x = false → PrimFloat.is_nan y = false →
  SFcompare (Prim2SF x) (Prim2SF y) = Some (fkey x ?= fkey y).
Proof.
  intros Hx Hy. apply SFcompare_zkey; auto using Prim2SF_valid, Prim2SF_not_nan.
Qed.

Lemma leb_fkey (x y : float) :
  PrimFloat.is_nan x = false → PrimFloat.is_nan y = false →
  (x <=? y)%float = (fkey x <=? fkey y).
Proof.
  intros Hx Hy. rewrite FloatAxioms.leb_spec. unfold SFleb.
  rewrite (compare_fkey x y Hx Hy), Z.leb_compare. by destruct (fkey x ?= fkey y).
Qed.

Lemma eqb_fkey (x y : float) :
  PrimFloat.is_nan x = false → PrimFloat.is_nan y = false →
  (x =? y)%float = (fkey x =? fkey y).
Proof.
  intros Hx Hy. rewrite FloatAxioms.eqb_spec. unfold SFeqb.
  rewrite (compare_fkey x y Hx Hy), Z.eqb_compare. by destruct (fkey x ?= fkey y).
Qed.






End binary64.

(* ===================================================================== *)
(** ** The list page: the derived view *)
(* ===================================================================== *)

Section heap_facts.

Lemma deref_insert_eq (h : heap) (r : loc) (l : list record) :
  deref (<[r := l]> h) r = l.
Proof. unfold deref. by rewrite lookup_insert_eq. Qed.

Lemma deref_insert_ne (h : heap) (r r' : loc) (l : list record) :
  r ≠ r' → deref (<[r := l]> h) r' = deref h r'.
Proof. intros Hne. unfold deref. by rewrite lookup_insert_ne. Qed.

Lemma fresh_not_allocated (h : heap) (r : loc) :
  r ∈ dom h → fresh (dom h) ≠ r.
Proof. intros Hr Heq. apply (is_fresh (dom h)). by rewrite Heq. Qed.

End heap_facts.

Section derived_view.
Context `{Host}.

Lemma renderList_spec (list : loc) (st : Main.page) :
  list ∈ dom (Main.store st) →
  let st' := Main.renderList list st in
  rendered st' = deref (Main.store st) list
  ∧ Main.container st' = cards (Main.origin st) (deref (Main.store st) list)
  ∧ Main.products st' = Main.products st
  ∧ (∀ r, r ∈ dom (Main.store st) → Main.store st' !! r = Main.store st !! r)
  ∧ (Main.lastRendered st' ∉ dom (Main.store st))
  ∧ dom (Main.store st) ⊆ dom (Main.store st')
  ∧ Main.msg_text st' = Main.msg_text st
  ∧ Main.msg_aria_hidden st' = Main.msg_aria_hidden st
  ∧ Main.search_value st' = Main.search_value st
  ∧ Main.sort_value st' = Main.sort_value st
  ∧ Main.origin st' = Main.origin st.
Proof.
  intros Hlist. unfold Main.renderList, alloc, rendered, cards. cbn zeta.
  set (copy := fresh (dom (Main.store st))).
  assert (Hne : copy ≠ list) by by apply fresh_not_allocated.
  cbn [Main.store Main.set_store Main.set_container Main.set_lastRendered].
  rewrite (deref_insert_ne _ _ _ _ Hne).
  assert (Hframe : ∀ r, r ∈ dom (Main.store st) →
    <[copy := deref (Main.store st) list]> (Main.store st) !! r = Main.store st !! r).
  { intros r Hr. apply lookup_insert_ne. by apply fresh_not_allocated. }
  assert (Hdom : dom (Main.store st)
                 ⊆ dom (<[copy := deref (Main.store st) list]> (Main.store st))).
  { rewrite dom_insert_L. apply union_subseteq_r. }
  assert (Hcopy : copy ∉ dom (Main.store st)) by apply is_fresh.
  destruct (deref (Main.store st) list) as [|p l] eqn:Hl; cbn;
    rewrite deref_insert_eq; repeat split; done.
Qed.

Lemma applyFilters_spec (st : Main.page) :
  let st' := Main.applyFilters st in
  let out := derive (all_records st) (Main.query st) (Main.sort_value st) in
  rendered st' = out
  ∧ Main.container st' = cards (Main.origin st) out
  ∧ Main.products st' = Main.products st
  ∧ (∀ r, r ∈ dom (Main.store st) → Main.store st' !! r = Main.store st !! r)
  ∧ (Main.lastRendered st' ∉ dom (Main.store st))
  ∧ dom (Main.store st) ⊆ dom (Main.store st')
  ∧ Main.msg_text st' = Main.msg_text st
  ∧ Main.msg_aria_hidden st' = Main.msg_aria_hidden st
  ∧ Main.search_value st' = Main.search_value st
  ∧ Main.sort_value st' = Main.sort_value st
  ∧ Main.origin st' = Main.origin st.
Proof.
  unfold Main.applyFilters, alloc. cbn zeta.
  set (fl := List.filter _ _).
  set (filtered := fresh (dom (Main.store st))).
  set (h1 := <[filtered := fl]> (Main.store st)).
  set (h2 := if String.eqb (Main.sort_value st) "price-asc" then _ else _).
  assert (Hh2 : h2 = <[filtered := sort_for (Main.sort_value st) fl]> (Main.store st)).
  { unfold h2, sort_for, Main.sort_in_place, h1.
    repeat case_match; rewrite ?deref_insert_eq, ?insert_insert_eq; done. }
  clearbody h2. subst h2.
  set (st2 := Main.set_store _ st).
  assert (Hfl : filtered ∈ dom (Main.store st2)).
  { cbn. rewrite dom_insert_L. apply elem_of_union_l. by apply elem_of_singleton. }
  destruct (renderList_spec filtered st2 Hfl)
    as (Hr & Hc & Hp & Hframe & Hlast & Hdom & Hm & Ha & Hs & Hk & Ho).
  cbn [Main.store st2 Main.set_store] in Hr, Hc, Hframe, Hdom, Hlast.
  rewrite deref_insert_eq in Hr, Hc.
  unfold derive, all_records. fold fl.
  repeat split; try done.
  - intros r Hr'. rewrite Hframe.
    + apply lookup_insert_ne. by apply fresh_not_allocated.
    + rewrite dom_insert_L. by apply elem_of_union_r.
  - intros Hin. apply Hlast. rewrite dom_insert_L. by apply elem_of_union_r.
  - etrans; [| exact Hdom]. rewrite dom_insert_L. apply union_subseteq_r.
Qed.

Lemma filter_sublist {A} (f : A → bool) (l : list A) :
  sublist (List.filter f l) l.
Proof.
  induction l as [|x l IH]; simpl; [constructor |].
  destruct (f x); by constructor.
Qed.

Lemma matches_spec (q : string) (p : record) :
  q ≠ "" →
  Main.matches q p = true ↔
    JS.substring_of q (field_text p "name")
    ∨ JS.substring_of q (field_text p "finish")
    ∨ JS.substring_of q (field_text p "slots").
Proof.
  intros Hq. unfold Main.matches.
  destruct (String.eqb_spec q "") as [-> | _]; [done |].
  rewrite !orb_true_iff, !includes_spec. unfold field_text. tauto.
Qed.

Lemma query_white_space (st : Main.page) :
  white_space_only (Main.search_value st) → Main.query st = "".
Proof.
  intros Hw. unfold Main.query. rewrite (trim_white _ Hw).
  apply toLowerCase_empty.
Qed.

Lemma filter_all {A} (f : A → bool) (l : list A) :
  (∀ x, f x = true) → List.filter f l = l.
Proof.
  intros Hf. induction l as [|x l IH]; simpl; [done |].
  by rewrite Hf, IH.
Qed.

(** The filter of the list page, in general: with a query that is not
    empty once trimmed and lowercased, the page shows, in the order of the
    sort, the records of which a field text contains the query; a query
    of white space only keeps every record.  The field text of a falsy
    field ([undefined], [null], [false], [0], [NaN], the empty string) is
    the empty string. *)
Lemma applyFilters_filter (st : Main.page) :
  let st' := Main.applyFilters st in
  rendered st'
  = sort_for (Main.sort_value st)
      (List.filter (Main.matches (Main.query st)) (all_records st))
  ∧ (Main.query st ≠ "" →
     ∀ p,
       Main.matches (Main.query st) p = true ↔
         JS.substring_of (Main.query st) (field_text p "name")
         ∨ JS.substring_of (Main.query st) (field_text p "finish")
         ∨ JS.substring_of (Main.query st) (field_text p "slots"))
  ∧ (white_space_only (Main.search_value st) →
     rendered st' = sort_for (Main.sort_value st) (all_records st)).
Proof.
  destruct (applyFilters_spec st) as (Hr & _). cbn zeta in *.
  split; [exact Hr | split].
  - intros Hq p. by apply matches_spec.
  - intros Hw. rewrite Hr. unfold derive.
    rewrite (query_white_space _ Hw). by rewrite filter_all.
Qed.

End derived_view.

(* ===================================================================== *)
(** ** The list page: filter, order and frame *)
(* ===================================================================== *)

(** C1, at a record with [slots: 0] and the query [0]: the query is a
    substring of the lowercased string form of the [slots] field, so the
    filter as specified keeps the record; [applyFilters] drops it, because
    [String(p.slots || "")] takes the falsy [0] for a missing field, and
    the page shows the message for no results. *)
Theorem applyFilters_drops_zero_slots :
  let st := page_of [tray] "0" "relevance" in
  let st' := @Main.applyFilters latin_host st in
  JS.substring_of (@Main.query latin_host st)
    (@toLowerCase latin_host (ToString (get tray "slots")))
  ∧ @Main.query latin_host st ≠ ""
  ∧ rendered st' = []
  ∧ Main.container st' = [Html Main.no_results].
Proof.
  cbn zeta. split; [| split; [| split]].
  - apply includes_spec. vm_compute. reflexivity.
  - vm_compute. discriminate.
  - vm_compute. reflexivity.
  - vm_compute. reflexivity.
Qed.

Section order_and_frame.
Context `{Host}.

Lemma sort_for_other (key : string) (l : list record) :
  key ∉ directional_keys → sort_for key l = l.
Proof.
  intros Hkey. unfold sort_for.
  repeat match goal with
         | |- context [String.eqb key ?k] =>
             destruct (String.eqb_spec key k) as [-> | _];
             [exfalso; apply Hkey, list_elem_of_In; simpl; tauto |]
         end.
  reflexivity.
Qed.

(** C5: a sort key outside the four directional keys, [relevance]
    included, makes [applyFilters] show exactly the records that pass the
    filter, in the order in which they are in [products]: the rendered
    list is the filtered list, a subsequence of the record set, and it is
    what the key [relevance] shows.  [applyFilters] is a total function of
    the page: no key makes it fail. *)
Theorem unrecognised_key_keeps_order (st : Main.page) (key : string) :
  key ∉ directional_keys →
  let st' := Main.applyFilters (Main.set_sort_value key st) in
  let relevance := Main.applyFilters (Main.set_sort_value "relevance" st) in
  rendered st' = List.filter (Main.matches (Main.query st)) (all_records st)
  ∧ sublist (rendered st') (all_records st)
  ∧ Main.container st' = cards (Main.origin st) (rendered st')
  ∧ rendered st' = rendered relevance
  ∧ Main.container st' = Main.container relevance.
Proof.
  intros Hkey. cbn zeta.
  destruct (applyFilters_spec (Main.set_sort_value key st)) as (Hr & Hc & _).
  destruct (applyFilters_spec (Main.set_sort_value "relevance" st))
    as (Hr' & Hc' & _).
  cbn zeta in *. unfold derive in *. cbn [Main.sort_value Main.set_sort_value] in *.
  rewrite (sort_for_other key _ Hkey) in Hr, Hc.
  rewrite sort_for_other in Hr', Hc'
    by (rewrite list_elem_of_In; simpl; intuition discriminate).
  change (Main.query (Main.set_sort_value _ st)) with (Main.query st) in *.
  change (all_records (Main.set_sort_value _ st)) with (all_records st) in *.
  change (Main.origin (Main.set_sort_value _ st)) with (Main.origin st) in *.
  rewrite Hr, Hc, Hr', Hc'. repeat split. apply filter_sublist.
Qed.

Lemma recompute_frames (inputs : list (string * string)) (st : Main.page) :
  let st' := foldl recompute st inputs in
  Main.products st' = Main.products st
  ∧ (∀ r, r ∈ dom (Main.store st) → Main.store st' !! r = Main.store st !! r)
  ∧ dom (Main.store st) ⊆ dom (Main.store st')
  ∧ (inputs ≠ [] → Main.lastRendered st' ∉ dom (Main.store st)).
Proof.
  cbn zeta. induction inputs as [|input inputs IH] using rev_ind.
  - done.
  - rewrite foldl_app. cbn [foldl].
    destruct IH as (Hp & Hframe & Hdom & _).
    set (st1 := foldl recompute st inputs) in *.
    change (recompute st1 input) with
      (Main.applyFilters
         (Main.set_sort_value input.2 (Main.set_search_value input.1 st1))).
    set (st2 := Main.set_sort_value _ _).
    destruct (applyFilters_spec st2) as (_ & _ & Hp2 & Hframe2 & Hlast & Hdom2 & _).
    cbn zeta in *.
    change (Main.products st2) with (Main.products st1) in *.
    change (Main.store st2) with (Main.store st1) in *.
    repeat split.
    + by rewrite Hp2.
    + intros r Hr. rewrite Hframe2 by by apply Hdom. by apply Hframe.
    + by etrans.
    + intros _ Hin. by apply Hlast, Hdom.
Qed.

(** C9: [applyFilters] leaves [products] and the array it refers to as
    they are, whatever the search text and the sort selection, and so does
    every sequence of recomputations: every array that the page had keeps
    its elements in their order, and the array that is filtered, sorted
    and copied into [lastRendered] is a new one each time. *)
Theorem applyFilters_frames_products (st : Main.page)
    (inputs : list (string * string)) :
  Main.products st ∈ dom (Main.store st) →
  let st' := foldl recompute st inputs in
  Main.products st' = Main.products st
  ∧ Main.store st' !! Main.products st = Main.store st !! Main.products st
  ∧ all_records st' = all_records st
  ∧ (∀ r, r ∈ dom (Main.store st) → Main.store st' !! r = Main.store st !! r)
  ∧ (inputs ≠ [] → Main.lastRendered st' ≠ Main.products st').
Proof.
  intros Hwf. cbn zeta.
  destruct (recompute_frames inputs st) as (Hp & Hframe & _ & Hlast).
  cbn zeta in *. repeat split; try done.
  - by apply Hframe.
  - unfold all_records, deref. by rewrite Hp, Hframe.
  - intros Hne Heq. apply (Hlast Hne). by rewrite Heq, Hp.
Qed.

End order_and_frame.

Lemma unrecognised_key_keeps_order_witness :
  ("newest" ∉ @directional_keys)
  ∧ rendered
      (@Main.applyFilters latin_host
         (Main.set_sort_value "newest" (page_of [box; tray; roll] "t" "price-asc")))
    = [box; tray; roll].
Proof.
  assert (Hkey : "newest" ∉ directional_keys).
  { rewrite list_elem_of_In. simpl. intuition discriminate. }
  split; [exact Hkey |].
  destruct (@unrecognised_key_keeps_order latin_host
              (page_of [box; tray; roll] "t" "price-asc") "newest" Hkey)
    as (Hr & _).
  rewrite Hr. vm_compute. reflexivity.
Defined.

Lemma applyFilters_frames_products_witness :
  let st := page_of [box; tray; roll] "" "relevance" in
  Main.products st ∈ dom (Main.store st)
  ∧ all_records
      (foldl (@recompute latin_host) st
         [("blue", "price-desc"); ("", "slots-asc"); ("t", "relevance")])
    = [box; tray; roll].
Proof.
  cbn zeta.
  assert (Hwf : Main.products (page_of [box; tray; roll] "" "relevance")
                ∈ dom (Main.store (page_of [box; tray; roll] "" "relevance"))).
  { apply elem_of_dom. by eexists. }
  split; [exact Hwf |].
  destruct (@applyFilters_frames_products latin_host _
              [("blue", "price-desc"); ("", "slots-asc"); ("t", "relevance")] Hwf)
    as (_ & _ & Ha & _).
  rewrite Ha. reflexivity.
Defined.

(* ===================================================================== *)
(** ** The detail page: lookup and escaping *)
(* ===================================================================== *)

Section detail_lookup.
Context `{Host}.

Lemma find_by_id_spec (records : list record) (id : string) :
  match Product.find_by_id records id with
  | Some p =>
      ∃ before after,
        records = before ++ p :: after
        ∧ ToString (get p "id") = ToString (Str id)
        ∧ Forall (λ x, ToString (get x "id") ≠ ToString (Str id)) before
  | None => Forall (λ x, ToString (get x "id") ≠ ToString (Str id)) records
  end.
Proof.
  unfold Product.find_by_id, Array_find.
  induction records as [|x records IH]; simpl; [constructor |].
  destruct (String.eqb_spec (ToString (get x "id")) id) as [Heq | Hne].
  - exists [], records. repeat split; [done | constructor].
  - destruct (find _ records) as [p|].
    + destruct IH as (before & after & -> & Hp & Hbefore).
      exists (x :: before), after. repeat split; [done | by constructor].
    + by constructor.
Qed.

(** C2: [find_by_id] returns the first record of the list whose id, as a
    string, is the requested id, and nothing if there is none or the list
    is empty; the number [3] matches the parameter [3].  [loadAndRender]
    shows the record it finds, and the not-found view when there is no
    [id] parameter, when the parameter is empty, and when no record
    matches. *)
Theorem loadAndRender_first_match (records : list record) (id : string) :
  match Product.find_by_id records id with
  | Some p =>
      ∃ before after,
        records = before ++ p :: after
        ∧ ToString (get p "id") = ToString (Str id)
        ∧ Forall (λ x, ToString (get x "id") ≠ ToString (Str id)) before
  | None => Forall (λ x, ToString (get x "id") ≠ ToString (Str id)) records
  end
  ∧ Product.find_by_id [] id = None
  ∧ Product.find_by_id [tray; box; roll] "3" = Some box
  ∧ (∀ net st,
       Product.getParam "id" st = None ∨ Product.getParam "id" st = Some "" →
       Product.detail (Product.loadAndRender net st) = Product.renderNotFound)
  ∧ (∀ after res st,
       Product.getParam "id" st = Some id → id ≠ "" →
       (after < Product.FETCH_TIMEOUT)%N → ok res = true →
       json res = ArrayOf records →
       Product.detail (Product.loadAndRender (Responds after res) st)
       = Product.renderProduct (Product.href st) (Product.find_by_id records id)
       ∧ (Product.find_by_id records id = None →
          Product.detail (Product.loadAndRender (Responds after res) st)
          = Product.renderNotFound)).
Proof.
  split; [apply find_by_id_spec |].
  split; [reflexivity |].
  split; [vm_compute; reflexivity |].
  split.
  - intros net st [Hid | Hid]; unfold Product.loadAndRender; by rewrite Hid.
  - intros after res st Hid Hne Hafter Hok Hjson.
    unfold Product.loadAndRender. rewrite Hid.
    destruct (String.eqb_spec id "") as [-> | _]; [done |].
    unfold safeFetch. apply N.ltb_lt in Hafter. rewrite Hafter, Hok, Hjson. cbn.
    split; [done |]. by intros ->.
Qed.

End detail_lookup.

Lemma loadAndRender_first_match_witness :
  Product.detail
    (@Product.loadAndRender latin_host (Responds 120 (ok_response [tray; box; roll]))
       (detail_page [("id", "3")]))
  = @Product.renderProduct latin_host "https://shop.example/product.html" (Some box).
Proof.
  destruct (@loadAndRender_first_match latin_host [tray; box; roll] "3")
    as (_ & _ & Hfound & _ & Hload).
  rewrite <- Hfound.
  apply (Hload 120%N (ok_response [tray; box; roll]) (detail_page [("id", "3")]));
    [reflexivity | discriminate | reflexivity | reflexivity | reflexivity].
Defined.

Section escaping.

Lemma replaceAll_app (c : ascii) (r a b : string) :
  JS.replaceAll c r (a +:+ b) = JS.replaceAll c r a +:+ JS.replaceAll c r b.
Proof.
  induction a as [|d a IH]; simpl; [done |].
  destruct (Ascii.eqb c d); simpl; rewrite IH; [| done].
  symmetry. apply append_assoc.
Qed.

Lemma escape_string_cons (c : ascii) (s : string) :
  escape_string (String c s) = escape_string (String c "") +:+ escape_string s.
Proof.
  change (String c s) with (String c "" +:+ s).
  unfold escape_string. by rewrite !replaceAll_app.
Qed.

Lemma free_of_markup_app (a b : string) :
  free_of_markup (a +:+ b) = free_of_markup a && free_of_markup b.
Proof. induction a; simpl; [done | by rewrite IHa, andb_assoc]. Qed.

Lemma escape_char_free (c : ascii) :
  free_of_markup (escape_string (String c "")) = true.
Proof. by destruct c as [[] [] [] [] [] [] [] []]. Qed.

Lemma escape_string_free (s : string) : free_of_markup (escape_string s) = true.
Proof.
  induction s as [|c s IH]; [done |].
  by rewrite escape_string_cons, free_of_markup_app, escape_char_free, IH.
Qed.

(** What [escapeHtml] returns has no [<], [>], double quote or quote,
    whatever the value. *)
Lemma escapeHtml_free_of_markup (v : value) :
  free_of_markup (Product.escapeHtml v) = true.
Proof.
  destruct v; try done; apply escape_string_free.
Qed.

(** The main image and the thumbnails, which carry the image as it is in
    their [src], are parts of what [renderProduct] assigns to [innerHTML]. *)
Lemma renderProduct_image_parts `{Host} (href : string) (p : record) :
  JS.substring_of (Product.mainImg p) (Product.renderProduct href (Some p))
  ∧ JS.substring_of (Product.thumbnailsHtml p)
      (Product.renderProduct href (Some p))
  ∧ Product.mainImg p
    = markup "<img id=`main-img` src=`" +:+
      ToString (default Undefined (head (Product.images p))) +:+
      markup "` alt=`" +:+ Product.escapeHtml (get p "name") +:+
      markup "` loading=`lazy` onerror=`this.src='images/placeholder.png'`>".
Proof.
  unfold Product.renderProduct, Product.imageGalleryHtml.
  split; [find_part | split; [find_part | reflexivity]].
Qed.

(** C3, at the record [hostile]: [renderProduct] puts the [image] of the
    record into the [src] attributes as it is, without [escapeHtml], so a
    double quote in it closes the attribute and the rest of the value
    becomes attributes of the element; [createCard] assigns [slots],
    [finish] and [description] to [innerHTML] unescaped, so the markup in
    [description] becomes an element of the card. *)
Theorem renderProduct_image_unescaped :
  let html :=
    @Product.renderProduct latin_host "https://shop.example/product.html"
      (Some hostile) in
  let card := @Main.createCard latin_host "https://shop.example" hostile in
  free_of_markup (ToString (get hostile "image")) = false
  ∧ JS.substring_of
      (markup "<img id=`main-img` src=`x` onerror=`alert(1)` alt=`Case`") html
  ∧ JS.substring_of
      (markup "<img class=`thumbnail active` src=`x` onerror=`alert(1)` alt=`Case - View 1`")
      html
  ∧ ¬ JS.substring_of (Product.escapeHtml (get hostile "image")) html
  ∧ html_parts card = [Main.specs_html hostile]
  ∧ JS.substring_of
      (markup "<div class=`small`><img src=x onerror=alert(1)></div>")
      (Main.specs_html hostile).
Proof.
  cbn zeta. repeat split.
  - apply includes_spec. vm_compute. reflexivity.
  - apply includes_spec. vm_compute. reflexivity.
  - intros Hsub. apply includes_spec in Hsub. vm_compute in Hsub. discriminate.
  - apply includes_spec. vm_compute. reflexivity.
Qed.

(** The [name], escaped in the heading, reaches the [href] of the mail
    link as it is: [makeEmailLink] does not encode the body of the mail. *)
Lemma renderProduct_mailto_unescaped :
  JS.substring_of
    (markup "I would like more information about Nook` class=`x (ID: 8)")
    (@Product.renderProduct latin_host "https://shop.example/product.html"
       (Some quoted)).
Proof. apply includes_spec. vm_compute. reflexivity. Qed.

End escaping.

(* ===================================================================== *)
(** ** The list page: loading with retries *)
(* ===================================================================== *)

Section loading.
Context `{Host}.

(** An attempt fails exactly when the request times out or is rejected,
    when the status is not ok, or when the body is not a JSON array. *)
Lemma attempt_records_None (net : reply) :
  Main.attempt_records net = None ↔
    (∃ e, safeFetch net Main.FETCH_TIMEOUT = inr e)
    ∨ (∃ res, safeFetch net Main.FETCH_TIMEOUT = inl res
              ∧ (ok res = false ∨ json res = Malformed ∨ json res = NotAnArray)).
Proof.
  unfold Main.attempt_records.
  destruct (safeFetch net Main.FETCH_TIMEOUT) as [res | e].
  - destruct (ok res) eqn:Hok; cbn.
    + destruct (json res) eqn:Hjson; split; try done.
      * intros _. right. exists res. auto.
      * intros _. right. exists res. auto.
      * intros [[e He] | (res' & Hres & [Hk | [Hj | Hj]])]; try done;
          injection Hres as <-; congruence.
    + split; [| done]. intros _. right. exists res. auto.
  - split; [| done]. intros _. left. by exists e.
Qed.

Lemma attempts_failed_step (todo attempt retries : nat) (net : nat → reply)
    (st : Main.page) :
  Main.attempt_records (net attempt) = None →
  Main.attempts (S todo) attempt retries net st
  = if (attempt =? retries)%nat then
      let '(st', evs) := Main.attempts todo (S attempt) retries net (load_failed st) in
      (st', Request Main.PRODUCTS_URL Main.FETCH_TIMEOUT :: Warn (attempt + 1) :: evs)
    else
      let '(st', evs) := Main.attempts todo (S attempt) retries net st in
      (st', Request Main.PRODUCTS_URL Main.FETCH_TIMEOUT :: Warn (attempt + 1)
            :: Sleep 500%N :: evs).
Proof. intros Hfail. cbn [Main.attempts]. by rewrite Hfail. Qed.

Lemma attempts_success_step (todo attempt retries : nat) (net : nat → reply)
    (st : Main.page) (l : list record) :
  Main.attempt_records (net attempt) = Some l →
  Main.attempts (S todo) attempt retries net st
  = (loaded l st, [Request Main.PRODUCTS_URL Main.FETCH_TIMEOUT]).
Proof. intros Hl. cbn [Main.attempts]. by rewrite Hl. Qed.

Lemma attempts_all_fail (todo attempt retries : nat) (net : nat → reply)
    (st : Main.page) :
  (attempt + S todo = S retries)%nat →
  (∀ k, (attempt ≤ k ≤ retries)%nat → Main.attempt_records (net k) = None) →
  Main.attempts (S todo) attempt retries net st
  = (load_failed st,
     retry_events attempt todo ++
     [Request Main.PRODUCTS_URL Main.FETCH_TIMEOUT; Warn (retries + 1)]).
Proof.
  revert attempt. induction todo as [|todo IH]; intros attempt Hsum Hfail.
  - rewrite attempts_failed_step by (apply Hfail; lia).
    assert (attempt = retries) as -> by lia.
    by rewrite Nat.eqb_refl.
  - rewrite attempts_failed_step by (apply Hfail; lia).
    destruct (Nat.eqb_spec attempt retries) as [-> | _]; [lia |].
    rewrite (IH (S attempt)) by (try lia; intros k Hk; apply Hfail; lia).
    reflexivity.
Qed.

Lemma attempts_first_success (todo attempt retries k : nat) (net : nat → reply)
    (st : Main.page) (l : list record) :
  (attempt + S todo = S retries)%nat → (attempt ≤ k ≤ retries)%nat →
  (∀ j, (attempt ≤ j < k)%nat → Main.attempt_records (net j) = None) →
  Main.attempt_records (net k) = Some l →
  Main.attempts (S todo) attempt retries net st
  = (loaded l st,
     retry_events attempt (k - attempt) ++
     [Request Main.PRODUCTS_URL Main.FETCH_TIMEOUT]).
Proof.
  revert attempt. induction todo as [|todo IH]; intros attempt Hsum Hk Hfail Hl.
  - assert (attempt = k) as -> by lia.
    rewrite (attempts_success_step _ _ _ _ _ l Hl), Nat.sub_diag. reflexivity.
  - destruct (Nat.eq_dec attempt k) as [-> | Hne].
    + rewrite (attempts_success_step _ _ _ _ _ l Hl), Nat.sub_diag. reflexivity.
    + rewrite attempts_failed_step by (apply Hfail; lia).
      destruct (Nat.eqb_spec attempt retries) as [-> | _]; [lia |].
      rewrite (IH (S attempt))
        by first [lia | exact Hl | intros j Hj; apply Hfail; lia].
      replace (k - attempt)%nat with (S (k - S attempt)) by lia.
      reflexivity.
Qed.

Lemma loaded_spec (l : list record) (st : Main.page) :
  let st' := loaded l st in
  all_records st' = l
  ∧ rendered st' = l
  ∧ Main.container st' = cards (Main.origin st) l
  ∧ Main.msg_text st' = ""
  ∧ Main.msg_aria_hidden st' = Some "true".
Proof.
  unfold loaded, alloc. cbn zeta.
  set (r := fresh (dom (Main.store st))).
  set (st1 := Main.set_msg _ _ _).
  assert (Hr : Main.products st1 ∈ dom (Main.store st1)).
  { cbn. rewrite dom_insert_L. apply elem_of_union_l. by apply elem_of_singleton. }
  destruct (renderList_spec (Main.products st1) st1 Hr)
    as (Hrend & Hc & Hp & Hframe & _ & _ & Hm & Ha & _).
  cbn zeta in *.
  assert (Hl : deref (Main.store st1) (Main.products st1) = l)
    by apply deref_insert_eq.
  rewrite Hl in Hrend, Hc.
  repeat split; try done.
  unfold all_records, deref. rewrite Hp, (Hframe _ Hr). exact Hl.
Qed.

Lemma fails_within_records (r : reply) :
  fails_within Main.FETCH_TIMEOUT r → Main.attempt_records r = None.
Proof.
  unfold Main.attempt_records, safeFetch.
  destruct r as [after res | after |]; cbn [fails_within].
  - intros Hfail.
    destruct (N.ltb_spec after Main.FETCH_TIMEOUT) as [Hlt | _]; [| done].
    destruct Hfail as [Hlate | [Hok | [Hjson | Hjson]]].
    + lia.
    + by rewrite Hok.
    + rewrite Hjson. by destruct (ok res).
    + rewrite Hjson. by destruct (ok res).
  - intros _. by destruct (after <? Main.FETCH_TIMEOUT)%N.
  - done.
Qed.

Lemma in_time_records (after : N) (res : response) (l : list record) :
  (after < Main.FETCH_TIMEOUT)%N → ok res = true → json res = ArrayOf l →
  Main.attempt_records (Responds after res) = Some l.
Proof.
  intros Hlt Hok Hjson. unfold Main.attempt_records, safeFetch.
  apply N.ltb_lt in Hlt. by rewrite Hlt, Hok, Hjson.
Qed.

(** While the attempts fail and one is left, the loop changes nothing on
    the page. *)
Lemma attempts_pending (n attempt retries : nat) (net : nat → reply)
    (st : Main.page) :
  (attempt + n ≤ retries)%nat →
  (∀ j, (attempt ≤ j < attempt + n)%nat → Main.attempt_records (net j) = None) →
  Main.attempts n attempt retries net st = (st, retry_events attempt n).
Proof.
  revert attempt. induction n as [|n IH]; intros attempt Hle Hfail; [done |].
  rewrite attempts_failed_step by (apply Hfail; lia).
  destruct (Nat.eqb_spec attempt retries) as [-> | _]; [lia |].
  rewrite (IH (S attempt)) by (try lia; intros j Hj; apply Hfail; lia).
  reflexivity.
Qed.

(** C4: an attempt fails when its request is still unanswered
    [FETCH_TIMEOUT] ms after it was made, however long the attempts
    before it took, when the request is rejected, when the status is not
    ok and when the body is not a JSON array.  [fetchProductsWithRetry]
    is its loop run for [retries + 1] iterations.  While the attempts
    fail and one is left, the page stays as the start of the function
    left it, with the message that the products are loading and the
    container untouched, and each failed attempt is followed by a delay
    of 500 ms: the failure message is not shown before the last attempt
    has failed.  If all [retries + 1] attempts fail, the failure message
    is shown after the last one and [products] is left alone.  If attempt
    [k] is the first whose response arrives in time, is ok and carries an
    array of records, no later request is made, the records are stored in
    [products] and rendered, and the message is empty and hidden. *)
Theorem fetchProductsWithRetry_retries (retries : nat) (net : nat → reply)
    (st : Main.page) :
  let start := Main.set_msg "Loading products..." "false" st in
  let result := Main.fetchProductsWithRetry retries net st in
  result = progress (S retries) retries net st
  ∧ (∀ n, (n ≤ retries)%nat →
       (∀ j, (j < n)%nat → fails_within Main.FETCH_TIMEOUT (net j)) →
       progress n retries net st = (start, retry_events 0 n))
  ∧ ((∀ k, (k ≤ retries)%nat → fails_within Main.FETCH_TIMEOUT (net k)) →
     result.2
     = retry_events 0 retries ++
       [Request Main.PRODUCTS_URL Main.FETCH_TIMEOUT; Warn (retries + 1)]
     ∧ Main.msg_text result.1 = Main.load_failed_msg
     ∧ Main.msg_aria_hidden result.1 = Some "false"
     ∧ Main.container result.1 = [Html Main.load_failed_html]
     ∧ Main.products result.1 = Main.products st
     ∧ Main.store result.1 = Main.store st)
  ∧ (∀ k after res l, (k ≤ retries)%nat →
       (∀ j, (j < k)%nat → fails_within Main.FETCH_TIMEOUT (net j)) →
       net k = Responds after res →
       (after < Main.FETCH_TIMEOUT)%N → ok res = true → json res = ArrayOf l →
       result.2 = retry_events 0 k ++ [Request Main.PRODUCTS_URL Main.FETCH_TIMEOUT]
       ∧ all_records result.1 = l
       ∧ rendered result.1 = l
       ∧ Main.container result.1 = cards (Main.origin st) l
       ∧ Main.msg_text result.1 = ""
       ∧ Main.msg_aria_hidden result.1 = Some "true").
Proof.
  cbn zeta. unfold Main.fetchProductsWithRetry, progress.
  split; [reflexivity |]. split; [| split].
  - intros n Hn Hfail. apply attempts_pending; [lia |].
    intros j Hj. apply fails_within_records, Hfail. lia.
  - intros Hfail.
    rewrite (attempts_all_fail retries 0 retries)
      by (try lia; intros; apply fails_within_records, Hfail; lia).
    repeat split.
  - intros k after res l Hk Hfail Hnet Hafter Hok Hjson.
    assert (Hl : Main.attempt_records (net k) = Some l)
      by (rewrite Hnet; by apply in_time_records).
    rewrite (attempts_first_success retries 0 retries k _ _ l)
      by (try done; try lia; intros; apply fails_within_records, Hfail; lia).
    rewrite Nat.sub_0_r. split; [done |]. cbn [fst].
    apply (loaded_spec l (Main.set_msg "Loading products..." "false" st)).
Qed.

End loading.

Lemma fetchProductsWithRetry_retries_witness :
  let st := page_of [] "" "relevance" in
  let waiting := (@progress latin_host 1 Main.MAX_RETRIES late_then_ok st).1 in
  let result :=
    @Main.fetchProductsWithRetry latin_host Main.MAX_RETRIES late_then_ok st in
  Main.msg_text waiting = "Loading products..."
  ∧ Main.container waiting = []
  ∧ result.2
    = [Request "data/products.json" 8000; Warn 1; Sleep 500;
       Request "data/products.json" 8000]
  ∧ all_records result.1 = [box; roll]
  ∧ Main.msg_text result.1 = "".
Proof.
  destruct (@fetchProductsWithRetry_retries latin_host Main.MAX_RETRIES
              late_then_ok (page_of [] "" "relevance")) as (_ & Hwait & _ & Hok).
  assert (Hlate : ∀ j, (j < 1)%nat → fails_within Main.FETCH_TIMEOUT (late_then_ok j)).
  { intros j Hj. assert (j = 0%nat) as -> by lia. left. vm_compute. discriminate. }
  destruct (Hok 1%nat 7999%N (ok_response [box; roll]) [box; roll])
    as (Hev & Hall & _ & _ & Hmsg & _).
  - unfold Main.MAX_RETRIES. lia.
  - exact Hlate.
  - reflexivity.
  - reflexivity.
  - reflexivity.
  - reflexivity.
  - cbn zeta. rewrite (Hwait 1%nat) by (try exact Hlate; unfold Main.MAX_RETRIES; lia).
    rewrite Hev, Hall, Hmsg. repeat split.
Defined.

(* ===================================================================== *)
(** ** The price block of the two renderers *)
(* ===================================================================== *)

Section price_block.
Context `{Host}.








End price_block.



(* ===================================================================== *)
(** ** The theme *)
(* ===================================================================== *)

Section theme.

Lemma setTheme_themed (t : string) (st : Main.theme_state) :
  themed t (Main.setTheme t st).
Proof.
  unfold themed, Main.setTheme. cbn. by rewrite lookup_insert_eq.
Qed.

(** The invariant: the attribute, the stored item and the button agree on
    a theme that is [light] or [dark]. *)
Lemma reachable_themed (st : Main.theme_state) :
  reachable st → themed "light" st ∨ themed "dark" st.
Proof.
  induction 1 as [st0 Hnone | st _ IH | st st0 _ IH Hsame].
  - left. unfold Main.initTheme. rewrite Hnone. apply setTheme_themed.
  - unfold Main.toggleTheme.
    destruct IH as [(Ha & _) | (Ha & _)]; rewrite Ha; cbn;
      [right | left]; apply setTheme_themed.
  - unfold Main.initTheme. rewrite Hsame.
    destruct IH as [(_ & Hs & _) | (_ & Hs & _)]; rewrite Hs; cbn;
      [left | right]; apply setTheme_themed.
Qed.

Lemma theme_state_eq (st st' : Main.theme_state) :
  Main.data_theme st = Main.data_theme st' →
  Main.localStorage st = Main.localStorage st' →
  Main.toggle_text st = Main.toggle_text st' →
  st = st'.
Proof. destruct st, st'. cbn. by intros -> -> ->. Qed.

Lemma toggle_light (st : Main.theme_state) :
  themed "light" st →
  themed "dark" (Main.toggleTheme st)
  ∧ Main.localStorage (Main.toggleTheme st)
    = <["theme" := "dark"]> (Main.localStorage st).
Proof.
  intros (Ha & _). unfold Main.toggleTheme. rewrite Ha.
  split; [apply setTheme_themed | done].
Qed.

Lemma toggle_dark (st : Main.theme_state) :
  themed "dark" st →
  themed "light" (Main.toggleTheme st)
  ∧ Main.localStorage (Main.toggleTheme st)
    = <["theme" := "light"]> (Main.localStorage st).
Proof.
  intros (Ha & _). unfold Main.toggleTheme. rewrite Ha.
  split; [apply setTheme_themed | done].
Qed.

(** C8: in every state that the page reaches, two clicks on the toggle
    leave the stored theme, and the whole state of the theme, as they
    were.  A page with no stored theme starts in [light] and stores it,
    one click then makes the theme [dark], and every call of [toggleTheme]
    writes the new theme to the storage. *)
Theorem toggleTheme_twice (st : Main.theme_state) :
  reachable st →
  Main.localStorage (Main.toggleTheme (Main.toggleTheme st)) !! "theme"
  = Main.localStorage st !! "theme"
  ∧ Main.toggleTheme (Main.toggleTheme st) = st
  ∧ (∀ st0, Main.localStorage st0 !! "theme" = None →
       Main.data_theme (Main.initTheme st0) = Some "light"
       ∧ Main.localStorage (Main.initTheme st0) !! "theme" = Some "light"
       ∧ Main.data_theme (Main.toggleTheme (Main.initTheme st0)) = Some "dark"
       ∧ Main.localStorage (Main.toggleTheme (Main.initTheme st0)) !! "theme"
         = Some "dark")
  ∧ (∀ st1, ∃ t,
       Main.data_theme (Main.toggleTheme st1) = Some t
       ∧ Main.localStorage (Main.toggleTheme st1)
         = <["theme" := t]> (Main.localStorage st1)).
Proof.
  intros Hreach.
  assert (Htwice : Main.toggleTheme (Main.toggleTheme st) = st).
  { destruct (reachable_themed st Hreach) as [Hst | Hst].
    - destruct (toggle_light st Hst) as [H1 Hs1].
      destruct (toggle_dark _ H1) as [H2 Hs2].
      destruct Hst as (Ha & Hs & Ht), H2 as (Ha2 & _ & Ht2).
      apply theme_state_eq; [congruence | | congruence].
      rewrite Hs2, Hs1, insert_insert_eq. by apply insert_id.
    - destruct (toggle_dark st Hst) as [H1 Hs1].
      destruct (toggle_light _ H1) as [H2 Hs2].
      destruct Hst as (Ha & Hs & Ht), H2 as (Ha2 & _ & Ht2).
      apply theme_state_eq; [congruence | | congruence].
      rewrite Hs2, Hs1, insert_insert_eq. by apply insert_id. }
  split; [by rewrite Htwice |]. split; [exact Htwice |]. split.
  - intros st0 Hnone. unfold Main.toggleTheme, Main.initTheme. rewrite Hnone.
    cbn. by rewrite !lookup_insert_eq.
  - intros st1. unfold Main.toggleTheme. by eexists.
Qed.

(** The detail page keeps the same theme in the same way. *)
Lemma product_toggleTheme_twice (t : string) (st : Product.theme_state) :
  t = "light" ∨ t = "dark" →
  Product.data_theme st = Some t →
  Product.localStorage st !! "theme" = Some t →
  Product.localStorage (Product.toggleTheme (Product.toggleTheme st))
  = Product.localStorage st
  ∧ Product.data_theme (Product.toggleTheme (Product.toggleTheme st)) = Some t.
Proof.
  intros Ht Ha Hs. unfold Product.toggleTheme, Product.setTheme. cbn.
  rewrite Ha.
  destruct Ht as [-> | ->]; cbn; rewrite insert_insert_eq;
    (split; [by apply insert_id | done]).
Qed.

End theme.

Lemma toggleTheme_twice_witness :
  reachable (Main.toggleTheme (Main.initTheme fresh_theme))
  ∧ Main.localStorage
      (Main.toggleTheme (Main.toggleTheme (Main.toggleTheme (Main.initTheme fresh_theme))))
    !! "theme" = Some "dark".
Proof.
  assert (Hreach : reachable (Main.toggleTheme (Main.initTheme fresh_theme))).
  { apply reach_toggle, reach_first_load. reflexivity. }
  split; [exact Hreach |].
  destruct (toggleTheme_twice _ Hreach) as (Hstored & _).
  rewrite Hstored. reflexivity.
Defined.

(* ===================================================================== *)
(** ** The stable sort *)
(* ===================================================================== *)

Section array_sort.
Context {A : Type} (comparefn : A → A → float).

Lemma sort_insert_perm (x : A) (l : list A) :
  sort_insert comparefn x l ≡ₚ x :: l.
Proof.
  induction l as [|y l IH]; cbn [sort_insert]; [done |].
  destruct (sort_gt comparefn x y); [| done].
  rewrite IH. apply Permutation_swap.
Qed.

Lemma Array_sort_perm (l : list A) : Array_sort comparefn l ≡ₚ l.
Proof.
  induction l as [|x l IH]; cbn [Array_sort foldr]; [done |].
  fold (Array_sort comparefn l). by rewrite sort_insert_perm, IH.
Qed.

(** The elements in [S] are ranked: [comparefn a b] is above zero exactly
    when the rank of [a] is above the rank of [b]. *)
Context (S : A → Prop) (rank : A → Z).
Hypothesis gt_rank :
  ∀ a b, S a → S b → sort_gt comparefn a b = (rank b <? rank a).

Lemma Array_sort_Forall (l : list A) : Forall S l → Forall S (Array_sort comparefn l).
Proof. intros Hl. by rewrite Array_sort_perm. Qed.

Lemma sort_insert_sorted (x : A) (l : list A) :
  S x → Forall S l →
  StronglySorted (λ a b, rank a ≤ rank b) l →
  StronglySorted (λ a b, rank a ≤ rank b) (sort_insert comparefn x l).
Proof.
  intros Hx Hl Hsorted. induction l as [|y l IH]; cbn [sort_insert].
  - repeat constructor.
  - apply Forall_cons in Hl as [Hy Hl].
    apply StronglySorted_cons in Hsorted as [Hall Hsorted].
    rewrite (gt_rank x y Hx Hy).
    destruct (Z.ltb_spec (rank y) (rank x)) as [Hlt | Hle].
    + apply StronglySorted_cons. split; [| by apply IH].
      rewrite sort_insert_perm. constructor; [lia | done].
    + apply StronglySorted_cons. split.
      * constructor; [done |]. eapply Forall_impl; [exact Hall |].
        cbn. intros z Hz. lia.
      * by apply StronglySorted_cons.
Qed.

Lemma Array_sort_sorted (l : list A) :
  Forall S l →
  StronglySorted (λ a b, rank a ≤ rank b) (Array_sort comparefn l).
Proof.
  induction l as [|x l IH]; intros Hl; cbn [Array_sort foldr]; [constructor |].
  apply Forall_cons in Hl as [Hx Hl]. fold (Array_sort comparefn l).
  apply sort_insert_sorted; [done | by apply Array_sort_Forall | by apply IH].
Qed.

Lemma sort_insert_filter (k : Z) (x : A) (l : list A) :
  S x → Forall S l →
  List.filter (λ a, rank a =? k) (sort_insert comparefn x l)
  = List.filter (λ a, rank a =? k) (x :: l).
Proof.
  intros Hx Hl. induction l as [|y l IH]; [done |].
  apply Forall_cons in Hl as [Hy Hl]. cbn [sort_insert].
  rewrite (gt_rank x y Hx Hy).
  destruct (Z.ltb_spec (rank y) (rank x)) as [Hlt | Hle]; [| done].
  cbn [List.filter]. rewrite (IH Hl). cbn [List.filter].
  destruct (Z.eqb_spec (rank x) k), (Z.eqb_spec (rank y) k); try done; lia.
Qed.

(** The sort is stable: the elements of one rank stay in their order. *)
Lemma Array_sort_stable (k : Z) (l : list A) :
  Forall S l →
  List.filter (λ a, rank a =? k) (Array_sort comparefn l)
  = List.filter (λ a, rank a =? k) l.
Proof.
  induction l as [|x l IH]; intros Hl; [done |].
  apply Forall_cons in Hl as [Hx Hl].
  cbn [Array_sort foldr]. fold (Array_sort comparefn l).
  rewrite sort_insert_filter by (try done; by apply Array_sort_Forall).
  cbn [List.filter]. by rewrite (IH Hl).
Qed.

(** A sorted array is left as it is. *)
Lemma Array_sort_sorted_id (l : list A) :
  Forall S l → StronglySorted (λ a b, rank a ≤ rank b) l →
  Array_sort comparefn l = l.
Proof.
  induction l as [|x l IH]; intros Hl Hsorted; [done |].
  apply Forall_cons in Hl as [Hx Hl].
  apply StronglySorted_cons in Hsorted as [Hall Hsorted].
  cbn [Array_sort foldr]. fold (Array_sort comparefn l). rewrite (IH Hl Hsorted).
  destruct l as [|y l]; [done |].
  apply Forall_cons in Hl as [Hy _]. apply Forall_cons in Hall as [Hxy _].
  cbn [sort_insert]. rewrite (gt_rank x y Hx Hy).
  by destruct (Z.ltb_spec (rank y) (rank x)); [lia |].
Qed.

Lemma Array_sort_idempotent (l : list A) :
  Forall S l →
  Array_sort comparefn (Array_sort comparefn l) = Array_sort comparefn l.
Proof.
  intros Hl. apply Array_sort_sorted_id;
    [by apply Array_sort_Forall | by apply Array_sort_sorted].
Qed.

(** The order and the stability leave one arrangement: every stable sort
    returns what [Array_sort] returns. *)
Lemma stable_sorted_unique (l1 l2 : list A) :
  StronglySorted (λ a b, rank a ≤ rank b) l1 →
  StronglySorted (λ a b, rank a ≤ rank b) l2 →
  (∀ k, List.filter (λ a, rank a =? k) l1 = List.filter (λ a, rank a =? k) l2) →
  l1 = l2.
Proof.
  revert l2. induction l1 as [|x l1 IH]; intros l2 H1 H2 Hsame.
  - destruct l2 as [|y l2]; [done |].
    specialize (Hsame (rank y)). cbn in Hsame. by rewrite Z.eqb_refl in Hsame.
  - destruct l2 as [|y l2].
    { specialize (Hsame (rank x)). cbn in Hsame. by rewrite Z.eqb_refl in Hsame. }
    apply StronglySorted_cons in H1 as [Hx H1].
    apply StronglySorted_cons in H2 as [Hy H2].
    rewrite Forall_forall in Hx, Hy.
    assert (Hxy : rank y ≤ rank x).
    { assert (Hin : In x (List.filter (λ a, rank a =? rank x) (y :: l2))).
      { rewrite <- Hsame. cbn. rewrite Z.eqb_refl. by left. }
      apply filter_In in Hin as [[-> | Hin] _]; [lia |].
      apply Hy. by apply list_elem_of_In. }
    assert (Hyx : rank x ≤ rank y).
    { assert (Hin : In y (List.filter (λ a, rank a =? rank y) (x :: l1))).
      { rewrite Hsame. cbn. rewrite Z.eqb_refl. by left. }
      apply filter_In in Hin as [[-> | Hin] _]; [lia |].
      apply Hx. by apply list_elem_of_In. }
    pose proof (Hsame (rank x)) as Hhead. cbn in Hhead.
    rewrite Z.eqb_refl in Hhead.
    replace (rank y =? rank x) with true in Hhead by (symmetry; apply Z.eqb_eq; lia).
    injection Hhead as <- Hrest. f_equal. apply IH; [done | done |].
    intros k. specialize (Hsame k). cbn in Hsame.
    destruct (rank x =? k); [by injection Hsame | done].
Qed.

Lemma Array_sort_unique (l l' : list A) :
  Forall S l →
  StronglySorted (λ a b, rank a ≤ rank b) l' →
  (∀ k, List.filter (λ a, rank a =? k) l' = List.filter (λ a, rank a =? k) l) →
  l' = Array_sort comparefn l.
Proof.
  intros Hl Hsorted Hstable. apply stable_sorted_unique; [done | |].
  - by apply Array_sort_sorted.
  - intros k. by rewrite Hstable, Array_sort_stable.
Qed.

End array_sort.

(* ===================================================================== *)
(** ** The list page: the four directional sort keys *)
(* ===================================================================== *)

Section directional_sort.
Context `{Host}.

Lemma sort_for_directional (key field : string) (descending : bool)
    (l : list record) :
  sort_field key = Some (field, descending) →
  sort_for key l = Array_sort (comparator field descending) l.
Proof.
  unfold sort_field, sort_for.
  repeat match goal with
         | |- context [String.eqb key ?k] => destruct (String.eqb key k)
         end; intros Hkey; try discriminate; injection Hkey as <- <-; reflexivity.
Qed.

Lemma comparator_rank (field : string) (descending : bool) (a b : record) :
  numeric field a → numeric field b →
  sort_gt (comparator field descending) a b
  = (rank_of field descending b <? rank_of field descending a).
Proof.
  intros Ha Hb. unfold sort_gt, comparator, rank_of.
  destruct descending; rewrite sub_positive by done.
  - destruct (Z.ltb_spec (fkey (number_of field a)) (fkey (number_of field b))),
      (Z.ltb_spec (- fkey (number_of field b)) (- fkey (number_of field a)));
      try done; lia.
  - reflexivity.
Qed.

Lemma in_order_rank (field : string) (descending : bool) (a b : record) :
  numeric field a → numeric field b →
  rank_of field descending a ≤ rank_of field descending b →
  in_order descending (number_of field a) (number_of field b) = true.
Proof.
  intros Ha Hb. unfold in_order, rank_of.
  destruct descending; rewrite leb_fkey by done; intros Hle;
    apply Z.leb_le; lia.
Qed.

Lemma StronglySorted_Forall_impl {A} (S : A → Prop) (R R' : A → A → Prop)
    (l : list A) :
  (∀ a b, S a → S b → R a b → R' a b) →
  Forall S l → StronglySorted R l → StronglySorted R' l.
Proof.
  intros Himpl. induction l as [|x l IH]; intros Hl Hsorted; [constructor |].
  apply Forall_cons in Hl as [Hx Hl].
  apply StronglySorted_cons in Hsorted as [Hall Hsorted].
  apply StronglySorted_cons. split; [| by apply IH].
  rewrite Forall_forall in *. intros y Hy. apply Himpl; auto.
Qed.

Lemma filter_ext_Forall {A} (S : A → Prop) (f g : A → bool) (l : list A) :
  (∀ a, S a → f a = g a) → Forall S l → List.filter f l = List.filter g l.
Proof.
  intros Hfg. induction 1 as [|x l Hx Hl IH]; [done |].
  cbn. by rewrite (Hfg x Hx), IH.
Qed.

Lemma filter_Forall {A} (f : A → bool) (l : list A) :
  Forall (λ x, f x = true) (List.filter f l).
Proof.
  induction l as [|x l IH]; cbn; [constructor |].
  destruct (f x) eqn:Hx; [by constructor | done].
Qed.

Lemma filter_id {A} (f : A → bool) (l : list A) :
  Forall (λ x, f x = true) l → List.filter f l = l.
Proof.
  induction 1 as [|x l Hx Hl IH]; [done |]. cbn. by rewrite Hx, IH.
Qed.

(** C6: with a directional sort key, and records whose sort field
    converts to a number, [applyFilters] shows the filtered records
    rearranged in the order of that number, ascending or descending;
    records with equal numbers stay in the order they have in [products];
    and sorting the output again with the same key, or deriving the view
    again from the output, returns the output. *)
Theorem directional_sort_stable (st : Main.page) (key field : string)
    (descending : bool) :
  sort_field key = Some (field, descending) →
  let filtered := List.filter (Main.matches (Main.query st)) (all_records st) in
  Forall (numeric field) filtered →
  let out := rendered (Main.applyFilters (Main.set_sort_value key st)) in
  out ≡ₚ filtered
  ∧ StronglySorted
      (λ a b, in_order descending (number_of field a) (number_of field b) = true)
      out
  ∧ (∀ x, PrimFloat.is_nan x = false →
       List.filter (λ r, (number_of field r =? x)%float) out
       = List.filter (λ r, (number_of field r =? x)%float) filtered)
  ∧ sort_for key out = out
  ∧ derive out (Main.query st) key = out.
Proof.
  intros Hkey filtered Hnum out.
  assert (Hout : out = Array_sort (comparator field descending) filtered).
  { unfold out. destruct (applyFilters_spec (Main.set_sort_value key st)) as [-> _].
    unfold derive. cbn [Main.sort_value Main.set_sort_value].
    by apply sort_for_directional. }
  pose proof (comparator_rank field descending) as Hrank.
  assert (Hnum_out : Forall (numeric field) out).
  { rewrite Hout. by apply Array_sort_Forall. }
  assert (Hidem : sort_for key out = out).
  { rewrite (sort_for_directional key field descending) by done.
    rewrite Hout. by apply (Array_sort_idempotent _ (numeric field) _ Hrank). }
  split; [rewrite Hout; apply Array_sort_perm |].
  split; [| split; [| split; [done |]]].
  - apply (StronglySorted_Forall_impl (numeric field)
             (λ a b, rank_of field descending a ≤ rank_of field descending b));
      [intros a b; apply in_order_rank | done |].
    rewrite Hout. by apply (Array_sort_sorted _ (numeric field) _ Hrank).
  - intros x Hx.
    set (k := if descending then - fkey x else fkey x).
    assert (Hfilter : ∀ r, numeric field r →
              (number_of field r =? x)%float = (rank_of field descending r =? k)).
    { intros r Hr. rewrite eqb_fkey by done. unfold rank_of, k.
      destruct descending; [| done].
      destruct (Z.eqb_spec (fkey (number_of field r)) (fkey x)),
        (Z.eqb_spec (- fkey (number_of field r)) (- fkey x)); try done; lia. }
    rewrite (filter_ext_Forall _ _ _ out Hfilter Hnum_out).
    rewrite (filter_ext_Forall _ _ _ filtered Hfilter Hnum).
    rewrite Hout. by apply (Array_sort_stable _ (numeric field) _ Hrank).
  - unfold derive. rewrite filter_id; [exact Hidem |].
    rewrite Hout, Array_sort_perm. apply filter_Forall.
Qed.

End directional_sort.

(** C6 as it is stated fails at the records [three], [unpriced], [one]:
    the price that is missing converts to [NaN], every difference with it
    is [NaN], which [sort] takes for a tie, and with [price-asc] the page
    shows the records as they were, the price 3 before the price 1. *)
Lemma price_sort_with_missing_price :
  let out :=
    rendered
      (@Main.applyFilters latin_host
         (Main.set_sort_value "price-asc"
            (page_of [three; unpriced; one] "" "relevance"))) in
  sort_field "price-asc" = Some ("price", false)
  ∧ PrimFloat.is_nan (number_of "price" unpriced) = true
  ∧ out = [three; unpriced; one]
  ∧ in_order false (number_of "price" three) (number_of "price" one) = false
  ∧ ¬ StronglySorted
        (λ a b, in_order false (number_of "price" a) (number_of "price" b) = true)
        out.
Proof.
  cbn zeta.
  assert (Hout : rendered
                   (@Main.applyFilters latin_host
                      (Main.set_sort_value "price-asc"
                         (page_of [three; unpriced; one] "" "relevance")))
                 = [three; unpriced; one]) by (vm_compute; reflexivity).
  split; [reflexivity |]. split; [vm_compute; reflexivity |].
  split; [exact Hout |]. split; [vm_compute; reflexivity |].
  rewrite Hout. intros Hsorted.
  apply StronglySorted_inv in Hsorted as [_ Hall].
  apply Forall_inv_tail, Forall_inv in Hall. discriminate Hall.
Qed.

Lemma directional_sort_stable_witness :
  let st := page_of [box; tray; same_price; roll] "" "relevance" in
  let up :=
    rendered (@Main.applyFilters latin_host (Main.set_sort_value "price-asc" st)) in
  let down :=
    rendered (@Main.applyFilters latin_host (Main.set_sort_value "price-desc" st)) in
  Forall (numeric "price") [box; tray; same_price; roll]
  ∧ number_of "price" tray = number_of "price" same_price
  ∧ up = [roll; tray; same_price; box]
  ∧ down = [box; tray; same_price; roll]
  ∧ List.filter (λ r, (number_of "price" r =? 500)%float) down = [tray; same_price]
  ∧ sort_for "price-desc" down = down.
Proof.
  assert (Hkey : sort_field "price-desc" = Some ("price", true)) by reflexivity.
  assert (Hnum : Forall (numeric "price") [box; tray; same_price; roll])
    by (repeat constructor).
  destruct (@directional_sort_stable latin_host
              (page_of [box; tray; same_price; roll] "" "relevance")
              "price-desc" "price" true Hkey Hnum) as (_ & _ & Htie & Hidem & _).
  cbn zeta. split; [exact Hnum |]. split; [vm_compute; reflexivity |].
  split; [vm_compute; reflexivity |]. split; [vm_compute; reflexivity |].
  split; [| exact Hidem].
  rewrite (Htie 500%float eq_refl). vm_compute. reflexivity.
Defined.

(* ===================================================================== *)
(** ** Escaping: the round trip *)
(* ===================================================================== *)

Section escape_facts.

Lemma escape_string_char (c : ascii) :
  escape_string (String c "") = escape_char c.
Proof. by destruct c as [[] [] [] [] [] [] [] []]. Qed.

Lemma escape_string_step (c : ascii) (s : string) :
  escape_string (String c s) = escape_char c +:+ escape_string s.
Proof. by rewrite escape_string_cons, escape_string_char. Qed.

Lemma escape_char_cases (c : ascii) :
  (is_escaped_char c = false ∧ escape_char c = String c "")
  ∨ (is_escaped_char c = true
     ∧ ∃ r, (r, c) ∈ references ∧ escape_char c = r).
Proof.
  unfold is_escaped_char, escape_char.
  destruct (Ascii.eqb_spec c "&") as [-> | _];
    [right; split; [done |]; eexists; split; [| done];
       apply list_elem_of_In; simpl; tauto |].
  destruct (Ascii.eqb_spec c "<") as [-> | _];
    [right; split; [done |]; eexists; split; [| done];
       apply list_elem_of_In; simpl; tauto |].
  destruct (Ascii.eqb_spec c ">") as [-> | _];
    [right; split; [done |]; eexists; split; [| done];
       apply list_elem_of_In; simpl; tauto |].
  destruct (Ascii.eqb_spec c (ascii_of_nat 34)) as [-> | _];
    [right; split; [done |]; eexists; split; [| done];
       apply list_elem_of_In; simpl; tauto |].
  destruct (Ascii.eqb_spec c "'") as [-> | _];
    [right; split; [done |]; eexists; split; [| done];
       apply list_elem_of_In; simpl; tauto |].
  by left.
Qed.

Lemma read_reference_escaped (c : ascii) (rest : string) :
  is_escaped_char c = true →
  read_reference references (escape_char c +:+ rest) = Some (c, rest).
Proof.
  unfold is_escaped_char, escape_char.
  destruct (Ascii.eqb_spec c "&") as [-> | _]; [done |].
  destruct (Ascii.eqb_spec c "<") as [-> | _]; [done |].
  destruct (Ascii.eqb_spec c ">") as [-> | _]; [done |].
  destruct (Ascii.eqb_spec c (ascii_of_nat 34)) as [-> | _]; [done |].
  destruct (Ascii.eqb_spec c "'") as [-> | _]; [done |].
  done.
Qed.

Lemma read_reference_plain (c : ascii) (rest : string) :
  is_escaped_char c = false →
  read_reference references (String c rest) = None.
Proof.
  unfold is_escaped_char. intros Hc.
  apply orb_false_iff in Hc as [Hc _]. apply orb_false_iff in Hc as [Hc _].
  apply orb_false_iff in Hc as [Hc _]. apply orb_false_iff in Hc as [Hc _].
  unfold references. cbn [read_reference JS.drop_prefix].
  rewrite Ascii.eqb_sym in Hc. by rewrite Hc.
Qed.

Lemma escape_char_length (c : ascii) :
  (1 ≤ String.length (escape_char c))%nat
  ∧ (is_escaped_char c = true → (1 < String.length (escape_char c))%nat).
Proof.
  destruct (escape_char_cases c) as [[Hc ->] | [Hc (r & Hr & ->)]].
  - split; [done | by rewrite Hc].
  - apply list_elem_of_In in Hr. simpl in Hr.
    repeat (destruct Hr as [Hr | Hr]; [injection Hr as <- <-; cbn; lia |]).
    done.
Qed.

Lemma decode_escape (s : string) (fuel : nat) :
  (String.length (escape_string s) ≤ fuel)%nat →
  decode_references fuel (escape_string s) = s.
Proof.
  revert fuel. induction s as [|c s IH]; intros fuel Hfuel.
  - by destruct fuel.
  - rewrite escape_string_step in *. rewrite append_length in Hfuel.
    destruct (escape_char_length c) as [Hlen _].
    destruct fuel as [|fuel]; [lia |]. cbn [decode_references].
    destruct (is_escaped_char c) eqn:Hc.
    + rewrite read_reference_escaped by done. f_equal. apply IH. lia.
    + destruct (escape_char_cases c) as [[_ Hesc] | [Hc' _]]; [| congruence].
      rewrite Hesc in *.
      change (String c "" +:+ escape_string s) with (String c (escape_string s)) in *.
      rewrite read_reference_plain by done.
      f_equal. apply IH. cbn in Hfuel. lia.
Qed.

Lemma escape_plain (s : string) : plain s = true → escape_string s = s.
Proof.
  induction s as [|c s IH]; [done |]. cbn [plain]. intros Hs.
  apply andb_true_iff in Hs as [Hc Hs]. apply negb_true_iff in Hc.
  rewrite escape_string_step, (IH Hs).
  destruct (escape_char_cases c) as [[_ ->] | [Hc' _]]; [done | congruence].
Qed.

Lemma escape_length (s : string) :
  (String.length s ≤ String.length (escape_string s))%nat
  ∧ (plain s = false → (String.length s < String.length (escape_string s))%nat).
Proof.
  induction s as [|c s [IH1 IH2]]; [done |].
  rewrite escape_string_step, append_length. cbn [String.length plain].
  destruct (escape_char_length c) as [H1 H2].
  split; [lia |]. intros Hs. apply andb_false_iff in Hs as [Hc | Hs].
  - apply negb_false_iff in Hc. specialize (H2 Hc). lia.
  - specialize (IH2 Hs). lia.
Qed.

Lemma plain_app (a b : string) : plain (a +:+ b) = plain a && plain b.
Proof. induction a; simpl; [done | by rewrite IHa, andb_assoc]. Qed.

Lemma escape_not_plain (s : string) :
  plain s = false → plain (escape_string s) = false.
Proof.
  induction s as [|c s IH]; [done |]. cbn [plain]. intros Hs.
  rewrite escape_string_step, plain_app.
  apply andb_false_iff in Hs as [Hc | Hs].
  - apply negb_false_iff in Hc.
    destruct (escape_char_cases c) as [[Hc' _] | [_ (r & Hr & ->)]]; [congruence |].
    apply list_elem_of_In in Hr. simpl in Hr.
    repeat (destruct Hr as [Hr | Hr]; [by injection Hr as <- <- |]). done.
  - by rewrite (IH Hs), andb_false_r.
Qed.

End escape_facts.

(** X1: [escapeHtml] loses nothing and lets no markup through: its result
    has none of the characters that open or close a tag or an attribute
    value, replacing each of the five references in it by the character
    that it stands for gives back the string of the value (the empty
    string for [null] and [undefined]), and two different strings never
    get the same escaped form. *)
Theorem escapeHtml_round_trip (v : value) :
  free_of_markup (Product.escapeHtml v) = true
  ∧ unescape (Product.escapeHtml v)
    = match v with
      | Null | Undefined => ""
      | _ => ToString v
      end
  ∧ (∀ a b, Product.escapeHtml (Str a) = Product.escapeHtml (Str b) → a = b).
Proof.
  split; [apply escapeHtml_free_of_markup |]. split.
  - unfold unescape.
    destruct v; try done; by apply decode_escape.
  - intros a b Hab.
    rewrite <- (decode_escape a (String.length (escape_string a))) by done.
    rewrite <- (decode_escape b (String.length (escape_string a))).
    + unfold Product.escapeHtml in Hab. cbn in Hab. unfold escape_string.
      by rewrite Hab.
    + unfold Product.escapeHtml in Hab. cbn in Hab. unfold escape_string.
      by rewrite Hab.
Qed.

(** X2: [escapeHtml] is not idempotent: it leaves a string as it is exactly
    when the string has none of the five characters that it replaces, and
    escaping an escaped string changes it again exactly when the string
    has one of them, so a text that is escaped twice shows its references. *)
Theorem escapeHtml_twice (s : string) :
  (Product.escapeHtml (Str s) = s ↔ plain s = true)
  ∧ (Product.escapeHtml (Str (Product.escapeHtml (Str s)))
     = Product.escapeHtml (Str s) ↔ plain s = true).
Proof.
  change (Product.escapeHtml (Str s)) with (escape_string s).
  change (Product.escapeHtml (Str (escape_string s)))
    with (escape_string (escape_string s)).
  split; split.
  - intros Heq. destruct (plain s) eqn:Hs; [done |].
    destruct (escape_length s) as [_ Hlt]. specialize (Hlt Hs).
    rewrite Heq in Hlt. lia.
  - apply escape_plain.
  - intros Heq. destruct (plain s) eqn:Hs; [done |].
    pose proof (escape_not_plain s Hs) as Hs'.
    destruct (escape_length (escape_string s)) as [_ Hlt]. specialize (Hlt Hs').
    rewrite Heq in Hlt. lia.
  - intros Hs. by rewrite (escape_plain s Hs), (escape_plain s Hs).
Qed.

(* ===================================================================== *)
(** ** The links: the enquiry, and from a card to its record *)
(* ===================================================================== *)

Section uri_facts.

Lemma encodeURIComponent_step (c : ascii) (s : string) :
  JS.encodeURIComponent (String c s) = encode_byte c +:+ JS.encodeURIComponent s.
Proof. reflexivity. Qed.

Lemma every_app (P : ascii → bool) (a b : string) :
  JS.every P (a +:+ b) = JS.every P a && JS.every P b.
Proof. induction a; simpl; [done | by rewrite IHa, andb_assoc]. Qed.

Lemma encode_byte_component (c : ascii) : uri_component (encode_byte c) = true.
Proof. destruct c as [[] [] [] [] [] [] [] []]; vm_compute; reflexivity. Qed.

Lemma percent_decode_byte (c : ascii) (rest : string) :
  JS.percent_decode (encode_byte c +:+ rest) = String c (JS.percent_decode rest).
Proof. destruct c as [[] [] [] [] [] [] [] []]; reflexivity. Qed.

Lemma encodeURIComponent_component (s : string) :
  uri_component (JS.encodeURIComponent s) = true.
Proof.
  unfold uri_component. induction s as [|c s IH]; [done |].
  rewrite encodeURIComponent_step, every_app, IH, andb_true_r.
  apply encode_byte_component.
Qed.

Lemma percent_decode_encode (s : string) :
  JS.percent_decode (JS.encodeURIComponent s) = s.
Proof.
  induction s as [|c s IH]; [done |].
  by rewrite encodeURIComponent_step, percent_decode_byte, IH.
Qed.

End uri_facts.

(** X3: On both pages the WhatsApp link is the address of the merchant's chat
    followed by one URI component: the text after [text=] has only
    unreserved characters and percent escapes, and percent-decoding it
    gives back the message with the name, the id and the address of the
    product, whatever these contain. *)
Theorem makeWhatsAppLink_encoded (origin href : string) (p : record) :
  (∃ text,
     Main.makeWhatsAppLink origin p = "https://wa.me/916353288843?text=" +:+ text
     ∧ uri_component text = true
     ∧ JS.percent_decode text
       = enquiry p (origin +:+ "/product.html?id=" +:+ ToString (get p "id")))
  ∧ (∃ text,
       Product.makeWhatsAppLink href p = "https://wa.me/916353288843?text=" +:+ text
       ∧ uri_component text = true
       ∧ JS.percent_decode text = enquiry p href).
Proof.
  split; eexists; (split; [reflexivity |]);
    (split; [apply encodeURIComponent_component | apply percent_decode_encode]).
Qed.

Section url_facts.

Lemma drop_trailing_none (P : ascii → bool) (s : string) :
  JS.every (λ c, negb (P c)) s = true → JS.drop_trailing P s = s.
Proof.
  induction s as [|c s IH]; [done |]. cbn [JS.every JS.drop_trailing].
  intros Hs. apply andb_true_iff in Hs as [Hc Hs]. rewrite (IH Hs).
  apply negb_true_iff in Hc. rewrite Hc. by destruct s.
Qed.

Lemma remove_none (P : ascii → bool) (s : string) :
  JS.every (λ c, negb (P c)) s = true → JS.remove P s = s.
Proof.
  induction s as [|c s IH]; [done |]. cbn [JS.every JS.remove].
  intros Hs. apply andb_true_iff in Hs as [Hc Hs]. rewrite (IH Hs).
  apply negb_true_iff in Hc. by rewrite Hc.
Qed.

Lemma break_at_none (P : ascii → bool) (s : string) :
  JS.every (λ c, negb (P c)) s = true → JS.break_at P s = (s, "").
Proof.
  induction s as [|c s IH]; [done |]. cbn [JS.every JS.break_at].
  intros Hs. apply andb_true_iff in Hs as [Hc Hs]. rewrite (IH Hs).
  apply negb_true_iff in Hc. by rewrite Hc.
Qed.

Lemma split_on_none (sep : ascii) (s : string) :
  JS.every (λ c, negb (Ascii.eqb c sep)) s = true → JS.split_on sep s = [s].
Proof.
  induction s as [|c s IH]; [done |]. cbn [JS.every JS.split_on].
  intros Hs. apply andb_true_iff in Hs as [Hc Hs]. rewrite (IH Hs).
  apply negb_true_iff in Hc. by rewrite Hc.
Qed.

Lemma plus_none (s : string) :
  JS.every (λ c, negb (Ascii.eqb c "+")) s = true →
  string_of_list_ascii
    (map (λ c, if Ascii.eqb c "+" then " "%char else c) (list_ascii_of_string s))
  = s.
Proof.
  induction s as [|c s IH]; [done |]. cbn [JS.every].
  intros Hs. apply andb_true_iff in Hs as [Hc Hs].
  apply negb_true_iff in Hc. cbn. by rewrite Hc, (IH Hs).
Qed.

Lemma query_encode_app (a b : string) :
  JS.query_encode (a +:+ b) = JS.query_encode a +:+ JS.query_encode b.
Proof.
  induction a as [|c a IH]; [done |].
  change (String c a +:+ b) with (String c (a +:+ b)).
  cbn [JS.query_encode]. by rewrite IH, append_assoc.
Qed.

(** What a byte of the id is in [location.search]. *)
Lemma link_byte_decode (c : ascii) (rest : string) :
  JS.percent_decode (JS.query_encode (encode_byte c) +:+ rest)
  = String c (JS.percent_decode rest).
Proof. destruct c as [[] [] [] [] [] [] [] []]; reflexivity. Qed.

Lemma encode_byte_plain (c : ascii) :
  JS.every plain_in_url (encode_byte c) = true
  ∧ JS.every plain_in_url (JS.query_encode (encode_byte c)) = true.
Proof. destruct c as [[] [] [] [] [] [] [] []]; split; vm_compute; reflexivity. Qed.

Lemma encodeURIComponent_plain (s : string) :
  JS.every plain_in_url (JS.encodeURIComponent s) = true
  ∧ JS.every plain_in_url (JS.query_encode (JS.encodeURIComponent s)) = true.
Proof.
  induction s as [|c s [IH1 IH2]]; [done |].
  rewrite encodeURIComponent_step, query_encode_app, !every_app.
  destruct (encode_byte_plain c) as [-> ->]. by rewrite IH1, IH2.
Qed.

Lemma link_decode (s : string) :
  JS.percent_decode (JS.query_encode (JS.encodeURIComponent s)) = s.
Proof.
  induction s as [|c s IH]; [done |].
  by rewrite encodeURIComponent_step, query_encode_app, link_byte_decode, IH.
Qed.

Lemma every_impl (P Q : ascii → bool) (s : string) :
  (∀ c, P c = true → Q c = true) → JS.every P s = true → JS.every Q s = true.
Proof.
  intros HPQ. induction s as [|c s IH]; [done |]. cbn [JS.every].
  intros Hs. apply andb_true_iff in Hs as [Hc Hs]. by rewrite (HPQ c Hc), IH.
Qed.

Ltac plain_part :=
  apply (every_impl plain_in_url); [| done];
  let c := fresh "c" in
  intros c; unfold plain_in_url; rewrite !andb_true_iff; tauto.

Lemma break_at_first (P : ascii → bool) (a b : string) (c : ascii) :
  JS.every (λ c, negb (P c)) a = true → P c = true →
  JS.break_at P (a +:+ String c b) = (a, String c b).
Proof.
  intros Ha Hc. induction a as [|d a IH].
  - change ("" +:+ String c b) with (String c b). cbn [JS.break_at].
    by rewrite Hc.
  - cbn [JS.every] in Ha. apply andb_true_iff in Ha as [Hd Ha].
    apply negb_true_iff in Hd.
    change (String d a +:+ String c b) with (String d (a +:+ String c b)).
    cbn [JS.break_at]. by rewrite Hd, (IH Ha).
Qed.

Lemma location_search_link (s : string) :
  JS.location_search ("product.html?id=" +:+ JS.encodeURIComponent s)
  = Some ("?id=" +:+ JS.query_encode (JS.encodeURIComponent s)).
Proof.
  destruct (encodeURIComponent_plain s) as [He _].
  set (e := JS.encodeURIComponent s) in *.
  unfold JS.location_search.
  change (JS.drop_leading JS.is_c0_or_space ("product.html?id=" +:+ e))
    with ("product.html?id=" +:+ e).
  rewrite drop_trailing_none
    by (rewrite every_app; apply andb_true_iff; split; [reflexivity | plain_part]).
  rewrite remove_none
    by (rewrite every_app; apply andb_true_iff; split; [reflexivity | plain_part]).
  change ("product.html?id=" +:+ e) with ("product.html" +:+ String "?" ("id=" +:+ e)).
  rewrite break_at_first by reflexivity.
  change (JS.every (λ c, negb (Ascii.eqb c ":")) "product.html") with true.
  cbn iota.
  rewrite break_at_none
    by (rewrite every_app; apply andb_true_iff; split; [reflexivity | plain_part]).
  change (String.eqb ("id=" +:+ e) "") with false. cbn iota.
  by rewrite query_encode_app.
Qed.

Lemma URLSearchParams_link (s : string) :
  well_formed_text s →
  JS.URLSearchParams ("?id=" +:+ JS.query_encode (JS.encodeURIComponent s))
  = [("id", s)].
Proof.
  intros Hs. destruct (encodeURIComponent_plain s) as [_ He].
  pose proof (link_decode s) as Hdec.
  set (e := JS.query_encode (JS.encodeURIComponent s)) in *.
  unfold JS.URLSearchParams.
  change (match "?id=" +:+ e with String "?" s0 => s0 | _ => "?id=" +:+ e end)
    with ("id=" +:+ e).
  rewrite split_on_none
    by (rewrite every_app; apply andb_true_iff; split; [reflexivity | plain_part]).
  cbn [omap list_omap].
  change (String.eqb ("id=" +:+ e) "") with false. cbn iota.
  change ("id=" +:+ e) with ("id" +:+ String "=" e).
  rewrite break_at_first by reflexivity.
  unfold JS.form_decode at 2. rewrite plus_none by plain_part.
  rewrite Hdec, Hs. reflexivity.
Qed.

End url_facts.

Section card_facts.
Context `{Host}.

Lemma opens_anchor_app (a b : string) :
  ends_with_lt a = false →
  opens_anchor (a +:+ b) = opens_anchor a || opens_anchor b.
Proof.
  induction a as [|c a IH]; [done |].
  change (String c a +:+ b) with (String c (a +:+ b)).
  cbn [opens_anchor]. destruct a as [|d a].
  - cbn [ends_with_lt]. intros Hc.
    change ("" +:+ b) with b. by rewrite Hc.
  - intros Hend. rewrite (IH Hend).
    change (String d a +:+ b) with (String d (a +:+ b)).
    cbn [names_anchor]. by rewrite orb_assoc.
Qed.

Lemma no_tag_inert (s : string) :
  no_tag s = true → ends_with_lt s = false ∧ opens_anchor s = false.
Proof.
  unfold no_tag. induction s as [|c s IH]; [done |].
  cbn [JS.every]. intros Hs. apply andb_true_iff in Hs as [Hc Hs].
  apply negb_true_iff in Hc. destruct (IH Hs) as [IH1 IH2].
  cbn [opens_anchor ends_with_lt]. rewrite Hc, IH2.
  split; [by destruct s | done].
Qed.

(** The markup of the [specs] element opens no [a] element when the three
    fields in it have no [<]. *)
Lemma specs_html_no_anchor (p : record) :
  plain_specs p = true → opens_anchor (Main.specs_html p) = false.
Proof.
  unfold plain_specs. cbn [forallb]. rewrite !andb_true_iff.
  intros (Hs & Hf & Hd & _).
  destruct (no_tag_inert _ Hs) as [Hs1 Hs2].
  destruct (no_tag_inert _ Hf) as [Hf1 Hf2].
  destruct (no_tag_inert _ Hd) as [Hd1 Hd2].
  unfold Main.specs_html.
  rewrite opens_anchor_app by (vm_compute; reflexivity).
  rewrite (opens_anchor_app (ToString (get p "slots"))) by exact Hs1.
  rewrite opens_anchor_app by (vm_compute; reflexivity).
  rewrite (opens_anchor_app (ToString (get p "finish"))) by exact Hf1.
  rewrite opens_anchor_app by (vm_compute; reflexivity).
  rewrite (opens_anchor_app (ToString (get p "description"))) by exact Hd1.
  rewrite Hs2, Hf2, Hd2. vm_compute. reflexivity.
Qed.

Lemma anchors_priceContent (p : record) :
  all_links
    (map anchors
       (omap (λ c, match c with
                   | CValue (Str s) => Some (Text s)
                   | CValue _ => None
                   | CNode n => Some n
                   end) (Main.priceContent p))) = Some [].
Proof. unfold Main.priceContent. by destruct (ToBoolean (get p "old_price")). Qed.

Lemma createCard_anchors (origin : string) (p : record) :
  anchors (Main.createCard origin p)
  = if opens_anchor (Main.specs_html p) then None
    else Some [detail_link p; detail_link p;
               Main.makeWhatsAppLink origin p; Main.makeEmailLink origin p].
Proof.
  unfold Main.createCard, Main.el.
  cbn [foldl String.eqb Ascii.eqb Bool.eqb anchors all_links foldr map omap
       list_omap app option_list ToString].
  rewrite anchors_priceContent.
  rewrite !lookup_insert_ne by done. rewrite !lookup_insert_eq.
  cbn [option_list app].
  destruct (opens_anchor (Main.specs_html p)); by destruct (get p "name").
Qed.

Lemma find_by_id_member (records : list record) (p : record) :
  p ∈ records →
  ∃ q, Product.find_by_id records (ToString (get p "id")) = Some q
       ∧ q ∈ records
       ∧ ToString (get q "id") = ToString (get p "id").
Proof.
  intros Hp. pose proof (find_by_id_spec records (ToString (get p "id"))) as Hspec.
  destruct (Product.find_by_id records (ToString (get p "id"))) as [q|].
  - destruct Hspec as (before & after & -> & Hq & _). exists q.
    split; [done |]. split; [| done].
    apply elem_of_app. right. by left.
  - rewrite Forall_forall in Hspec. by destruct (Hspec p Hp).
Qed.

Lemma same_id_same_record (records : list record) (p q : record) :
  NoDup ((λ x, ToString (get x "id")) <$> records) →
  p ∈ records → q ∈ records →
  ToString (get q "id") = ToString (get p "id") → q = p.
Proof.
  induction records as [|r records IH]; intros Hnd Hp Hq Hid.
  - by apply elem_of_nil in Hp.
  - cbn in Hnd. apply NoDup_cons in Hnd as [Hr Hnd].
    apply elem_of_cons in Hp as [-> | Hp]; apply elem_of_cons in Hq as [-> | Hq].
    + done.
    + destruct Hr. rewrite <- Hid.
      by apply (list_elem_of_fmap_2 (λ x, ToString (get x "id"))).
    + destruct Hr. rewrite Hid.
      by apply (list_elem_of_fmap_2 (λ x, ToString (get x "id"))).
    + by apply IH.
Qed.

End card_facts.

(** X4: When the slots, the finish and the description of a record have
    no [<], its card has four links, in document order: the link to the
    detail page twice, the WhatsApp link and the mail link; markup in
    these fields is assigned to [innerHTML] as it is and may add links of
    its own, which this count does not cover.  Following the link to the
    detail page finds the record again: for a record of the catalogue
    whose id is not empty and is well-formed text, the id comes back from
    the [URLSearchParams] of the link unchanged, and when the catalogue
    arrives in time as an array of records, the detail page shows a
    record with that id, the record of the card itself if the ids of the
    catalogue are different. *)
Theorem card_link_opens_the_record `{Host} (origin url : string)
    (records : list record) (p : record) (after : N) (res : response) :
  well_formed_text (ToString (get p "id")) →
  ToString (get p "id") ≠ "" →
  p ∈ records →
  (after < Product.FETCH_TIMEOUT)%N → ok res = true → json res = ArrayOf records →
  (plain_specs p = true →
   anchors (Main.createCard origin p)
   = Some [detail_link p; detail_link p;
           Main.makeWhatsAppLink origin p; Main.makeEmailLink origin p])
  ∧ (opens_anchor (Main.specs_html p) = true →
     anchors (Main.createCard origin p) = None)
  ∧ ∃ search q,
      JS.location_search (detail_link p) = Some search
      ∧ Product.getParam "id" (opened search url) = Some (ToString (get p "id"))
      ∧ Product.find_by_id records (ToString (get p "id")) = Some q
      ∧ ToString (get q "id") = ToString (get p "id")
      ∧ Product.detail (Product.loadAndRender (Responds after res) (opened search url))
        = Product.renderProduct url (Some q)
      ∧ (NoDup ((λ x, ToString (get x "id")) <$> records) → q = p).
Proof.
  intros Hutf Hid Hp Hafter Hok Hjson.
  split; [intros Hplain; by rewrite createCard_anchors, specs_html_no_anchor |].
  split; [intros Hopen; by rewrite createCard_anchors, Hopen |].
  destruct (find_by_id_member records p Hp) as (q & Hfind & Hq & Hsame).
  exists ("?id=" +:+ JS.query_encode (JS.encodeURIComponent (ToString (get p "id")))), q.
  assert (Hparam : Product.getParam "id"
            (opened ("?id=" +:+ JS.query_encode
                       (JS.encodeURIComponent (ToString (get p "id")))) url)
          = Some (ToString (get p "id"))).
  { unfold Product.getParam, opened. cbn [Product.params].
    by rewrite (URLSearchParams_link _ Hutf). }
  split; [apply location_search_link |]. split; [exact Hparam |].
  split; [exact Hfind |]. split; [exact Hsame |]. split.
  - unfold Product.loadAndRender. rewrite Hparam.
    destruct (String.eqb_spec (ToString (get p "id")) "") as [Hempty | _];
      [by destruct Hid |].
    unfold safeFetch. apply N.ltb_lt in Hafter. rewrite Hafter, Hok, Hjson.
    cbn [negb Product.detail Product.set_detail Product.href opened].
    by rewrite Hfind.
  - intros Hnd. by apply (same_id_same_record records).
Qed.

Lemma card_link_opens_the_record_witness :
  plain_specs roll = true
  ∧ anchors (@Main.createCard latin_host "https://shop.example" roll)
    = Some ["product.html?id=r-2"; "product.html?id=r-2";
            Main.makeWhatsAppLink "https://shop.example" roll;
            Main.makeEmailLink "https://shop.example" roll]
  ∧ Product.detail
      (@Product.loadAndRender latin_host (Responds 120 (ok_response [tray; box; roll]))
         (opened "?id=r-2" "https://shop.example/product.html?id=r-2"))
    = @Product.renderProduct latin_host "https://shop.example/product.html?id=r-2"
        (Some roll).
Proof.
  destruct (@card_link_opens_the_record latin_host "https://shop.example"
              "https://shop.example/product.html?id=r-2" [tray; box; roll] roll
              120%N (ok_response [tray; box; roll]))
    as (Hlinks & _ & search & q & Hsearch & _ & Hfind & _ & Hdetail & _).
  - reflexivity.
  - discriminate.
  - apply list_elem_of_In. simpl. tauto.
  - reflexivity.
  - reflexivity.
  - reflexivity.
  - split; [reflexivity |]. split; [exact (Hlinks eq_refl) |].
    assert (Hs : search = "?id=r-2").
    { assert (Hl : JS.location_search (detail_link roll) = Some "?id=r-2")
        by (vm_compute; reflexivity).
      rewrite Hl in Hsearch. by injection Hsearch. }
    assert (Hq : q = roll).
    { assert (Hf : @Product.find_by_id [tray; box; roll] (ToString (get roll "id"))
                   = Some roll) by (vm_compute; reflexivity).
      rewrite Hf in Hfind. by injection Hfind. }
    rewrite Hs, Hq in Hdetail. exact Hdetail.
Defined.

(** The card of [linked] has a link in its description: its links are
    not counted. *)
Example linked_card_is_not_counted :
  plain_specs linked = false
  ∧ anchors (@Main.createCard latin_host "https://shop.example" linked) = None.
Proof. split; vm_compute; reflexivity. Qed.

(* ===================================================================== *)
(** ** Loading: how a run ends, and the outcomes of the detail page *)
(* ===================================================================== *)

Section settles.
Context `{Host}.

Lemma first_success_or_all_fail (timeout : N) (net : nat → reply) (n : nat) :
  (∀ k, (k ≤ n)%nat → covered timeout (net k)) →
  (∀ k, (k ≤ n)%nat → fails_within timeout (net k))
  ∨ (∃ k after res l,
       (k ≤ n)%nat ∧ (∀ j, (j < k)%nat → fails_within timeout (net j))
       ∧ net k = Responds after res ∧ (after < timeout)%N
       ∧ ok res = true ∧ json res = ArrayOf l).
Proof.
  induction n as [|n IH]; intros Hcov.
  - destruct (Hcov 0%nat (Nat.le_refl _)) as [Hfail | (after & res & l & Hok)].
    + left. intros k Hk. by assert (k = 0%nat) as -> by lia.
    + right. exists 0%nat, after, res, l. split; [lia |]. split; [intros; lia | done].
  - destruct IH as [Hfail | (k & after & res & l & Hk & Hrest)].
    + intros k Hk. apply Hcov. lia.
    + destruct (Hcov (S n) (Nat.le_refl _)) as [HS | (after & res & l & Hok)].
      * left. intros k Hk. destruct (Nat.eq_dec k (S n)) as [-> | Hne]; [done |].
        apply Hfail. lia.
      * right. exists (S n), after, res, l. split; [lia |].
        split; [intros j Hj; apply Hfail; lia | done].
    + right. exists k, after, res, l. split; [lia | done].
Qed.

Lemma retry_events_count (a k : nat) :
  requests (retry_events a k) = k ∧ sleeps (retry_events a k) = k.
Proof.
  unfold requests, sleeps, retry_events. revert a.
  induction k as [|k IH]; intros a; [done |].
  cbn [seq flat_map]. destruct (IH (S a)) as [IH1 IH2].
  cbn. by rewrite IH1, IH2.
Qed.

Lemma requests_app (a b : list event) :
  requests (a ++ b) = (requests a + requests b)%nat.
Proof. unfold requests. by rewrite List.filter_app, length_app. Qed.

Lemma sleeps_app (a b : list event) :
  sleeps (a ++ b) = (sleeps a + sleeps b)%nat.
Proof. unfold sleeps. by rewrite List.filter_app, length_app. Qed.

End settles.

(** X5: A run of [fetchProductsWithRetry] settles in one of two states.
    When each attempt either fails (its request is unanswered after
    [FETCH_TIMEOUT] ms or rejected, the status is not ok, or the body is
    not a JSON array) or gets a response that is ok in time with an array
    of records, the run makes at least one and at most [retries + 1]
    requests, with one delay before each request after the first, and it
    ends with the list shown and the message hidden, or, when all
    [retries + 1] requests have failed, with the failure message shown
    and the records of the page untouched. *)
Theorem fetchProductsWithRetry_settles `{Host} (retries : nat) (net : nat → reply)
    (st : Main.page) :
  (∀ k, (k ≤ retries)%nat → covered Main.FETCH_TIMEOUT (net k)) →
  let result := Main.fetchProductsWithRetry retries net st in
  (1 ≤ requests result.2 ≤ retries + 1)%nat
  ∧ sleeps result.2 = (requests result.2 - 1)%nat
  ∧ (Main.msg_text result.1 = ""
     ∧ Main.msg_aria_hidden result.1 = Some "true"
     ∧ rendered result.1 = all_records result.1
     ∧ Main.container result.1 = cards (Main.origin st) (all_records result.1)
     ∨ Main.msg_text result.1 = Main.load_failed_msg
       ∧ Main.msg_aria_hidden result.1 = Some "false"
       ∧ Main.container result.1 = [Html Main.load_failed_html]
       ∧ requests result.2 = (retries + 1)%nat
       ∧ Main.products result.1 = Main.products st
       ∧ Main.store result.1 = Main.store st).
Proof.
  intros Hcov. cbn zeta. unfold Main.fetchProductsWithRetry.
  set (st0 := Main.set_msg "Loading products..." "false" st).
  destruct (first_success_or_all_fail _ net retries Hcov)
    as [Hnone | (k & after & res & l & Hk & Hbefore & Hnet & Hafter & Hok & Hjson)].
  - rewrite (attempts_all_fail retries 0 retries)
      by (try lia; intros; apply fails_within_records, Hnone; lia).
    cbn [fst snd]. rewrite requests_app, sleeps_app.
    destruct (retry_events_count 0 retries) as [-> ->].
    change (requests [_; _]) with 1%nat. change (sleeps [_; _]) with 0%nat.
    split; [lia |]. split; [lia |]. right. repeat split.
  - assert (Hl : Main.attempt_records (net k) = Some l)
      by (rewrite Hnet; by apply in_time_records).
    rewrite (attempts_first_success retries 0 retries k _ _ l)
      by (try done; try lia; intros; apply fails_within_records, Hbefore; lia).
    cbn [fst snd]. rewrite Nat.sub_0_r, requests_app, sleeps_app.
    destruct (retry_events_count 0 k) as [-> ->].
    change (requests [_]) with 1%nat. change (sleeps [_]) with 0%nat.
    split; [lia |]. split; [lia |]. left.
    destruct (loaded_spec l st0) as (Ha & Hr & Hc & Hm & Hh). cbn zeta in *.
    rewrite Ha, Hr. split; [exact Hm |]. split; [exact Hh |].
    split; [reflexivity | exact Hc].
Qed.

Lemma fetchProductsWithRetry_settles_witness :
  let result :=
    @Main.fetchProductsWithRetry latin_host Main.MAX_RETRIES late_then_ok
      (page_of [] "" "relevance") in
  requests result.2 = 2%nat ∧ sleeps result.2 = 1%nat
  ∧ (1 ≤ requests result.2 ≤ Main.MAX_RETRIES + 1)%nat.
Proof.
  cbn zeta.
  destruct (@fetchProductsWithRetry_settles latin_host Main.MAX_RETRIES late_then_ok
              (page_of [] "" "relevance")) as (Hbound & _ & _).
  - intros [|k] _.
    + left. left. vm_compute. discriminate.
    + right. exists 7999%N, (ok_response [box; roll]), [box; roll].
      repeat split.
  - split; [vm_compute; reflexivity |]. split; [vm_compute; reflexivity |].
    exact Hbound.
Defined.

Section outcomes.
Context `{Host}.

Lemma first_char_app (a b : string) (c : ascii) :
  first_char a = Some c → first_char (a +:+ b) = Some c.
Proof. by destruct a. Qed.

Lemma renderProduct_first_char (href : string) (p : record) :
  first_char (Product.renderProduct href (Some p)) = Some (ascii_of_nat 10).
Proof.
  unfold Product.renderProduct. apply first_char_app. vm_compute. reflexivity.
Qed.

Lemma load_failed_first_char :
  first_char Product.load_failed_html = Some "<"%char.
Proof. vm_compute. reflexivity. Qed.

Lemma renderNotFound_eqb :
  (Product.renderNotFound =? Product.load_failed_html)%string = false.
Proof. vm_compute. reflexivity. Qed.

Lemma renderNotFound_not_failure :
  Product.renderNotFound ≠ Product.load_failed_html.
Proof.
  intros Heq. apply String.eqb_eq in Heq. revert Heq.
  by rewrite renderNotFound_eqb.
Qed.

Lemma renderProduct_not_failure (href : string) (p : option record) :
  Product.renderProduct href p ≠ Product.load_failed_html.
Proof.
  destruct p as [p|]; [| exact renderNotFound_not_failure].
  intros Heq. pose proof (renderProduct_first_char href p) as Hc.
  rewrite Heq, load_failed_first_char in Hc. discriminate.
Qed.

Lemma loadAndRender_outcome (net : reply) (st : Product.page) :
  Product.loadAndRender net st = Product.set_detail (outcome net st) st.
Proof.
  unfold Product.loadAndRender, outcome, fetched_list.
  destruct (Product.getParam "id" st) as [id|]; [| reflexivity].
  destruct (String.eqb id ""); [reflexivity |].
  destruct (safeFetch net Product.FETCH_TIMEOUT) as [res | e]; [| reflexivity].
  destruct (negb (ok res)); [reflexivity |].
  destruct (json res); reflexivity.
Qed.

Lemma fails_within_fetched (r : reply) :
  fails_within Product.FETCH_TIMEOUT r → fetched_list r = None.
Proof.
  unfold fetched_list, safeFetch.
  destruct r as [after res | after |]; cbn [fails_within].
  - intros Hfail.
    destruct (N.ltb_spec after Product.FETCH_TIMEOUT) as [Hlt | _]; [| done].
    destruct Hfail as [Hlate | [Hok | [Hjson | Hjson]]].
    + lia.
    + by rewrite Hok.
    + rewrite Hjson. by destruct (ok res).
    + rewrite Hjson. by destruct (ok res).
  - intros _. by destruct (after <? Product.FETCH_TIMEOUT)%N.
  - done.
Qed.

Lemma fetched_list_Some (net : reply) (res : response) (l : list record) :
  safeFetch net Product.FETCH_TIMEOUT = inl res → ok res = true →
  json res = ArrayOf l → fetched_list net = Some l.
Proof. unfold fetched_list. by intros -> -> ->. Qed.

End outcomes.

(** X6: [loadAndRender] never changes the parameters or the address of the
    page.  Without an [id], or with an empty one, it shows the not-found
    message.  With an [id] it shows the failure message when the request
    is still unanswered after [FETCH_TIMEOUT] ms or is rejected, when the
    status is not ok and when the body is not a JSON array; and when a
    response that is ok arrives in time with an array of records, it
    renders what the lookup of the id finds in the array, which is never
    the failure message. *)
Theorem loadAndRender_outcomes `{Host} (net : reply) (st : Product.page) :
  let st' := Product.loadAndRender net st in
  Product.params st' = Product.params st
  ∧ Product.href st' = Product.href st
  ∧ (Product.getParam "id" st = None ∨ Product.getParam "id" st = Some "" →
     Product.detail st' = Product.renderNotFound)
  ∧ (∀ id, Product.getParam "id" st = Some id → id ≠ "" →
       (fails_within Product.FETCH_TIMEOUT net →
        Product.detail st' = Product.load_failed_html)
       ∧ (∀ after res records,
            net = Responds after res → (after < Product.FETCH_TIMEOUT)%N →
            ok res = true → json res = ArrayOf records →
            Product.detail st'
            = Product.renderProduct (Product.href st) (Product.find_by_id records id)
            ∧ Product.detail st' ≠ Product.load_failed_html)).
Proof.
  cbn zeta. rewrite loadAndRender_outcome.
  split; [reflexivity |]. split; [reflexivity |].
  change (Product.detail (Product.set_detail (outcome net st) st)) with (outcome net st).
  unfold outcome. split.
  - intros [-> | ->]; reflexivity.
  - intros id -> Hne.
    destruct (String.eqb_spec id "") as [-> | _]; [exfalso; by apply Hne |].
    split.
    + intros Hfail. by rewrite (fails_within_fetched net Hfail).
    + intros after res records -> Hafter Hok Hjson.
      assert (Hl : fetched_list (Responds after res) = Some records).
      { apply (fetched_list_Some _ res); [| exact Hok | exact Hjson].
        unfold safeFetch. apply N.ltb_lt in Hafter. by rewrite Hafter. }
      rewrite Hl. split; [reflexivity | apply renderProduct_not_failure].
Qed.

(* ===================================================================== *)
(** ** The view: what it shows, narrower queries, white space, directions *)
(* ===================================================================== *)

Section view_facts.
Context `{Host}.

Lemma sort_for_perm (key : string) (l : list record) : sort_for key l ≡ₚ l.
Proof.
  unfold sort_for.
  repeat match goal with
         | |- context [String.eqb key ?k] => destruct (String.eqb key k)
         end; try apply Array_sort_perm; done.
Qed.

Lemma el_element (tag : string) (props : list (string * value))
    (children : list child) :
  ∃ attrs inner, Main.el tag props children = Element tag attrs inner.
Proof. unfold Main.el. destruct (foldl _ _ props). by eexists _, _. Qed.

Lemma cards_empty (origin : string) (l : list record) :
  cards origin l = [Html Main.no_results] ↔ l = [].
Proof.
  split; [| by intros ->]. destruct l as [|p l]; [done |].
  unfold cards. cbn [map]. intros Heq. exfalso.
  injection Heq as Hcard _. revert Hcard. unfold Main.createCard.
  match goal with
  | |- Main.el ?t ?p ?c = _ → _ =>
      destruct (el_element t p c) as (attrs & inner & ->)
  end.
  discriminate.
Qed.

Lemma cards_length (origin : string) (l : list record) :
  length (cards origin l) = Nat.max 1 (length l).
Proof. destruct l as [|p [|q l]]; cbn; [done | done |]. by rewrite length_map. Qed.

Lemma matches_narrower (q q' : string) (p : record) :
  JS.substring_of q q' → Main.matches q' p = true → Main.matches q p = true.
Proof.
  intros Hsub. unfold Main.matches.
  destruct (String.eqb_spec q "") as [_ | Hq]; [done |].
  destruct (String.eqb_spec q' "") as [-> | _].
  - destruct Hsub as (a & b & Hab). exfalso. apply Hq.
    destruct a; [| discriminate]. destruct q; [done | discriminate].
  - assert (Htrans : ∀ s, JS.includes s q' = true → JS.includes s q = true).
    { intros s. rewrite !includes_spec. intros (a & b & ->).
      destruct Hsub as (x & y & ->).
      exists (a +:+ x), (y +:+ b). by rewrite !append_assoc. }
    rewrite !orb_true_iff. intros [[Hn | Hf] | Hs]; auto.
Qed.

Lemma filter_sublist_mono {A} (f g : A → bool) (l : list A) :
  (∀ x, f x = true → g x = true) →
  sublist (List.filter f l) (List.filter g l).
Proof.
  intros Hfg. induction l as [|x l IH]; cbn; [constructor |].
  destruct (f x) eqn:Hf.
  - rewrite (Hfg x Hf). by constructor.
  - destruct (g x); [by constructor | done].
Qed.

End view_facts.

(** X7: After [applyFilters] the page shows the matching records and nothing
    else: what is rendered is a permutation of the records that match the
    query, a record is rendered exactly when it is a record of the page
    that matches, the container has the no-results message exactly when
    nothing matches, and otherwise it has one card for each match. *)
Theorem applyFilters_shows_the_matches `{Host} (st : Main.page) :
  let st' := Main.applyFilters st in
  let matching := List.filter (Main.matches (Main.query st)) (all_records st) in
  rendered st' ≡ₚ matching
  ∧ (∀ p, p ∈ rendered st' ↔
          p ∈ all_records st ∧ Main.matches (Main.query st) p = true)
  ∧ (Main.container st' = [Html Main.no_results] ↔ matching = [])
  ∧ length (Main.container st') = Nat.max 1 (length matching).
Proof.
  cbn zeta. destruct (applyFilters_spec st) as (Hr & Hc & _). cbn zeta in *.
  unfold derive in *.
  set (matching := List.filter _ _) in *.
  assert (Hperm : rendered (Main.applyFilters st) ≡ₚ matching).
  { rewrite Hr. apply sort_for_perm. }
  split; [exact Hperm |]. split; [| split].
  - intros p. rewrite Hperm. unfold matching.
    rewrite !list_elem_of_In. apply filter_In.
  - rewrite Hc, cards_empty. split.
    + intros Hnil. apply Permutation_nil. by rewrite <- Hnil, sort_for_perm.
    + intros Hnil. apply Permutation_nil. by rewrite sort_for_perm, Hnil.
  - rewrite Hc, cards_length. by rewrite sort_for_perm.
Qed.

(** X8: Typing more narrows the list: when the query of one search text is a
    substring of the query of another, every record that the longer text
    shows is shown by the shorter one too, the longer text shows at most
    as many records, and its matches are a sublist of the matches of the
    shorter one, in the order of the catalogue. *)
Theorem narrower_query_shows_fewer `{Host} (st : Main.page) (text text' : string) :
  let wide := Main.set_search_value text st in
  let narrow := Main.set_search_value text' st in
  JS.substring_of (Main.query wide) (Main.query narrow) →
  (∀ p, p ∈ rendered (Main.applyFilters narrow) →
        p ∈ rendered (Main.applyFilters wide))
  ∧ (length (rendered (Main.applyFilters narrow))
     ≤ length (rendered (Main.applyFilters wide)))%nat
  ∧ sublist
      (List.filter (Main.matches (Main.query narrow)) (all_records st))
      (List.filter (Main.matches (Main.query wide)) (all_records st)).
Proof.
  cbn zeta. intros Hsub.
  set (wide := Main.set_search_value text st) in *.
  set (narrow := Main.set_search_value text' st) in *.
  destruct (applyFilters_spec wide) as (Hw & _).
  destruct (applyFilters_spec narrow) as (Hn & _).
  cbn zeta in *. unfold derive in *.
  change (all_records wide) with (all_records st) in *.
  change (all_records narrow) with (all_records st) in *.
  change (Main.sort_value wide) with (Main.sort_value st) in *.
  change (Main.sort_value narrow) with (Main.sort_value st) in *.
  assert (Hsl : sublist
            (List.filter (Main.matches (Main.query narrow)) (all_records st))
            (List.filter (Main.matches (Main.query wide)) (all_records st))).
  { apply filter_sublist_mono. intros p. by apply matches_narrower. }
  rewrite Hw, Hn. split; [| split; [| exact Hsl]].
  - intros p. rewrite !sort_for_perm. intros Hp. by apply (elem_of_sublist _ _ _ Hp).
  - rewrite !sort_for_perm. by apply sublist_length.
Qed.

Lemma narrower_query_shows_fewer_witness :
  let st := page_of [box; tray; roll] "" "price-asc" in
  JS.substring_of (@Main.query latin_host (Main.set_search_value " T" st))
    (@Main.query latin_host (Main.set_search_value "Tr " st))
  ∧ (length (rendered (@Main.applyFilters latin_host (Main.set_search_value "Tr " st)))
     ≤ length (rendered (@Main.applyFilters latin_host (Main.set_search_value " T" st))))%nat.
Proof.
  cbn zeta.
  assert (Hsub : JS.substring_of
            (@Main.query latin_host
               (Main.set_search_value " T" (page_of [box; tray; roll] "" "price-asc")))
            (@Main.query latin_host
               (Main.set_search_value "Tr " (page_of [box; tray; roll] "" "price-asc")))).
  { apply includes_spec. vm_compute. reflexivity. }
  split; [exact Hsub |].
  destruct (@narrower_query_shows_fewer latin_host
              (page_of [box; tray; roll] "" "price-asc") " T" "Tr " Hsub)
    as (_ & Hlen & _).
  exact Hlen.
Defined.

Section reverse_facts.
Context `{Host}.

Lemma StronglySorted_rev {A} (R : A → A → Prop) (l : list A) :
  StronglySorted R l → StronglySorted (flip R) (rev l).
Proof.
  induction 1 as [|x l Hl IH Hx]; [constructor |].
  cbn [rev]. apply StronglySorted_app. split; [| split; [done |]].
  - intros y z Hy Hz. apply list_elem_of_In in Hz as [<- | []].
    rewrite Forall_forall in Hx. apply Hx.
    apply list_elem_of_In. apply in_rev. by apply list_elem_of_In.
  - repeat constructor.
Qed.

Lemma single_number (field : string) (descending : bool) (k : Z)
    (l : list record) :
  Forall (numeric field) l → different_numbers field l →
  (length (List.filter (λ r, (rank_of field descending r =? k)%Z) l) ≤ 1)%nat.
Proof.
  intros Hnum Hdiff. revert Hnum.
  induction Hdiff as [|a l Ha Hl IH]; intros Hnum; [cbn; lia |].
  apply Forall_cons in Hnum as [Hna Hnum]. cbn [List.filter].
  destruct (Z.eqb_spec (rank_of field descending a) k) as [Hk | _];
    [| by apply IH].
  assert (Hnone : List.filter (λ r, rank_of field descending r =? k) l = []).
  { clear IH Hl. induction l as [|b l IH]; [done |].
    apply Forall_cons in Ha as [Hab Ha].
    apply Forall_cons in Hnum as [Hnb Hnum]. cbn [List.filter].
    rewrite (IH Ha Hnum).
    destruct (Z.eqb_spec (rank_of field descending b) k) as [Hb | _]; [| done].
    rewrite eqb_fkey in Hab by done. apply Z.eqb_neq in Hab.
    unfold rank_of in *. destruct descending; lia. }
  rewrite Hnone. cbn. lia.
Qed.

Lemma rev_short {A} (l : list A) : (length l ≤ 1)%nat → rev l = l.
Proof. destruct l as [|x [|y l]]; cbn; [done | done | lia]. Qed.

End reverse_facts.

(** X9: The two directions of a sort are mirror images when no two matching
    records tie: if the field of every matching record is a number and
    these numbers are pairwise different, the descending key shows the
    list of the ascending key in reverse. *)
Theorem descending_reverses_ascending `{Host} (st : Main.page)
    (field asc desc : string) :
  sort_field asc = Some (field, false) →
  sort_field desc = Some (field, true) →
  let matching := List.filter (Main.matches (Main.query st)) (all_records st) in
  Forall (numeric field) matching →
  different_numbers field matching →
  rendered (Main.applyFilters (Main.set_sort_value desc st))
  = rev (rendered (Main.applyFilters (Main.set_sort_value asc st))).
Proof.
  intros Hasc Hdesc matching Hnum Hdiff.
  destruct (applyFilters_spec (Main.set_sort_value asc st)) as [-> _].
  destruct (applyFilters_spec (Main.set_sort_value desc st)) as [-> _].
  unfold derive. cbn [Main.sort_value Main.set_sort_value].
  change (Main.query (Main.set_sort_value _ st)) with (Main.query st).
  change (all_records (Main.set_sort_value _ st)) with (all_records st).
  fold matching.
  rewrite (sort_for_directional asc field false) by done.
  rewrite (sort_for_directional desc field true) by done.
  symmetry.
  apply (Array_sort_unique _ (numeric field) (rank_of field true)
           (comparator_rank field true)); [done | |].
  - apply (StronglySorted_Forall_impl (λ _, True)
             (flip (λ a b, rank_of field false a ≤ rank_of field false b)));
      [| by apply Forall_true |].
    + unfold flip, rank_of. intros a b _ _. lia.
    + apply StronglySorted_rev.
      by apply (Array_sort_sorted _ (numeric field) _ (comparator_rank field false)).
  - intros k. rewrite List.filter_rev.
    assert (Hsame : ∀ l : list record,
              List.filter (λ a, rank_of field true a =? k) l
              = List.filter (λ a, rank_of field false a =? - k) l).
    { intros l. apply List.filter_ext. intros a. unfold rank_of.
      destruct (Z.eqb_spec (- fkey (number_of field a)) k),
        (Z.eqb_spec (fkey (number_of field a)) (- k)); try done; lia. }
    rewrite (Hsame (Array_sort _ _)).
    rewrite (Array_sort_stable _ (numeric field) _ (comparator_rank field false))
      by done.
    rewrite <- Hsame. apply rev_short. by apply single_number.
Qed.

Lemma descending_reverses_ascending_witness :
  let st := page_of [box; tray; roll] "" "relevance" in
  rendered (@Main.applyFilters latin_host (Main.set_sort_value "price-desc" st))
  = [box; tray; roll]
  ∧ rendered (@Main.applyFilters latin_host (Main.set_sort_value "price-asc" st))
    = [roll; tray; box].
Proof.
  cbn zeta.
  assert (Hnum : Forall (numeric "price") [box; tray; roll])
    by (repeat constructor).
  assert (Hdiff : different_numbers "price" [box; tray; roll])
    by (repeat constructor).
  pose proof (@descending_reverses_ascending latin_host
                (page_of [box; tray; roll] "" "relevance")
                "price" "price-asc" "price-desc" eq_refl eq_refl Hnum Hdiff) as Hrev.
  assert (Hasc : rendered (@Main.applyFilters latin_host
                    (Main.set_sort_value "price-asc"
                       (page_of [box; tray; roll] "" "relevance")))
                 = [roll; tray; box]) by (vm_compute; reflexivity).
  split; [| exact Hasc].
  rewrite Hrev, Hasc. reflexivity.
Defined.

Section trimming.

Lemma rev_app_spec (a b : string) : String.rev_app a b = String.rev a +:+ b.
Proof.
  unfold String.rev. revert b. induction a as [|c a IH]; intros b; [done |].
  cbn [String.rev_app]. rewrite (IH (String c b)), (IH (String c "")).
  by rewrite append_assoc.
Qed.

Lemma rev_cons (c : ascii) (a : string) :
  String.rev (String c a) = String.rev a +:+ String c "".
Proof. unfold String.rev at 1. cbn [String.rev_app]. apply rev_app_spec. Qed.

Lemma append_empty_r (a : string) : a +:+ "" = a.
Proof.
  induction a as [|c a IH]; [done |].
  change (String c (a +:+ "") = String c a). by rewrite IH.
Qed.

Lemma rev_append (a b : string) :
  String.rev (a +:+ b) = String.rev b +:+ String.rev a.
Proof.
  induction a as [|c a IH].
  - change (String.rev b = String.rev b +:+ ""). by rewrite append_empty_r.
  - change (String c a +:+ b) with (String c (a +:+ b)).
    by rewrite !rev_cons, IH, append_assoc.
Qed.

Lemma rev_length (a : string) : String.length (String.rev a) = String.length a.
Proof.
  induction a as [|c a IH]; [done |].
  rewrite rev_cons, append_length, IH. cbn. lia.
Qed.

Lemma drop_prefix_spec (w x r : string) :
  JS.drop_prefix w x = Some r ↔ x = w +:+ r.
Proof.
  revert x. induction w as [|c w IH]; intros x; cbn [JS.drop_prefix].
  - change ("" +:+ r) with r. split; [by intros [= ->] | by intros ->].
  - change (String c w +:+ r) with (String c (w +:+ r)).
    destruct x as [|d x]; [split; discriminate |].
    destruct (Ascii.eqb_spec c d) as [-> | Hne].
    + rewrite IH. split; [by intros -> | by intros [= ->]].
    + split; [discriminate | intros [= -> _]; done].
Qed.

Lemma drop_one_Some (ws : list string) (x r : string) :
  JS.drop_one ws x = Some r → ∃ w, w ∈ ws ∧ x = w +:+ r.
Proof.
  induction ws as [|w ws IH]; [done |]. cbn.
  destruct (JS.drop_prefix w x) as [r'|] eqn:Hw.
  - intros [= ->]. exists w. split; [by left | by apply drop_prefix_spec].
  - intros Hr. destruct (IH Hr) as (w' & Hw' & ->). exists w'. split; [by right | done].
Qed.

Lemma drop_one_None (ws : list string) (x : string) :
  JS.drop_one ws x = None → ∀ w r, w ∈ ws → x ≠ w +:+ r.
Proof.
  induction ws as [|w ws IH]; [intros _ w r Hw; by apply elem_of_nil in Hw |].
  cbn. destruct (JS.drop_prefix w x) as [r'|] eqn:Hw; [done |].
  intros Hnone w' r Hw' ->. apply elem_of_cons in Hw' as [-> | Hw'].
  - assert (JS.drop_prefix w (w +:+ r) = Some r) by by apply drop_prefix_spec.
    congruence.
  - by apply (IH Hnone w' r Hw').
Qed.

(** The fuel of [drop_while]. *)
Lemma drop_while_fuel (ws : list string) (n : nat) :
  Forall (λ w, w ≠ "") ws →
  ∀ s fuel fuel',
    (String.length s ≤ n)%nat → (String.length s ≤ fuel)%nat →
    (String.length s ≤ fuel')%nat →
    JS.drop_while ws fuel s = JS.drop_while ws fuel' s.
Proof.
  intros Hne. induction n as [|n IH]; intros s fuel fuel' Hn Hf Hf'.
  - destruct s; [| cbn in Hn; lia].
    assert (Hnone : JS.drop_one ws "" = None).
    { destruct (JS.drop_one ws "") as [r|] eqn:Hr; [| done].
      apply drop_one_Some in Hr as (w & Hw & Heq).
      rewrite Forall_forall in Hne. destruct (Hne w Hw).
      by destruct w. }
    destruct fuel, fuel'; cbn [JS.drop_while]; rewrite ?Hnone; done.
  - destruct (JS.drop_one ws s) as [r|] eqn:Hr.
    + pose proof Hr as Hr'. apply drop_one_Some in Hr' as (w & Hw & ->).
      rewrite Forall_forall in Hne. pose proof (Hne w Hw) as Hw'.
      rewrite append_length in *.
      assert (0 < String.length w)%nat by (destruct w; [done | cbn; lia]).
      destruct fuel as [|fuel]; [lia |]. destruct fuel' as [|fuel']; [lia |].
      cbn [JS.drop_while]. rewrite Hr. apply IH; lia.
    + destruct fuel, fuel'; cbn [JS.drop_while]; rewrite ?Hr; done.
Qed.

Lemma white_space_nonempty : Forall (λ w, w ≠ "") JS.white_space.
Proof. repeat constructor; discriminate. Qed.

Lemma white_space_rev_nonempty :
  Forall (λ w, w ≠ "") (map String.rev JS.white_space).
Proof. repeat constructor; discriminate. Qed.

Lemma drop_one_leading (w s : string) :
  w ∈ JS.white_space → JS.drop_one JS.white_space (w +:+ s) = Some s.
Proof.
  intros Hw. apply list_elem_of_In in Hw. simpl in Hw.
  repeat (destruct Hw as [<- | Hw]; [reflexivity |]). done.
Qed.

Lemma drop_one_trailing (w s : string) :
  w ∈ JS.white_space →
  JS.drop_one (map String.rev JS.white_space) (String.rev w +:+ s) = Some s.
Proof.
  intros Hw. apply list_elem_of_In in Hw. simpl in Hw.
  repeat (destruct Hw as [<- | Hw]; [reflexivity |]). done.
Qed.

Lemma trimStart_leading (a x : string) :
  white_space_only a → JS.trimStart (a +:+ x) = JS.trimStart x.
Proof.
  unfold JS.trimStart. induction 1 as [|w a Hw Ha IH]; [done |].
  rewrite append_assoc, append_length.
  assert (0 < String.length w)%nat.
  { pose proof white_space_nonempty as Hne. rewrite Forall_forall in Hne.
    specialize (Hne w Hw). destruct w; [done | cbn; lia]. }
  destruct (String.length w) as [|n] eqn:Hn; [lia |].
  cbn [Nat.add JS.drop_while]. rewrite drop_one_leading by done.
  rewrite <- IH.
  apply (drop_while_fuel _ (String.length (a +:+ x)) white_space_nonempty); lia.
Qed.

Lemma trimEnd_trailing (x b : string) :
  white_space_only b → JS.trimEnd (x +:+ b) = JS.trimEnd x.
Proof.
  unfold JS.trimEnd. intros Hb. f_equal. revert x.
  induction Hb as [|w b Hw Hb IH]; intros x.
  - by rewrite append_empty_r.
  - rewrite <- append_assoc, IH, rev_append, append_length.
    rewrite (Nat.add_comm (String.length x)).
    assert (0 < String.length w)%nat.
    { pose proof white_space_nonempty as Hne. rewrite Forall_forall in Hne.
      specialize (Hne w Hw). destruct w; [done | cbn; lia]. }
    destruct (String.length w) as [|n] eqn:Hn; [lia |].
    cbn [Nat.add JS.drop_while]. rewrite drop_one_trailing by done.
    apply (drop_while_fuel _ (String.length (String.rev x)) white_space_rev_nonempty);
      rewrite ?rev_length; lia.
Qed.

(** What [trimStart] removes is white space, and what it leaves does not
    start with white space. *)
Lemma trimStart_split (s : string) :
  ∃ a, white_space_only a ∧ s = a +:+ JS.trimStart s
       ∧ JS.drop_one JS.white_space (JS.trimStart s) = None.
Proof.
  unfold JS.trimStart.
  assert (Hgen : ∀ fuel s, (String.length s ≤ fuel)%nat →
            ∃ a, white_space_only a ∧ s = a +:+ JS.drop_while JS.white_space fuel s
                 ∧ JS.drop_one JS.white_space (JS.drop_while JS.white_space fuel s) = None).
  { clear s. induction fuel as [|fuel IH]; intros s Hlen.
    - destruct s; [| cbn in Hlen; lia]. exists "". repeat split. constructor.
    - cbn [JS.drop_while].
      destruct (JS.drop_one JS.white_space s) as [r|] eqn:Hr.
      + pose proof Hr as Hr'. apply drop_one_Some in Hr' as (w & Hw & ->).
        pose proof white_space_nonempty as Hne. rewrite Forall_forall in Hne.
        specialize (Hne w Hw). rewrite append_length in Hlen.
        assert (0 < String.length w)%nat by (destruct w; [done | cbn; lia]).
        destruct (IH r) as (a & Ha & Heq & Hnone); [lia |].
        exists (w +:+ a). split; [by constructor |].
        split; [| done]. rewrite append_assoc. by rewrite <- Heq.
      + exists "". repeat split; [constructor | done]. }
  by apply Hgen.
Qed.

Lemma append_split (a b c d : string) :
  a +:+ b = c +:+ d →
  (∃ t, a = c +:+ t) ∨ (∃ t, t ≠ "" ∧ c = a +:+ t ∧ b = t +:+ d).
Proof.
  revert c. induction a as [|x a IH]; intros c Heq.
  - change (b = c +:+ d) in Heq. subst b. destruct c as [|y c].
    + left. by exists "".
    + right. exists (String y c). by repeat split.
  - destruct c as [|y c].
    + left. by exists (String x a).
    + change (String x (a +:+ b) = String y (c +:+ d)) in Heq.
      injection Heq as -> Heq.
      destruct (IH c Heq) as [[t ->] | (t & Ht & -> & ->)].
      * left. by exists t.
      * right. by exists t.
Qed.

(** No white space character starts with a byte that another one has
    after its first byte. *)
Lemma white_space_lead_bytes :
  forallb
    (λ w, forallb
            (λ w', match w, w' with
                   | String _ rest, String d _ =>
                       negb (bool_decide (d ∈ list_ascii_of_string rest))
                   | _, _ => true
                   end) JS.white_space) JS.white_space = true.
Proof. vm_compute. reflexivity. Qed.

Lemma inside_app (a b : string) (d : ascii) :
  d ∈ list_ascii_of_string (a +:+ String d b).
Proof. induction a as [|c a IH]; cbn; [by left | by right]. Qed.

Lemma drop_one_before_white (s b : string) :
  s ≠ "" → white_space_only b →
  JS.drop_one JS.white_space s = None →
  JS.drop_one JS.white_space (s +:+ b) = None.
Proof.
  intros Hs Hb Hnone.
  destruct (JS.drop_one JS.white_space (s +:+ b)) as [r|] eqn:Hr; [| done].
  exfalso. apply drop_one_Some in Hr as (w & Hw & Heq).
  apply append_split in Heq as [[t ->] | (t & Ht & -> & ->)].
  - by apply (drop_one_None _ _ Hnone w t).
  - destruct s as [|c s]; [done |]. destruct t as [|d t]; [done |].
    inversion Hb as [| w' b' Hw' Hb' Heq].
    pose proof white_space_nonempty as Hne. rewrite Forall_forall in Hne.
    pose proof (Hne w' Hw') as Hw'ne.
    destruct w' as [|d' w']; [done |]. injection Heq as -> _.
    pose proof white_space_lead_bytes as Hlead.
    rewrite forallb_forall in Hlead.
    apply list_elem_of_In in Hw, Hw'.
    specialize (Hlead _ Hw). rewrite forallb_forall in Hlead.
    specialize (Hlead _ Hw'). cbn in Hlead.
    apply negb_true_iff, bool_decide_eq_false in Hlead.
    apply Hlead, inside_app.
Qed.

Lemma trimStart_white (b : string) : white_space_only b → JS.trimStart b = "".
Proof. intros Hb. unfold JS.trimStart. by apply drop_while_white. Qed.

Lemma trim_surrounded (a s b : string) :
  white_space_only a → white_space_only b →
  JS.trim (a +:+ s +:+ b) = JS.trim s.
Proof.
  intros Ha Hb. unfold JS.trim. rewrite (trimStart_leading a _ Ha).
  destruct (trimStart_split s) as (a0 & Ha0 & Hs & Hnone).
  rewrite Hs at 1. rewrite append_assoc, (trimStart_leading a0 _ Ha0).
  destruct (JS.trimStart s) as [|c s'] eqn:Hs'.
  - change ("" +:+ b) with b. by rewrite (trimStart_white b Hb).
  - assert (Hstop : JS.trimStart (String c s' +:+ b) = String c s' +:+ b).
    { unfold JS.trimStart.
      change (String c s' +:+ b) with (String c (s' +:+ b)).
      cbn [String.length JS.drop_while].
      change (String c (s' +:+ b)) with (String c s' +:+ b).
      by rewrite drop_one_before_white. }
    rewrite Hstop. by apply trimEnd_trailing.
Qed.

End trimming.

(** X10: White space around the search text makes no difference: with any
    white space before and after the text, [applyFilters] renders the
    same records and the same cards as for the text alone. *)
Theorem search_ignores_surrounding_white_space `{Host} (st : Main.page)
    (before text after : string) :
  white_space_only before → white_space_only after →
  let padded := Main.applyFilters (Main.set_search_value (before +:+ text +:+ after) st) in
  let bare := Main.applyFilters (Main.set_search_value text st) in
  rendered padded = rendered bare
  ∧ Main.container padded = Main.container bare.
Proof.
  intros Hb Ha. cbn zeta.
  destruct (applyFilters_spec (Main.set_search_value (before +:+ text +:+ after) st))
    as (-> & -> & _).
  destruct (applyFilters_spec (Main.set_search_value text st)) as (-> & -> & _).
  unfold Main.query. cbn [Main.search_value Main.set_search_value].
  by rewrite (trim_surrounded _ _ _ Hb Ha).
Qed.

Lemma search_ignores_surrounding_white_space_witness :
  rendered
    (@Main.applyFilters latin_host
       (Main.set_search_value (" " +:+ "roll" +:+ JS.bytes [9; 194; 160]%nat)
          (page_of [box; tray; roll] "" "relevance")))
  = [roll].
Proof.
  assert (Hb : white_space_only " ").
  { apply (white_cons " " ""); [| constructor].
    apply list_elem_of_In. simpl. tauto. }
  assert (Ha : white_space_only (JS.bytes [9; 194; 160]%nat)).
  { apply (white_cons (JS.bytes [9%nat]) (JS.bytes [194; 160]%nat)).
    - apply list_elem_of_In. simpl. tauto.
    - apply (white_cons (JS.bytes [194; 160]%nat) ""); [| constructor].
      apply list_elem_of_In. simpl. tauto. }
  destruct (@search_ignores_surrounding_white_space latin_host
              (page_of [box; tray; roll] "" "relevance") _ "roll" _ Hb Ha)
    as [-> _].
  vm_compute. reflexivity.
Defined.

(* ===================================================================== *)
(** ** Interaction: the debounced search, the controls and the loader *)
(* ===================================================================== *)

Section timer_facts.
Context {A S : Type}.

Lemma first_due_empty : first_due (∅ : gmap positive (N * A)) = None.
Proof. unfold first_due. by rewrite map_to_list_empty. Qed.

Lemma first_due_singleton (id : positive) (x : N * A) :
  first_due ({[id := x]} : gmap positive (N * A)) = Some (id, x).
Proof. unfold first_due. by rewrite map_to_list_singleton. Qed.

(** No timer is pending: time passes and nothing runs. *)
Lemma elapse_idle (ms : N) (run : A → S → S) (w : timers A) (s : S) :
  pending w = ∅ →
  elapse ms run w s
  = ({| clock := (clock w + ms)%N; next_timer := next_timer w; pending := ∅ |}, s).
Proof.
  intros Hw. unfold elapse. rewrite Hw, map_size_empty. cbn. by rewrite Hw.
Qed.

(** One timer is pending: it runs if it is due by then. *)
Lemma elapse_one (ms : N) (run : A → S → S) (w : timers A) (s : S)
    (id : positive) (time : N) (callback : A) :
  pending w = {[id := (time, callback)]} →
  elapse ms run w s
  = if (time <=? clock w + ms)%N then
      ({| clock := (clock w + ms)%N; next_timer := next_timer w; pending := ∅ |},
       run callback s)
    else
      ({| clock := (clock w + ms)%N; next_timer := next_timer w;
          pending := {[id := (time, callback)]} |}, s).
Proof.
  intros Hw. unfold elapse. rewrite Hw, map_size_singleton.
  cbn [run_due]. rewrite Hw, first_due_singleton.
  destruct (time <=? clock w + ms)%N; [| by rewrite Hw].
  cbn. by rewrite delete_singleton_eq.
Qed.

End timer_facts.

Section debounce_facts.
Context {A : Type}.

(** After a call of the debounced function, its timer is the one pending
    timer, whatever [t] was, if no other timer was pending. *)
Lemma debounce_pending (wait : N) (args : A) (t : option positive)
    (w : timers A) :
  (pending w = ∅ ∨ ∃ id x, t = Some id ∧ pending w = {[id := x]}) →
  let '(t', w') := Main.debounce wait args t w in
  t' = Some (next_timer w)
  ∧ pending w' = {[next_timer w := ((clock w + wait)%N, args)]}
  ∧ clock w' = clock w
  ∧ next_timer w' = Pos.succ (next_timer w).
Proof.
  intros Hw. unfold Main.debounce, setTimeout.
  destruct t as [i|]; cbn [clearTimeout clock next_timer pending].
  - repeat split. destruct Hw as [Hw | (id & x & [= ->] & Hw)].
    + rewrite Hw, delete_empty. apply insert_empty.
    + rewrite Hw, delete_singleton_eq. apply insert_empty.
  - repeat split. destruct Hw as [Hw | (id & x & [=] & _)].
    rewrite Hw. apply insert_empty.
Qed.

End debounce_facts.

(** X11: [debounce] calls [fn] on the trailing edge only: when no other timer
    is pending and each call of the debounced function is followed by
    some time, [fn] runs for exactly the calls that are followed by at
    least [wait] milliseconds, once each, in their order and with the
    arguments of the call; a call that another call follows sooner is
    dropped. *)
Theorem debounce_trailing_edge {A} (wait : N) (w : timers A)
    (trace : list (A * N)) :
  pending w = ∅ →
  debounced_calls wait w trace
  = (List.filter (λ call, (wait <=? call.2)%N) trace).*1.
Proof.
  intros Hw. unfold debounced_calls.
  set (step := λ '(t, w, calls) '(args, ms), _).
  assert (Hgen : ∀ trace (t : option positive) (w : timers A) (calls : list A),
            (pending w = ∅ ∨ ∃ id x, t = Some id ∧ pending w = {[id := x]}) →
            (foldl step (t, w, calls) trace).2
            = calls ++ (List.filter (λ call, (wait <=? call.2)%N) trace).*1).
  { clear w trace Hw. induction trace as [|[args ms] trace IH]; intros t w calls Hw.
    - cbn. by rewrite app_nil_r.
    - cbn [foldl]. unfold step at 2.
      pose proof (debounce_pending wait args t w Hw) as Hd.
      destruct (Main.debounce wait args t w) as [t' w'].
      destruct Hd as (Ht' & Hp' & Hc' & Hn').
      rewrite (elapse_one ms _ w' calls _ _ _ Hp'), Hc'.
      cbn [List.filter snd].
      replace (clock w + wait <=? clock w + ms)%N with (wait <=? ms)%N.
      2: { destruct (N.leb_spec wait ms), (N.leb_spec (clock w + wait) (clock w + ms));
             try done; lia. }
      destruct (wait <=? ms)%N.
      + rewrite IH by (by left). cbn. by rewrite <- app_assoc.
      + rewrite IH; [done |]. right.
        by exists (next_timer w), ((clock w + wait)%N, args). }
  rewrite (Hgen trace None w []); [done | by left].
Qed.

Lemma debounce_trailing_edge_witness :
  debounced_calls 250 idle_window
    [("o", 80%N); ("oa", 120%N); ("oak", 400%N); ("oaks", 250%N); ("", 10%N)]
  = ["oak"; "oaks"].
Proof.
  rewrite (debounce_trailing_edge (A := string) 250 idle_window _ eq_refl).
  reflexivity.
Defined.

Section session_facts.
Context `{Host}.

Lemma applyFilters_in_step (st : Main.page) :
  well_formed st →
  let st' := Main.applyFilters st in
  in_step st' ∧ well_formed st'
  ∧ all_records st' = all_records st
  ∧ Main.search_value st' = Main.search_value st
  ∧ Main.sort_value st' = Main.sort_value st.
Proof.
  intros Hwf. cbn zeta. unfold well_formed in *.
  destruct (applyFilters_spec st)
    as (Hr & Hc & Hp & Hframe & _ & Hdom & _ & _ & Hs & Hk & Ho).
  cbn zeta in *.
  assert (Hall : all_records (Main.applyFilters st) = all_records st).
  { unfold all_records, deref. by rewrite Hp, Hframe. }
  split; [| split; [| done]].
  - unfold in_step. unfold Main.query. rewrite Hall, Hs, Hk, Ho, Hc. by rewrite Hr.
  - rewrite Hp. by apply Hdom.
Qed.

Lemma typed_app (done : list Main.action) (a : Main.action) (text : string) :
  typed (done ++ [a]) text
  = match a with Main.Input text' => text' | _ => typed done text end.
Proof. unfold typed. rewrite foldl_app. by destruct a. Qed.

Lemma selected_app (done : list Main.action) (a : Main.action) (key : string) :
  selected (done ++ [a]) key
  = match a with Main.Change key' => key' | _ => selected done key end.
Proof. unfold selected. rewrite foldl_app. by destruct a. Qed.

Lemma follows_start (s0 : Main.session) :
  well_formed (Main.view s0) → pending (Main.window s0) = ∅ →
  follows s0 [] s0.
Proof.
  intros Hwf Hidle. unfold follows.
  split; [done |]. split; [done |]. split; [done |]. split; [done |].
  split; [by left |].
  intros Hex. by apply Exists_nil in Hex.
Qed.

Lemma follows_step (s0 s : Main.session) (done : list Main.action)
    (a : Main.action) :
  follows s0 done s → follows s0 (done ++ [a]) (Main.handle s a).
Proof.
  intros (Hwf & Hall & Hsearch & Hsort & Htimer & Hstep).
  unfold follows. rewrite typed_app, selected_app.
  destruct a as [text | key | ms]; cbn [Main.handle].
  - (* input *)
    assert (Hp : pending (Main.window s) = ∅
                 ∨ ∃ id x, Main.t s = Some id ∧ pending (Main.window s) = {[id := x]}).
    { destruct Htimer as [Hidle | (id & due & Ht & Hpend & _)]; [by left |].
      right. by exists id, (due, ()). }
    pose proof (debounce_pending 250 () (Main.t s) (Main.window s) Hp) as Hd.
    destruct (Main.debounce 250 () (Main.t s) (Main.window s)) as [t' w'].
    destruct Hd as (Ht' & Hp' & Hc' & _).
    cbn [Main.view Main.t Main.window].
    split; [done |]. split; [done |]. split; [done |]. split; [done |]. split.
    + right. exists (next_timer (Main.window s)), (clock (Main.window s) + 250)%N.
      rewrite Hc'. repeat split; [done | done | lia].
    + intros _ Hidle. rewrite Hp' in Hidle.
      by apply (map_non_empty_singleton (M := gmap positive)) in Hidle.
  - (* change *)
    cbn [Main.view Main.t Main.window].
    destruct (applyFilters_in_step (Main.set_sort_value key (Main.view s)) Hwf)
      as (Hin & Hwf' & Hall' & Hs' & Hk').
    cbn zeta in *.
    split; [done |]. split; [by rewrite Hall' |].
    split; [by rewrite Hs' |]. split; [by rewrite Hk' |]. split; [done |].
    by intros _ _.
  - (* wait *)
    destruct Htimer as [Hidle | (id & due & Ht & Hpend & Hdue)].
    + rewrite (elapse_idle ms _ _ _ Hidle). cbn [Main.view Main.t Main.window pending].
      split; [done |]. split; [done |]. split; [done |]. split; [done |].
      split; [by left |].
      intros Hex _. apply Hstep; [| done].
      apply Exists_app in Hex as [Hex | Hex]; [done |].
      apply Exists_cons in Hex as [Hex | Hex]; [done | by apply Exists_nil in Hex].
    + rewrite (elapse_one ms _ _ _ _ _ _ Hpend).
      destruct (due <=? clock (Main.window s) + ms)%N eqn:Hfire.
      * cbn [Main.view Main.t Main.window pending].
        destruct (applyFilters_in_step (Main.view s) Hwf)
          as (Hin & Hwf' & Hall' & Hs' & Hk').
        cbn zeta in *.
        split; [done |]. split; [by rewrite Hall' |].
        split; [by rewrite Hs' |]. split; [by rewrite Hk' |].
        split; [by left |]. by intros _ _.
      * cbn [Main.view Main.t Main.window pending clock].
        split; [done |]. split; [done |]. split; [done |]. split; [done |].
        split.
        -- right. exists id, due. repeat split; [done | lia].
        -- intros _ Hidle.
           by apply (map_non_empty_singleton (M := gmap positive)) in Hidle.
Qed.

Lemma follows_all (s0 : Main.session) (done : list Main.action) :
  well_formed (Main.view s0) → pending (Main.window s0) = ∅ →
  follows s0 done (foldl Main.handle s0 done).
Proof.
  intros Hwf Hidle. induction done as [|a done IH] using rev_ind.
  - by apply follows_start.
  - rewrite foldl_app. cbn [foldl]. by apply follows_step.
Qed.

End session_facts.

(** X12: The list follows the controls: from a page whose records are in the
    store and with no timer pending, after any sequence of typing,
    selecting and waiting in which the user has acted, and 250 ms of
    rest, the page shows the derived view for the text that was typed
    last and the sort key that was selected last, the records are those
    of the start, and no timer is left pending. *)
Theorem view_follows_the_controls `{Host} (s : Main.session)
    (actions : list Main.action) (ms : N) :
  well_formed (Main.view s) →
  pending (Main.window s) = ∅ →
  Exists (λ a, is_wait a = false) actions →
  (250 ≤ ms)%N →
  let s' := foldl Main.handle s (actions ++ [Main.Wait ms]) in
  in_step (Main.view s')
  ∧ Main.search_value (Main.view s') = typed actions (Main.search_value (Main.view s))
  ∧ Main.sort_value (Main.view s') = selected actions (Main.sort_value (Main.view s))
  ∧ all_records (Main.view s') = all_records (Main.view s)
  ∧ pending (Main.window s') = ∅.
Proof.
  intros Hwf Hidle Hacted Hms. cbn zeta.
  pose proof (follows_all s (actions ++ [Main.Wait ms]) Hwf Hidle) as Hafter.
  pose proof (follows_all s actions Hwf Hidle) as Hbefore.
  destruct Hafter as (_ & Hall & Hsearch & Hsort & Htimer & Hstep).
  rewrite typed_app in Hsearch. rewrite selected_app in Hsort.
  assert (Hnone : pending (Main.window (foldl Main.handle s (actions ++ [Main.Wait ms]))) = ∅).
  { rewrite foldl_app. cbn [foldl Main.handle].
    destruct Hbefore as (_ & _ & _ & _ & [Hidle' | (id & due & Ht & Hpend & Hdue)] & _).
    - by rewrite (elapse_idle ms _ _ _ Hidle').
    - rewrite (elapse_one ms _ _ _ _ _ _ Hpend).
      by replace (due <=? _)%N with true by (symmetry; apply N.leb_le; lia). }
  split; [| done].
  apply Hstep; [| done]. apply Exists_app. by left.
Qed.

Lemma view_follows_the_controls_witness :
  let s :=
    {| Main.view := page_of [box; tray; roll] "" "relevance";
       Main.t := None; Main.window := idle_window |} in
  rendered
    (Main.view
       (foldl (@Main.handle latin_host) s
          [Main.Input "t"; Main.Wait 100; Main.Change "price-asc";
           Main.Input "tr"; Main.Wait 300]))
  = [roll; tray].
Proof.
  cbn zeta.
  destruct (@view_follows_the_controls latin_host
              {| Main.view := page_of [box; tray; roll] "" "relevance";
                 Main.t := None; Main.window := idle_window |}
              [Main.Input "t"; Main.Wait 100; Main.Change "price-asc"; Main.Input "tr"]
              300)
    as ((Hr & _) & Hs & Hk & Ha & _).
  - apply elem_of_dom. by eexists.
  - reflexivity.
  - apply Exists_cons. by left.
  - lia.
  - cbn [app] in *. rewrite Hr, Ha. unfold Main.query. rewrite Hs, Hk.
    vm_compute. reflexivity.
Defined.

Section after_load.
Context `{Host}.

Lemma recompute_keeps (inputs : list (string * string)) (st : Main.page) :
  well_formed st →
  let st' := foldl recompute st inputs in
  well_formed st'
  ∧ all_records st' = all_records st
  ∧ Main.msg_text st' = Main.msg_text st
  ∧ Main.msg_aria_hidden st' = Main.msg_aria_hidden st
  ∧ Main.origin st' = Main.origin st
  ∧ (inputs ≠ [] → in_step st').
Proof.
  intros Hwf. cbn zeta. induction inputs as [|input inputs IH] using rev_ind.
  - by repeat split.
  - rewrite foldl_app. cbn [foldl].
    destruct IH as (Hwf' & Hall & Hm & Ha & Ho & _).
    set (st1 := foldl recompute st inputs) in *.
    change (recompute st1 input) with
      (Main.applyFilters
         (Main.set_sort_value input.2 (Main.set_search_value input.1 st1))).
    set (st2 := Main.set_sort_value _ _).
    destruct (applyFilters_in_step st2 Hwf') as (Hin & Hwf2 & Hall2 & _).
    destruct (applyFilters_spec st2) as (_ & _ & _ & _ & _ & _ & Hm2 & Ha2 & _ & _ & Ho2).
    cbn zeta in *.
    split; [done |]. split; [by rewrite Hall2 |]. split; [by rewrite Hm2 |].
    split; [by rewrite Ha2 |]. split; [by rewrite Ho2 |]. done.
Qed.

Lemma loaded_controls (l : list record) (st : Main.page) :
  let st' := loaded l st in
  well_formed st'
  ∧ Main.search_value st' = Main.search_value st
  ∧ Main.sort_value st' = Main.sort_value st
  ∧ Main.origin st' = Main.origin st.
Proof.
  unfold loaded, alloc, well_formed. cbn zeta.
  set (r := fresh (dom (Main.store st))).
  set (st1 := Main.set_msg _ _ _).
  assert (Hr : Main.products st1 ∈ dom (Main.store st1)).
  { cbn. rewrite dom_insert_L. apply elem_of_union_l. by apply elem_of_singleton. }
  destruct (renderList_spec (Main.products st1) st1 Hr)
    as (_ & _ & Hp & _ & _ & Hdom & _ & _ & Hs & Hk & Ho).
  cbn zeta in *. split; [| done]. rewrite Hp. by apply Hdom.
Qed.

End after_load.

(** X13: After a failed load the failure notice does not survive a search: when
    every request fails on a page without records, the container shows
    the failure notice, and after any use of the controls it shows the
    no-results message instead, while the message line still reports the
    failure. *)
Theorem search_after_failed_load `{Host} (retries : nat) (net : nat → reply)
    (st : Main.page) (inputs : list (string * string)) :
  well_formed st → all_records st = [] →
  (∀ k, (k ≤ retries)%nat → Main.attempt_records (net k) = None) →
  inputs ≠ [] →
  let failed := (Main.fetchProductsWithRetry retries net st).1 in
  let st' := foldl recompute failed inputs in
  Main.container failed = [Html Main.load_failed_html]
  ∧ Main.container st' = [Html Main.no_results]
  ∧ Main.msg_text st' = Main.load_failed_msg
  ∧ Main.msg_aria_hidden st' = Some "false".
Proof.
  intros Hwf Hempty Hfail Hinputs. cbn zeta. unfold Main.fetchProductsWithRetry.
  rewrite (attempts_all_fail retries 0 retries)
    by (try lia; intros; apply Hfail; lia).
  cbn [fst]. split; [reflexivity |].
  set (failed := load_failed _).
  assert (Hwf' : well_formed failed) by exact Hwf.
  destruct (recompute_keeps inputs failed Hwf') as (_ & Hall & Hm & Ha & _ & Hin).
  cbn zeta in *. destruct (Hin Hinputs) as [Hr Hc].
  rewrite Hm, Ha. split; [| by split].
  rewrite Hc, Hr, Hall.
  change (all_records failed) with (all_records st). rewrite Hempty.
  unfold derive. cbn [List.filter].
  assert (Hsort : ∀ key, sort_for key [] = []).
  { intros key. apply Permutation_nil. by rewrite sort_for_perm. }
  by rewrite Hsort.
Qed.

Lemma search_after_failed_load_witness :
  Main.container
    (foldl (@recompute latin_host)
       (@Main.fetchProductsWithRetry latin_host Main.MAX_RETRIES (λ _, Hangs)
          (page_of [] "" "relevance")).1
       [("oak", "relevance")])
  = [Html Main.no_results].
Proof.
  destruct (@search_after_failed_load latin_host Main.MAX_RETRIES (λ _, Hangs)
              (page_of [] "" "relevance") [("oak", "relevance")])
    as (_ & Hc & _).
  - apply elem_of_dom. by eexists.
  - reflexivity.
  - reflexivity.
  - discriminate.
  - exact Hc.
Defined.

(** X14: The load renders the whole catalogue and does not look at the
    controls: when a request succeeds, the list that arrived is rendered
    as it is and the search text and the sort key stay; the page is then
    in step with its controls only if they select the whole list in its
    order, and the next use of the controls shows the derived view. *)
Theorem loaded_list_ignores_the_controls `{Host} (retries k : nat)
    (net : nat → reply) (st : Main.page) (l : list record) :
  (k ≤ retries)%nat →
  (∀ j, (j < k)%nat → Main.attempt_records (net j) = None) →
  Main.attempt_records (net k) = Some l →
  let shown := (Main.fetchProductsWithRetry retries net st).1 in
  rendered shown = l
  ∧ Main.search_value shown = Main.search_value st
  ∧ Main.sort_value shown = Main.sort_value st
  ∧ (in_step shown ↔ derive l (Main.query st) (Main.sort_value st) = l)
  ∧ (∀ input,
       rendered (recompute shown input)
       = derive l (Main.query (Main.set_search_value input.1 st)) input.2).
Proof.
  intros Hk Hfail Hl. cbn zeta. unfold Main.fetchProductsWithRetry.
  rewrite (attempts_first_success retries 0 retries k _ _ l)
    by (try done; try lia; intros; apply Hfail; lia).
  cbn [fst]. set (st0 := Main.set_msg _ _ st).
  destruct (loaded_spec l st0) as (Hall & Hr & Hc & _).
  destruct (loaded_controls l st0) as (Hwf & Hs & Hkey & Ho).
  cbn zeta in *.
  change (Main.search_value st0) with (Main.search_value st) in Hs.
  change (Main.sort_value st0) with (Main.sort_value st) in Hkey.
  split; [done |]. split; [done |]. split; [done |]. split.
  - unfold in_step, Main.query. rewrite Hr, Hall, Hs, Hkey, Hc, Ho.
    split; [intros [Heq _]; by symmetry | intros Heq; split; [by symmetry | done]].
  - intros input. unfold recompute.
    destruct (applyFilters_spec
                (Main.set_sort_value input.2
                   (Main.set_search_value input.1 (loaded l st0)))) as (-> & _).
    change (all_records (Main.set_sort_value _ _)) with (all_records (loaded l st0)).
    rewrite Hall. reflexivity.
Qed.

Lemma loaded_list_ignores_the_controls_witness :
  rendered
    (@Main.fetchProductsWithRetry latin_host Main.MAX_RETRIES slow_then_ok
       (page_of [] "roll" "price-desc")).1
  = [box; roll].
Proof.
  destruct (@loaded_list_ignores_the_controls latin_host Main.MAX_RETRIES 1
              slow_then_ok (page_of [] "roll" "price-desc") [box; roll])
    as (Hr & _).
  - unfold Main.MAX_RETRIES. lia.
  - intros j Hj. assert (j = 0%nat) as -> by lia. reflexivity.
  - reflexivity.
  - exact Hr.
Defined.

Section message_link.

Lemma encodeURIComponent_unreserved (s : string) :
  JS.every JS.uri_unreserved s = true → JS.encodeURIComponent s = s.
Proof.
  induction s as [|c s IH]; [done |]. cbn [JS.every].
  intros Hs. apply andb_true_iff in Hs as [Hc Hs].
  rewrite encodeURIComponent_step, (IH Hs). unfold encode_byte. by rewrite Hc.
Qed.

End message_link.

(** X15: For a record whose id has only unreserved characters, the address in
    the enquiries of the list page is the address that the card links
    to: the decoded WhatsApp message ends with the origin and the link of
    the card, and the body of the mail has the same address. *)
Theorem enquiry_link_is_card_link (origin : string) (p : record) :
  JS.every JS.uri_unreserved (ToString (get p "id")) = true →
  let address := origin +:+ "/" +:+ detail_link p in
  (∃ text,
     Main.makeWhatsAppLink origin p = "https://wa.me/916353288843?text=" +:+ text
     ∧ JS.percent_decode text = enquiry p address)
  ∧ JS.substring_of ("Product Link: " +:+ address +:+ "%0D%0A")
      (Main.makeEmailLink origin p).
Proof.
  intros Hid. cbn zeta. unfold detail_link.
  rewrite (encodeURIComponent_unreserved _ Hid). split.
  - eexists. split; [reflexivity |]. apply percent_decode_encode.
  - unfold Main.makeEmailLink.
    exists ("mailto:" +:+ Main.MERCHANT_EMAIL +:+ "?subject=" +:+
            JS.encodeURIComponent ("Product enquiry: " +:+ ToString (get p "name")) +:+
            "&body=" +:+ "Hi,%0D%0A%0D%0AI am interested in " +:+
            ToString (get p "name") +:+ " (ID: " +:+ ToString (get p "id") +:+
            "). Please share availability and pricing.%0D%0A%0D%0A"),
           "%0D%0AThanks.".
    rewrite !append_assoc. reflexivity.
Qed.

Lemma enquiry_link_is_card_link_witness :
  JS.substring_of "Product Link: https://shop.example/product.html?id=r-2%0D%0A"
    (Main.makeEmailLink "https://shop.example" roll).
Proof.
  destruct (enquiry_link_is_card_link "https://shop.example" roll) as [_ Hmail].
  - reflexivity.
  - exact Hmail.
Defined.

(* ===================================================================== *)
(** ** The theme on both pages *)
(* ===================================================================== *)

Section theme_facts.

Lemma other_theme_cases (current : option string) :
  other_theme current = "light" ∨ other_theme current = "dark".
Proof. unfold other_theme. destruct (String.eqb _ _); auto. Qed.

Lemma other_theme_twice (current : option string) :
  other_theme (Some (other_theme (Some (other_theme current))))
  = other_theme current.
Proof. by destruct (other_theme_cases current) as [-> | ->]. Qed.

Lemma main_toggle (st : Main.theme_state) :
  Main.toggleTheme st = Main.setTheme (other_theme (Main.data_theme st)) st.
Proof. reflexivity. Qed.

Lemma product_toggle (st : Product.theme_state) :
  Product.toggleTheme st
  = Product.setTheme (other_theme (Product.data_theme st)) st.
Proof. reflexivity. Qed.

Lemma main_setTheme_twice (a b : string) (st : Main.theme_state) :
  Main.setTheme a (Main.setTheme b st) = Main.setTheme a st.
Proof. unfold Main.setTheme. cbn. by rewrite insert_insert_eq. Qed.

Lemma product_setTheme_twice (a b : string) (st : Product.theme_state) :
  Product.setTheme a (Product.setTheme b st) = Product.setTheme a st.
Proof.
  unfold Product.setTheme. cbn. rewrite insert_insert_eq.
  by destruct (Product.toggle_text st), (Product.logo_src st).
Qed.

Lemma product_setTheme_themed (t : string) (st : Product.theme_state) :
  detail_themed t (Product.setTheme t st).
Proof.
  unfold detail_themed, Product.setTheme. cbn. rewrite lookup_insert_eq.
  repeat split.
  - intros text. destruct (Product.toggle_text st); cbn; congruence.
  - intros src. destruct (Product.logo_src st); cbn; congruence.
Qed.

End theme_facts.

(** X16: From any state, also one with an unknown or missing theme, one toggle
    leaves the page themed light or dark everywhere, and three toggles
    are one toggle, on the list page and on the detail page; the detail
    page never creates a button or a logo that it does not have. *)
Theorem toggleTheme_thrice (st : Main.theme_state) (d : Product.theme_state) :
  Main.toggleTheme (Main.toggleTheme (Main.toggleTheme st)) = Main.toggleTheme st
  ∧ Product.toggleTheme (Product.toggleTheme (Product.toggleTheme d))
    = Product.toggleTheme d
  ∧ (themed "light" (Main.toggleTheme st) ∨ themed "dark" (Main.toggleTheme st))
  ∧ (detail_themed "light" (Product.toggleTheme d)
     ∨ detail_themed "dark" (Product.toggleTheme d))
  ∧ (Product.toggle_text (Product.toggleTheme d) = None ↔ Product.toggle_text d = None)
  ∧ (Product.logo_src (Product.toggleTheme d) = None ↔ Product.logo_src d = None).
Proof.
  split; [| split; [| split; [| split; [| split]]]].
  - rewrite !main_toggle. cbn [Main.data_theme Main.setTheme].
    by rewrite !main_setTheme_twice, other_theme_twice.
  - rewrite !product_toggle. cbn [Product.data_theme Product.setTheme].
    by rewrite !product_setTheme_twice, other_theme_twice.
  - rewrite main_toggle.
    destruct (other_theme_cases (Main.data_theme st)) as [-> | ->];
      [left | right]; apply setTheme_themed.
  - rewrite product_toggle.
    destruct (other_theme_cases (Product.data_theme d)) as [-> | ->];
      [left | right]; apply product_setTheme_themed.
  - rewrite product_toggle. cbn. by destruct (Product.toggle_text d).
  - rewrite product_toggle. cbn. by destruct (Product.logo_src d).
Qed.

(** X17: The theme carries over between the pages: a theme that one page has
    set is the theme that [initTheme] of the other page applies when it
    starts with the same storage, and starting does not change what is
    stored. *)
Theorem theme_carries_over (t : string) (m m0 : Main.theme_state)
    (d d0 : Product.theme_state) :
  t ≠ "" →
  Product.localStorage d0 = Main.localStorage (Main.setTheme t m) →
  Main.localStorage m0 = Product.localStorage (Product.setTheme t d) →
  detail_themed t (Product.initTheme d0)
  ∧ Product.localStorage (Product.initTheme d0) = Product.localStorage d0
  ∧ themed t (Main.initTheme m0)
  ∧ Main.localStorage (Main.initTheme m0) = Main.localStorage m0.
Proof.
  intros Ht Hd Hm.
  assert (Hor : Main.or_light (Some t) = t).
  { unfold Main.or_light. by destruct (String.eqb_spec t ""). }
  assert (Hd0 : Product.localStorage d0 !! "theme" = Some t).
  { rewrite Hd. cbn. apply lookup_insert_eq. }
  assert (Hm0 : Main.localStorage m0 !! "theme" = Some t).
  { rewrite Hm. cbn. apply lookup_insert_eq. }
  unfold Product.initTheme, Main.initTheme. rewrite Hd0, Hm0, Hor.
  split; [apply product_setTheme_themed |].
  split; [cbn; by apply insert_id |].
  split; [apply setTheme_themed |].
  cbn. by apply insert_id.
Qed.

Lemma theme_carries_over_witness :
  Product.data_theme
    (Product.initTheme
       {| Product.data_theme := None;
          Product.localStorage := Main.localStorage (Main.toggleTheme (Main.initTheme fresh_theme));
          Product.toggle_text := Some ""; Product.logo_src := None |})
  = Some "dark".
Proof.
  destruct (theme_carries_over "dark" (Main.initTheme fresh_theme)
              (Main.toggleTheme (Main.initTheme fresh_theme))
              {| Product.data_theme := None; Product.localStorage := ∅;
                 Product.toggle_text := None; Product.logo_src := None |}
              {| Product.data_theme := None;
                 Product.localStorage :=
                   Main.localStorage (Main.toggleTheme (Main.initTheme fresh_theme));
                 Product.toggle_text := Some ""; Product.logo_src := None |})
    as ((Hd & _) & _).
  - discriminate.
  - reflexivity.
  - reflexivity.
  - exact Hd.
Defined.

(* ===================================================================== *)
(** ** The gallery of the detail page *)
(* ===================================================================== *)

Section gallery_facts.
Context `{Host}.

Lemma mainImg_markup (p : record) :
  Product.mainImg p = img_markup (mainImg_attrs p).
Proof.
  unfold Product.mainImg, img_markup, mainImg_attrs.
  cbn [map JS.join fst snd]. rewrite !append_assoc. reflexivity.
Qed.

Lemma thumbnail_markup (p : record) (index : nat) (imgSrc : value) :
  Product.thumbnail p index imgSrc = img_markup (thumbnail_attrs p index imgSrc).
Proof.
  unfold Product.thumbnail, img_markup, thumbnail_attrs.
  cbn [map JS.join fst snd]. rewrite !append_assoc. reflexivity.
Qed.

End gallery_facts.

Section parseInt_facts.

Lemma read_digits_uint (d : Decimal.uint) (a : positive) (len : Z) :
  JS.read_digits 10 (NilEmpty.string_of_uint d) (Z.pos a) len
  = (Z.pos (Pos.of_uint_acc d a), len + Z.of_nat (Decimal.nb_digits d), "").
Proof.
  revert a len.
  induction d as [|d IH|d IH|d IH|d IH|d IH|d IH|d IH|d IH|d IH|d IH];
    intros a len;
    [cbn; f_equal; f_equal; lia | ..];
    cbn [NilEmpty.string_of_uint JS.read_digits Decimal.nb_digits Pos.of_uint_acc];
    change (JS.digit_of 10 _) with (Some 0) || change (JS.digit_of 10 _) with (Some 1)
    || change (JS.digit_of 10 _) with (Some 2) || change (JS.digit_of 10 _) with (Some 3)
    || change (JS.digit_of 10 _) with (Some 4) || change (JS.digit_of 10 _) with (Some 5)
    || change (JS.digit_of 10 _) with (Some 6) || change (JS.digit_of 10 _) with (Some 7)
    || change (JS.digit_of 10 _) with (Some 8) || change (JS.digit_of 10 _) with (Some 9);
    cbn iota;
    match goal with
    | |- JS.read_digits 10 _ ?acc ?l = (Z.pos (Pos.of_uint_acc _ ?b), _, _) =>
        replace acc with (Z.pos b) by lia; rewrite IH; f_equal; f_equal; lia
    end.
Qed.

Lemma read_digits_uint_0 (d : Decimal.uint) (len : Z) :
  JS.read_digits 10 (NilEmpty.string_of_uint d) 0 len
  = (Z.of_N (Pos.of_uint d), len + Z.of_nat (Decimal.nb_digits d), "").
Proof.
  revert len.
  induction d as [|d IH|d IH|d IH|d IH|d IH|d IH|d IH|d IH|d IH|d IH];
    intros len;
    [cbn; f_equal; f_equal; lia | ..];
    cbn [NilEmpty.string_of_uint JS.read_digits Decimal.nb_digits Pos.of_uint];
    change (JS.digit_of 10 _) with (Some 0) || change (JS.digit_of 10 _) with (Some 1)
    || change (JS.digit_of 10 _) with (Some 2) || change (JS.digit_of 10 _) with (Some 3)
    || change (JS.digit_of 10 _) with (Some 4) || change (JS.digit_of 10 _) with (Some 5)
    || change (JS.digit_of 10 _) with (Some 6) || change (JS.digit_of 10 _) with (Some 7)
    || change (JS.digit_of 10 _) with (Some 8) || change (JS.digit_of 10 _) with (Some 9);
    cbn iota;
    [ change (0 * 10 + 0) with 0; rewrite IH; f_equal; f_equal; lia
    | match goal with
      | |- JS.read_digits 10 _ ?acc ?l = (Z.of_N (N.pos (Pos.of_uint_acc _ ?b)), _, _) =>
          change acc with (Z.pos b); rewrite read_digits_uint; f_equal; f_equal; lia
      end .. ].
Qed.

End parseInt_facts.

Section click_facts.
Context `{Host}.

Lemma uint_not_Nil (n : N) : N.to_uint n ≠ Decimal.Nil.
Proof.
  intros Hnil. pose proof (DecimalN.Unsigned.of_to n) as Hn.
  rewrite Hnil in Hn. cbn in Hn. subst n. discriminate.
Qed.

Lemma string_of_uint_start (d : Decimal.uint) :
  d ≠ Decimal.Nil →
  let s := NilEmpty.string_of_uint d in
  JS.trimStart s = s
  ∧ JS.read_sign s = (false, s)
  ∧ match s with
    | String "0" (String c s') =>
        if Ascii.eqb c "x" || Ascii.eqb c "X" then (16, s') else (10, s)
    | _ => (10, s)
    end = (10, s)
  ∧ (0 < Decimal.nb_digits d)%nat.
Proof.
  intros Hd. cbn zeta.
  destruct d as [|d|d|d|d|d|d|d|d|d|d]; [done | ..];
    (split; [destruct d; reflexivity |]);
    (split; [reflexivity |]);
    (split; [destruct d; reflexivity | cbn; lia]).
Qed.

Lemma parseInt_index (k : nat) :
  JS.parseInt (JS.string_of_Z (Z.of_nat k)) = Some (Z.of_nat k).
Proof.
  unfold JS.parseInt, JS.string_of_Z, NilZero.string_of_uint.
  pose proof (uint_not_Nil (Z.to_N (Z.of_nat k))) as Hd.
  pose proof (DecimalN.Unsigned.of_to (Z.to_N (Z.of_nat k))) as Hk.
  destruct (N.to_uint (Z.to_N (Z.of_nat k))) as [|d|d|d|d|d|d|d|d|d|d] eqn:Hu;
    [done | ..];
    match goal with
    | |- context [NilEmpty.string_of_uint ?d] =>
        destruct (string_of_uint_start d) as (-> & -> & -> & Hlen); [done |];
        rewrite read_digits_uint_0;
        unfold N.of_uint in Hk; rewrite Hk;
        destruct (Z.eqb_spec (0 + Z.of_nat (Decimal.nb_digits d)) 0) as [Hz | _];
        [lia | f_equal; lia]
    end.
Qed.

Lemma thumbnail_click_showing (images : list value) (shown this : nat) :
  (this < length images)%nat → Z.of_nat (length images) < 2 ^ 32 - 1 →
  Product.thumbnail_click images this (showing images shown)
  = showing images this.
Proof.
  intros Hthis Hlen. unfold Product.thumbnail_click, showing.
  cbn [Product.thumbnails Product.main_src].
  rewrite list_lookup_fmap, lookup_seq_lt by done.
  change (0 + this)%nat with this.
  cbn [fmap option_fmap option_map thumb_at Product.data_index].
  rewrite parseInt_index.
  unfold Array_get.
  replace ((0 <=? Z.of_nat this) && (Z.of_nat this <? 2 ^ 32 - 1)) with true
    by (symmetry; apply andb_true_iff; split; [apply Z.leb_le | apply Z.ltb_lt]; lia).
  rewrite Nat2Z.id. f_equal.
  apply list_eq. intros k.
  rewrite list_lookup_imap, !list_lookup_fmap.
  destruct (decide (k < length images)%nat) as [Hk | Hk].
  - rewrite lookup_seq_lt by done. change (0 + k)%nat with k.
    cbn [fmap option_fmap option_map]. unfold thumb_at.
    cbn [Product.data_index Product.classList]. do 2 f_equal.
    destruct (k =? shown)%nat, (k =? this)%nat; reflexivity.
  - by rewrite lookup_seq_ge by lia.
Qed.

Lemma parsed_gallery_showing (href : string) (p : record) (g : Product.gallery) :
  parsed_gallery href p = Some g → g = showing (Product.images p) 0.
Proof.
  unfold parsed_gallery. destruct (forallb _ _); [| done]. intros [= <-].
  unfold showing. f_equal.
  - unfold mainImg_attrs. cbn. by destruct (Product.images p).
  - apply list_eq. intros k.
    rewrite list_lookup_imap, list_lookup_fmap.
    destruct (Product.images p !! k) as [src|] eqn:Hsrc.
    + apply lookup_lt_Some in Hsrc as Hk. rewrite lookup_seq_lt by done.
      change (0 + k)%nat with k. cbn [fmap option_fmap option_map].
      unfold thumb_at, thumbnail_attrs, attribute. cbn [List.find String.eqb Ascii.eqb Bool.eqb fst snd fmap option_fmap option_map default].
      do 2 f_equal. by destruct k.
    + apply lookup_ge_None in Hsrc. by rewrite lookup_seq_ge by lia.
Qed.

Lemma images_not_empty (p : record) : Product.images p ≠ [].
Proof. unfold Product.images. by destruct (get p "images") as [| | | | |[|x l]|]. Qed.

End click_facts.

(** X18: The gallery shows the image that was clicked last: in the gallery that
    the markup of [renderProduct] gives, after any clicks on thumbnails
    the source of the main image is the image of the thumbnail clicked
    last (the first image before any click), exactly that thumbnail has
    the class [active], and every thumbnail keeps its class [thumbnail]
    and its index. *)
Theorem gallery_shows_the_clicked_image `{Host} (href : string) (p : record)
    (g : Product.gallery) (clicks : list nat) :
  parsed_gallery href p = Some g →
  Z.of_nat (length (Product.images p)) < 2 ^ 32 - 1 →
  Forall (λ k, (k < length (Product.images p))%nat) clicks →
  let g' := foldl (λ g k, Product.thumbnail_click (Product.images p) k g) g clicks in
  Product.main_src g'
  = Some (ToString (default Undefined (Product.images p !! current clicks)))
  ∧ (current clicks < length (Product.images p))%nat
  ∧ length (Product.thumbnails g') = length (Product.images p)
  ∧ (∀ k th, Product.thumbnails g' !! k = Some th →
       ("active" ∈ Product.classList th ↔ k = current clicks)
       ∧ "thumbnail" ∈ Product.classList th
       ∧ Product.data_index th = Some (JS.string_of_Z (Z.of_nat k))).
Proof.
  intros Hg Hlen Hclicks. cbn zeta.
  apply parsed_gallery_showing in Hg as ->.
  assert (Hshow : foldl (λ g k, Product.thumbnail_click (Product.images p) k g)
                    (showing (Product.images p) 0) clicks
                  = showing (Product.images p) (current clicks)
                  ∧ (current clicks < length (Product.images p))%nat).
  { induction clicks as [|k clicks IH] using rev_ind.
    - split; [done |]. cbn. pose proof (images_not_empty p).
      destruct (Product.images p); [done | cbn; lia].
    - apply Forall_app in Hclicks as [Hclicks Hk].
      apply Forall_cons in Hk as [Hk _].
      destruct (IH Hclicks) as [IHg _].
      rewrite foldl_app. cbn [foldl]. rewrite IHg.
      unfold current. rewrite List.last_last.
      split; [by apply thumbnail_click_showing | done]. }
  destruct Hshow as [-> Hcur].
  unfold showing. cbn [Product.main_src Product.thumbnails].
  split; [done |]. split; [done |].
  split; [by rewrite length_fmap, length_seq |].
  intros k th. rewrite list_lookup_fmap.
  destruct (seq 0 (length (Product.images p)) !! k) as [k'|] eqn:Hk; [| done].
  apply lookup_seq in Hk as [-> _]. cbn. intros [= <-].
  unfold thumb_at. cbn [Product.classList Product.data_index].
  split; [| split; [| done]].
  - destruct (Nat.eqb_spec k (current clicks)) as [-> | Hne].
    + split; [done |]. intros _. apply list_elem_of_In. simpl. tauto.
    + split; [| done]. intros Hin. apply list_elem_of_In in Hin. simpl in Hin.
      destruct Hin as [Hin | []]. discriminate.
  - destruct (k =? current clicks)%nat; apply list_elem_of_In; simpl; tauto.
Qed.

Lemma gallery_shows_the_clicked_image_witness :
  let p : record :=
    <["images" := Arr [Str "a.png"; Str "b.png"; Str "c.png"]]> box in
  Product.main_src
    (foldl (λ g k, Product.thumbnail_click (Product.images p) k g)
       (showing (Product.images p) 0) [2; 1]%nat)
  = Some "b.png".
Proof.
  cbn zeta.
  destruct (@gallery_shows_the_clicked_image latin_host
              "https://shop.example/product.html?id=3"
              (<["images" := Arr [Str "a.png"; Str "b.png"; Str "c.png"]]> box)
              (showing
                 (Product.images
                    (<["images" := Arr [Str "a.png"; Str "b.png"; Str "c.png"]]> box)) 0)
              [2; 1]%nat)
    as (Hsrc & _).
  - vm_compute. reflexivity.
  - vm_compute. reflexivity.
  - repeat constructor.
  - exact Hsrc.
Defined.

(* ===================================================================== *)
(** ** The structure of the markup of the detail page *)
(* ===================================================================== *)

Section skeleton_facts.
Context `{Host}.

Lemma skeleton_app (a b : string) :
  skeleton (a +:+ b) = skeleton a +:+ skeleton b.
Proof.
  unfold skeleton. induction a as [|c a IH]; [done |].
  change (String c a +:+ b) with (String c (a +:+ b)). cbn [JS.remove].
  rewrite IH. by destruct (negb (structural c)).
Qed.

Lemma skeleton_every (s : string) :
  JS.every (λ c, negb (structural c)) s = true → skeleton s = "".
Proof.
  unfold skeleton. induction s as [|c s IH]; [done |]. cbn [JS.every JS.remove].
  intros Hs. apply andb_true_iff in Hs as [-> Hs]. by apply IH.
Qed.

Lemma skeleton_escapeHtml (v : value) : skeleton (Product.escapeHtml v) = "".
Proof.
  apply skeleton_every. pose proof (escapeHtml_free_of_markup v) as Hfree.
  induction (Product.escapeHtml v) as [|c s IH]; [done |].
  cbn [free_of_markup JS.every] in *.
  apply andb_true_iff in Hfree as [Hc Hs]. rewrite (IH Hs), andb_true_r.
  unfold is_markup_char in Hc. unfold structural.
  destruct (Ascii.eqb c "<"), (Ascii.eqb c ">"), (Ascii.eqb c (ascii_of_nat 34));
    done.
Qed.

Lemma every_substring (P : ascii → bool) (s : string) (n m : nat) :
  JS.every P s = true → JS.every P (String.substring n m s) = true.
Proof.
  revert n m. induction s as [|c s IH]; intros n m Hs.
  - by destruct n, m.
  - cbn [JS.every] in Hs. apply andb_true_iff in Hs as [Hc Hs].
    destruct n as [|n]; [destruct m as [|m]; [done |] |]; cbn [String.substring].
    + cbn [JS.every]. by rewrite Hc, IH.
    + by apply IH.
Qed.

Lemma every_zeros (P : ascii → bool) (n : nat) :
  P "0"%char = true → JS.every P (JS.zeros n) = true.
Proof. intros HP. induction n as [|n IH]; [done |]. cbn. by rewrite HP, IH. Qed.

Lemma string_of_Z_digits (z : Z) :
  JS.every (λ c, negb (structural c)) (JS.string_of_Z z) = true.
Proof.
  unfold JS.string_of_Z, NilZero.string_of_uint.
  destruct (N.to_uint (Z.to_N z)) as [|d|d|d|d|d|d|d|d|d|d]; [done | ..];
    cbn [NilEmpty.string_of_uint JS.every];
    (apply andb_true_iff; split; [reflexivity |]);
    induction d; cbn [NilEmpty.string_of_uint JS.every]; try done.
Qed.

Lemma number_to_string_skeleton (x : float) :
  skeleton (JS.number_to_string x) = "".
Proof.
  apply skeleton_every. unfold JS.number_to_string.
  destruct (Prim2SF x) as [s | s | | s m e]; [done | by destruct s | done |].
  rewrite every_app. apply andb_true_iff. split; [by destruct s |].
  unfold JS.string_of_positive_finite.
  destruct (JS.shortest _ _ _ _ _) as [[digits k] n].
  pose proof (string_of_Z_digits digits) as Hd.
  repeat match goal with
         | |- context [if ?b then _ else _] => destruct b
         end;
    rewrite ?every_app, ?andb_true_iff; repeat split;
    try done; try apply every_substring; try apply every_zeros;
    try apply string_of_Z_digits; done.
Qed.

Lemma skeleton_join (l l' : list string) :
  Forall2 (λ a b, skeleton a = skeleton b) l l' →
  skeleton (JS.join "" l) = skeleton (JS.join "" l').
Proof.
  induction 1 as [|a b l l' Hab Hl IH]; [done |].
  assert (Hstep : ∀ x xs, JS.join "" (x :: xs) = x +:+ JS.join "" xs).
  { intros x [|y xs]; [| done]. cbn. symmetry. clear.
    induction x as [|c x IHx]; [done |].
    change (String c x +:+ "") with (String c (x +:+ "")). by rewrite IHx. }
  by rewrite !Hstep, !skeleton_app, Hab, IH.
Qed.

Lemma skeleton_uri (s : string) : skeleton (JS.encodeURIComponent s) = "".
Proof.
  apply skeleton_every. pose proof (encodeURIComponent_component s) as Hs.
  apply (every_impl uri_char); [| exact Hs].
  intros c Hc. unfold structural.
  destruct (Ascii.eqb_spec c "<") as [-> | _];
    [vm_compute in Hc; discriminate Hc |].
  destruct (Ascii.eqb_spec c (ascii_of_nat 34)) as [-> | _];
    [vm_compute in Hc; discriminate Hc | done].
Qed.

Lemma skeleton_thumbnail (p q : record) (i : nat) (x y : value) :
  skeleton (ToString x) = "" → skeleton (ToString y) = "" →
  skeleton (Product.thumbnail p i x) = skeleton (Product.thumbnail q i y).
Proof.
  intros Hx Hy. unfold Product.thumbnail.
  rewrite !skeleton_app, !skeleton_escapeHtml, Hx, Hy.
  rewrite (skeleton_every (JS.string_of_Z (Z.of_nat i + 1)))
    by apply string_of_Z_digits.
  rewrite (skeleton_every (JS.string_of_Z (Z.of_nat i)))
    by apply string_of_Z_digits.
  reflexivity.
Qed.

Lemma skeleton_head (r : record) :
  Forall (λ x, skeleton (ToString x) = "") (Product.images r) →
  skeleton (ToString (default Undefined (head (Product.images r)))) = "".
Proof.
  intros Hr. destruct (Product.images r) as [|x l]; [reflexivity |].
  exact (Forall_inv Hr).
Qed.

Lemma skeleton_thumbnails (p q : record) :
  Forall (λ s, skeleton s = "") (ToString <$> Product.images p) →
  Forall (λ s, skeleton s = "") (ToString <$> Product.images q) →
  length (Product.images p) = length (Product.images q) →
  skeleton (Product.mainImg p) = skeleton (Product.mainImg q)
  ∧ skeleton (Product.thumbnailsHtml p) = skeleton (Product.thumbnailsHtml q).
Proof.
  intros Hp Hq Hlen. rewrite Forall_fmap in Hp, Hq. split.
  - unfold Product.mainImg.
    rewrite !skeleton_app, !skeleton_escapeHtml.
    rewrite (skeleton_head p Hp), (skeleton_head q Hq). reflexivity.
  - unfold Product.thumbnailsHtml. apply skeleton_join.
    apply Forall2_lookup. intros i. rewrite !list_lookup_imap.
    destruct (Product.images p !! i) as [x|] eqn:Hx,
      (Product.images q !! i) as [y|] eqn:Hy.
    + constructor. apply skeleton_thumbnail.
      * exact (Forall_lookup_1 _ _ _ _ Hp Hx).
      * exact (Forall_lookup_1 _ _ _ _ Hq Hy).
    + apply lookup_lt_Some in Hx. apply lookup_ge_None in Hy. lia.
    + apply lookup_lt_Some in Hy. apply lookup_ge_None in Hx. lia.
    + constructor.
Qed.

Lemma skeleton_items (l l' : list value) :
  length l = length l' →
  skeleton (JS.join ""
              (map (λ s, "<li>" +:+ Product.escapeHtml s +:+ "</li>") l))
  = skeleton (JS.join ""
                (map (λ s, "<li>" +:+ Product.escapeHtml s +:+ "</li>") l')).
Proof.
  intros Hlen. apply skeleton_join. apply Forall2_fmap.
  apply Forall2_same_length_lookup_2; [exact Hlen |].
  intros i a b _ _. by rewrite !skeleton_app, !skeleton_escapeHtml.
Qed.

Lemma skeleton_specs (p q : record) :
  specification_count p = specification_count q →
  skeleton (Product.specsHtml p) = skeleton (Product.specsHtml q).
Proof.
  unfold specification_count, Product.specsHtml. intros Hcount.
  destruct (get p "specifications") as [| | | | |l|],
    (get q "specifications") as [| | | | |l'|];
    try reflexivity; try (exact (skeleton_items l l' Hcount));
    try (destruct l; [reflexivity | discriminate Hcount]);
    try (destruct l'; [reflexivity | discriminate Hcount]).
Qed.

End skeleton_facts.

(** X19: The fields that [renderProduct] escapes cannot change the structure of
    the page: for two records whose raw parts (image sources, name, id,
    prices and address) have no tag opener and no double quote, and which
    agree on the number of images and of specifications and on whether an
    old price and an Amazon link are present, the markup has the same
    sequence of tag openers and double quotes, whatever the other fields
    contain. *)
Theorem structure_does_not_depend_on_the_fields `{Host} (href href' : string)
    (p q : record) :
  Forall (λ s, skeleton s = "") (raw_parts href p) →
  Forall (λ s, skeleton s = "") (raw_parts href' q) →
  length (Product.images p) = length (Product.images q) →
  specification_count p = specification_count q →
  ToBoolean (get p "old_price") = ToBoolean (get q "old_price") →
  ToBoolean (get p "amazon") = ToBoolean (get q "amazon") →
  skeleton (Product.renderProduct href (Some p))
  = skeleton (Product.renderProduct href' (Some q)).
Proof.
  intros Hp Hq Hlen Hspecs Hold Hamazon. unfold raw_parts in Hp, Hq.
  apply Forall_app in Hp as [Hpi Hp]. apply Forall_app in Hq as [Hqi Hq].
  destruct (skeleton_thumbnails p q Hpi Hqi Hlen) as [Hmain Hthumbs].
  pose proof (skeleton_specs p q Hspecs) as Hlist.
  apply Forall_cons in Hp as [Hpn Hp]. apply Forall_cons in Hp as [Hpd Hp].
  apply Forall_cons in Hp as [Hph Hp]. apply Forall_cons in Hp as [Hpp Hp].
  apply Forall_cons in Hp as [Hpo _].
  apply Forall_cons in Hq as [Hqn Hq]. apply Forall_cons in Hq as [Hqd Hq].
  apply Forall_cons in Hq as [Hqh Hq]. apply Forall_cons in Hq as [Hqp Hq].
  apply Forall_cons in Hq as [Hqo _].
  unfold Product.renderProduct, Product.imageGalleryHtml, Product.oldPriceHtml,
    Product.discountHtml, Product.amazonHtml, Product.makeWhatsAppLink,
    Product.makeEmailLink.
  rewrite Hold, Hamazon.
  destruct (ToBoolean (get q "old_price")), (ToBoolean (get q "amazon"));
    cbn [negb String.eqb Ascii.eqb Bool.eqb];
    rewrite !skeleton_app, !skeleton_escapeHtml, !skeleton_uri,
      ?number_to_string_skeleton,
      Hmain, Hthumbs, Hlist, Hpn, Hpd, Hph, Hpp, Hqn, Hqd, Hqh, Hqp,
      ?Hpo, ?Hqo;
    reflexivity.
Qed.

Lemma structure_does_not_depend_on_the_fields_witness :
  skeleton
    (@Product.renderProduct latin_host "https://shop.example/product.html?id=7"
       (Some hostile_text))
  = skeleton
      (@Product.renderProduct latin_host "https://shop.example/product.html?id=1"
         (Some tray)).
Proof.
  apply (@structure_does_not_depend_on_the_fields latin_host).
  - repeat constructor.
  - repeat constructor.
  - reflexivity.
  - reflexivity.
  - reflexivity.
  - reflexivity.
Defined.
